(** * video-processor: the transcoding orchestration core

    A shallow embedding of [src/services/videoService.ts] and of the tier
    catalog [resolutionTargets] it imports, with the properties the
    specification states about them; further on, of the request handler
    [convertToHls], of the S3 and file services it calls, and of the
    parts of the video service the specification is silent about, with
    properties read off the code.

    Conventions of the embedding.
    - A JavaScript [number] that the code uses as a pixel dimension, a
      bitrate or a grid size is an integer and is modelled in [Z].
    - A JavaScript [number] that carries a measured or fractional
      quantity (a duration, the content-complexity factor, the products
      and quotients formed from them) is modelled in [Q], with exact
      arithmetic: the rounding of IEEE doubles is not part of the model,
      and neither are [NaN] and the infinities, except where [parseInt]
      produces [NaN].
    - [`${n}`] on an integer is decimal printing, stdpp's [pretty].
    - External collaborators (the file system, ffmpeg, ffprobe, S3) are
      oracles: each call returns the outcome the oracle gives it, and
      the calls that matter to a property are recorded, in order, as the
      events of a run.
    - The job register [conversionStatus] is a finite map threaded
      through every run; exceptions are the left summand of an outcome.
    - The dynamic [import('p-limit')] is taken to succeed.
    - [Binary64] repeats the arithmetic on IEEE doubles, to check the
      figures the specification quotes against the exact model. *)

From Stdlib Require Import ZArith QArith Qround Qminmax Lia Lqa Ascii String.
From Stdlib Require Import Floats.PrimFloat Floats.FloatOps Floats.SpecFloat Uint63.
From stdpp Require Import base tactics option list sorting strings pretty gmap.

Local Open Scope string_scope.
Local Open Scope Z_scope.

(** ** Numbers *)

Module Js.

(** [Math.round]: the nearest integer, a tie going up. *)
Definition Math_round (x : Q) : Z := Qfloor (x + (1 # 2)).

Definition Math_min (x y : Q) : Q := Qmin x y.
Definition Math_max (x y : Q) : Q := Qmax x y.

(** [x < y] and [x <= y] on numbers, as the tests of an [if]. *)
Definition leb (x y : Q) : bool := Qle_bool x y.
Definition ltb (x y : Q) : bool := negb (Qle_bool y x).

(** A number that may be [NaN]: [None] is [NaN]. *)
Definition number := option Z.

(** [`${n}`] for such a number. *)
Definition toString (n : number) : string :=
  match n with
  | Some z => pretty z
  | None => "NaN"
  end.

Definition times (n : number) (k : Z) : number := (fun z => z * k) <$> n.

Definition code (c : ascii) : Z := Z.of_N (N_of_ascii c).

(** The white space [parseInt] skips (the ASCII part of it). *)
Definition isWhiteSpace (c : ascii) : bool :=
  let n := code c in ((9 <=? n) && (n <=? 13)) || (n =? 32).

Fixpoint skipWhiteSpace (s : string) : string :=
  match s with
  | String c rest => if isWhiteSpace c then skipWhiteSpace rest else s
  | EmptyString => s
  end.

(** The value of [c] as a digit in the given radix, if it is one. *)
Definition digitValue (radix : Z) (c : ascii) : option Z :=
  let n := code c in
  let v :=
    if (48 <=? n) && (n <=? 57) then Some (n - 48)
    else if (97 <=? n) && (n <=? 122) then Some (n - 87)
    else if (65 <=? n) && (n <=? 90) then Some (n - 55)
    else None in
  match v with
  | Some d => if d <? radix then Some d else None
  | None => None
  end.

(** The longest prefix of [s] made of digits, as digit values. *)
Fixpoint digitPrefix (radix : Z) (s : string) : list Z :=
  match s with
  | String c rest =>
      match digitValue radix c with
      | Some d => d :: digitPrefix radix rest
      | None => []
      end
  | EmptyString => []
  end.

Definition digitsValue (radix : Z) (ds : list Z) : Z :=
  fold_left (fun acc d => acc * radix + d) ds 0.

(** The digits [parseInt] reads once white space and sign are gone:
    after [0x] or [0X] hexadecimal ones, else decimal ones, the longest
    run there is; [NaN] when that run is empty. *)
Definition parseMagnitude (s : string) : number :=
  let '(radix, digits) :=
    match s with
    | String c (String x rest) =>
        if Ascii.eqb c "0" && (Ascii.eqb x "x" || Ascii.eqb x "X")
        then (16, rest)
        else (10, s)
    | _ => (10, s)
    end in
  match digitPrefix radix digits with
  | [] => None
  | ds => Some (digitsValue radix ds)
  end.

(** [parseInt(s)] with no radix. *)
Definition parseInt (s : string) : number :=
  match skipWhiteSpace s with
  | String c rest =>
      if Ascii.eqb c "-" then times (parseMagnitude rest) (-1)
      else if Ascii.eqb c "+" then parseMagnitude rest
      else parseMagnitude (String c rest)
  | EmptyString => None
  end.

(** [x.toFixed(2)], below 10^21: the nearest multiple of 1/100, a tie
    going to the larger one, printed with two decimals. *)
Definition toFixed2 (x : Q) : string :=
  let '(sign, ax) := if ltb x 0 then ("-", (- x)%Q) else ("", x) in
  let n := Qfloor (ax * 100 + (1 # 2)) in
  let frac := n mod 100 in
  sign +:+ pretty (n / 100) +:+ "." +:+
    (if frac <? 10 then "0" else "") +:+ pretty frac.

End Js.

(** ** The tier catalog ([consts/video.ts], [types/index.ts]) *)

Record ResolutionTarget := mkTarget {
  width : Z;
  height : Z;
  baseBitrate : Z;
  crf : Z
}.

(** The object literal, as [Object.entries] lists it: the keys are not
    integer-like, so the order is the order of insertion. *)
Definition resolutionTargets : list (string * ResolutionTarget) :=
  [ ("2160p", mkTarget 3840 2160 15000 20);
    ("1440p", mkTarget 2560 1440 8000 21);
    ("1080p", mkTarget 1920 1080 5000 22);
    ("720p", mkTarget 1280 720 2500 23);
    ("480p", mkTarget 854 480 1000 23) ].

(** [resolutionTargets[key]]. *)
Fixpoint lookupTarget (key : string) (tbl : list (string * ResolutionTarget))
  : option ResolutionTarget :=
  match tbl with
  | [] => None
  | (k, t) :: rest => if String.eqb k key then Some t else lookupTarget key rest
  end.

(** ** The Resolution Planner *)

(** An element of the array [getDynamicResolutions] returns. *)
Record Resolution := mkResolution {
  r_width : Z;
  r_height : Z;
  r_bitrate : string;
  r_crf : Z;
  r_name : string
}.

Definition pixels (t : ResolutionTarget) : Z := width t * height t.
Definition r_pixels (r : Resolution) : Z := r_width r * r_height r.

(** The number [calculateBitrate] rounds to, before it is printed. *)
Definition bitrateValue (w h base : Z) (complexityFactor : Q) : Z :=
  let resolutionFactor := (inject_Z (w * h) / inject_Z (1920 * 1080))%Q in
  Js.Math_round (inject_Z base * resolutionFactor * complexityFactor)%Q.

Definition calculateBitrate (w h base : Z) (complexityFactor : Q) : string :=
  pretty (bitrateValue w h base complexityFactor) +:+ "k".

(** [Array.prototype.sort] with a comparator: a stable sort, here by
    insertion. [cmp a b <= 0] keeps [a] before [b]. *)
Section Sort.
Context {A : Type} (cmp : A -> A -> Z).

Fixpoint insert_by (x : A) (l : list A) : list A :=
  match l with
  | [] => [x]
  | y :: l' => if cmp x y <=? 0 then x :: y :: l' else y :: insert_by x l'
  end.

Definition sort_by (l : list A) : list A := foldr insert_by [] l.
End Sort.

(** [([, a], [, b]) => b.width * b.height - a.width * a.height] *)
Definition byPixelsDesc (a b : string * ResolutionTarget) : Z :=
  pixels (snd b) - pixels (snd a).

Definition possibleTargets : list (string * ResolutionTarget) :=
  sort_by byPixelsDesc resolutionTargets.

(** One catalog entry turned into a plan entry (the body of the [push]
    inside the loop). *)
Definition planEntry (contentComplexity : Q) (e : string * ResolutionTarget)
  : Resolution :=
  let '(name, t) := e in
  mkResolution (width t) (height t)
    (calculateBitrate (width t) (height t) (baseBitrate t) contentComplexity)
    (crf t) name.

(** The [for ... of possibleTargets] loop: one step per entry, the array
    under construction threaded through. *)
Definition planStep (sourcePixels : Z) (contentComplexity : Q)
    (resolutions : list Resolution) (e : string * ResolutionTarget)
  : list Resolution :=
  let targetPixels := pixels (snd e) in
  if targetPixels <=? sourcePixels
  then resolutions ++ [planEntry contentComplexity e]
  else resolutions.

(** [resolutionTargets['720p'].baseBitrate], the reference the fallback
    uses. The key is present ([lookupTarget_720p] below), so the default
    is never taken. *)
Definition fallbackBaseBitrate : Z :=
  from_option baseBitrate 0 (lookupTarget "720p" resolutionTargets).

Definition getDynamicResolutions (originalWidth originalHeight : Z)
    (contentComplexity : Q) : list Resolution :=
  let sourcePixels := originalWidth * originalHeight in
  let resolutions :=
    fold_left (planStep sourcePixels contentComplexity) possibleTargets [] in
  if (length resolutions =? 0)%nat
  then
    let baseBitrate := fallbackBaseBitrate in
    resolutions ++
      [ mkResolution originalWidth originalHeight
          (calculateBitrate originalWidth originalHeight baseBitrate
             contentComplexity)
          23
          (pretty originalHeight +:+ "p (source)") ]
  else resolutions.

(** ** The Sprite Sheet Generator: what it computes from the probed
    duration ([generateSpriteSheet], from the duration test to the
    timestamps) *)

Inductive SpriteError :=
| InvalidDurationError (duration : Q)  (* "Invalid video duration: ..." *)
| TooShortError (duration : Q).        (* "Video is too short for ..." *)

Record SpritePlan := mkSpritePlan {
  sp_rows : Z;
  sp_cols : Z;
  sp_numThumbnails : Z;
  sp_safeStart : Q;
  sp_safeEnd : Q;
  sp_safeDuration : Q;
  sp_timestamps : list string
}.

(** [let rows = 5; let cols = 5; if (duration > 600) ... else if
    (duration > 300) ...]: the pair is (rows, cols). *)
Definition spriteGrid (duration : Q) : Z * Z :=
  if Js.ltb 600 duration then (8, 10)
  else if Js.ltb 300 duration then (6, 8)
  else (5, 5).

Definition safeStart (duration : Q) : Q :=
  Js.Math_min (duration * 0.05) 2.
Definition safeEnd (duration : Q) : Q :=
  Js.Math_max (duration * 0.95) (duration - 2).
Definition safeDuration (duration : Q) : Q :=
  (safeEnd duration - safeStart duration)%Q.

(** [Array.from({ length: numThumbnails }, (_, i) => ...)] *)
Definition spriteTimestamps (duration : Q) (numThumbnails : Z) : list string :=
  let denom := if numThumbnails - 1 =? 0 then 1 else numThumbnails - 1 in
  map (fun i : Z =>
         let position :=
           (safeStart duration
            + (safeDuration duration * inject_Z i) / inject_Z denom)%Q in
         Js.toFixed2 position)
      (seqZ 0 numThumbnails).

(** The two places where the generator gives up on a duration. Between
    them it creates the directory for the frames, so they are two
    stages: the duration test with the choice of the grid, and the test
    of the window with the choice of the timestamps. *)
Definition spriteLayout (duration : Q) : SpriteError + (Z * Z * Z) :=
  if Js.leb duration 0 then inl (InvalidDurationError duration)
  else
    let '(rows, cols) := spriteGrid duration in
    let numThumbnails := rows * cols in
    inr (rows, cols, numThumbnails).

Definition spriteWindow (duration : Q) (numThumbnails : Z)
  : SpriteError + list string :=
  if Js.leb (safeDuration duration) 0 then inl (TooShortError duration)
  else inr (spriteTimestamps duration numThumbnails).

(** What the generator computes from a probed duration, the two stages
    together. *)
Definition planSpriteSheet (duration : Q) : SpriteError + SpritePlan :=
  match spriteLayout duration with
  | inl e => inl e
  | inr (rows, cols, numThumbnails) =>
      match spriteWindow duration numThumbnails with
      | inl e => inl e
      | inr timestamps =>
          inr (mkSpritePlan rows cols numThumbnails
                 (safeStart duration) (safeEnd duration)
                 (safeDuration duration) timestamps)
      end
  end.

(** ** Strings and paths *)

(** The line feed of a template literal. *)
Definition nl : string := String "010" "".

(** [xs.join(sep)] *)
Fixpoint join (sep : string) (xs : list string) : string :=
  match xs with
  | [] => ""
  | [x] => x
  | x :: rest => x +:+ sep +:+ join sep rest
  end.

Fixpoint dropChars (n : nat) (s : string) : string :=
  match n, s with
  | S n', String _ rest => dropChars n' rest
  | _, _ => s
  end.

(** [s.replace(pat, rep)] with a string pattern: the first occurrence
    only. *)
Fixpoint replaceFirst (pat rep s : string) : string :=
  if String.prefix pat s then rep +:+ dropChars (String.length pat) s
  else
    match s with
    | String c rest => String c (replaceFirst pat rep rest)
    | EmptyString => EmptyString
    end.

(** [s.endsWith(suffix)] *)
Definition endsWith (s suffix : string) : bool :=
  let n := String.length s in
  let m := String.length suffix in
  (m <=? n)%nat && String.eqb (substring (n - m) m s) suffix.

(** [path.join(dir, name)] for a normalised [dir] and an entry name. *)
Definition path_join (dir name : string) : string := dir +:+ "/" +:+ name.

(** [path.relative(from, to)] for a [to] that lies under [from]. *)
Definition path_relative (from to : string) : string :=
  if String.prefix (from +:+ "/") to
  then dropChars (String.length from + 1) to
  else to.

(** ** Effects *)

(** A thrown value: an [Error] with its message. *)
Inductive Exn := Error (message : string).

Definition message (e : Exn) : string := let 'Error m := e in m.

(** What a run leaves behind, in program order. Of the logger only the
    [error] level is recorded here. *)
Inductive Event :=
| SetStatus (objectId phase : string)     (* conversionStatus.set *)
| WriteFile (path content : string)       (* fs.writeFileSync *)
| S3Upload (key contentType body : string) (* s3.upload(params) *)
| ExtractFrame (timestamp output : string) (* ffmpeg: one frame at -ss *)
| TileFrames (cols rows : Z) (output : string) (* ffmpeg: tile=colsxrows *)
| LogError (msg : string).                (* logger.error *)

(** The process-wide [conversionStatus] map. *)
Abbreviation Register := (gmap string string).

Record Run (A : Type) := mkRun {
  outcome : Exn + A;          (* [inl]: thrown; [inr]: returned *)
  register : Register;
  events : list Event
}.
Arguments mkRun {A} _ _ _.
Arguments outcome {A} _.
Arguments register {A} _.
Arguments events {A} _.

(** Code that reads and writes the register, emits events and may
    throw. *)
Definition M (A : Type) : Type := Register -> Run A.

Definition ret {A} (a : A) : M A := fun st => mkRun (inr a) st [].

Definition throw {A} (e : Exn) : M A := fun st => mkRun (inl e) st [].

Definition bind {A B} (m : M A) (k : A -> M B) : M B :=
  fun st =>
    let r := m st in
    match outcome r with
    | inl e => mkRun (inl e) (register r) (events r)
    | inr a =>
        let r' := k a (register r) in
        mkRun (outcome r') (register r') (events r ++ events r')
    end.

(** [try { m } catch (err) { h err }] *)
Definition try_catch {A} (m : M A) (h : Exn -> M A) : M A :=
  fun st =>
    let r := m st in
    match outcome r with
    | inl e =>
        let r' := h e (register r) in
        mkRun (outcome r') (register r') (events r ++ events r')
    | inr a => r
    end.

(** [try { m } finally { f }]: [f] runs either way; what it throws
    replaces the completion of [m]. *)
Definition try_finally {A} (m : M A) (f : M unit) : M A :=
  fun st =>
    let r := m st in
    let r' := f (register r) in
    mkRun (match outcome r' with
           | inl e => inl e
           | inr _ => outcome r
           end)
          (register r') (events r ++ events r').

Definition emit (e : Event) : M unit := fun st => mkRun (inr tt) st [e].

Definition logError (msg : string) : M unit := emit (LogError msg).

(** [conversionStatus.set(objectId, phase)] *)
Definition setStatus (objectId phase : string) : M unit :=
  fun st => mkRun (inr tt) (<[objectId := phase]> st) [SetStatus objectId phase].

(** A call to a collaborator that throws or returns. *)
Definition call {A} (r : Exn + A) : M A :=
  match r with
  | inl e => throw e
  | inr a => ret a
  end.

(** A call that throws or completes. *)
Definition perform (r : option Exn) : M unit :=
  match r with
  | Some e => throw e
  | None => ret tt
  end.

Declare Scope run_scope.
Delimit Scope run_scope with run.
Bind Scope run_scope with M.

Notation "x ← y ; z" := (bind y (fun x => z))
  (at level 20, y at level 100, z at level 200, only parsing) : run_scope.
Notation "' x ← y ; z" := (bind y (fun x => z))
  (at level 20, x pattern, y at level 100, z at level 200, only parsing)
  : run_scope.
Notation "x ;; z" := (bind x (fun _ => z))
  (at level 100, z at level 200, only parsing, right associativity)
  : run_scope.

Local Open Scope run_scope.

(** [getConversionStatus] *)
Definition getConversionStatus (objectId : string) (st : Register)
  : option string := st !! objectId.

Definition emitAll (evs : list Event) : M unit := fun st => mkRun (inr tt) st evs.

(** ** The file system, as far as the code walks it *)

(** What [readdirSync(dir, { withFileTypes: true })] shows of a tree:
    an entry is a directory ([isDirectory()]) or something [unlinkSync]
    applies to. *)
#[warnings="-register-all"] Inductive node :=
| File
| Dir (entries : list (string * node)).

(** Which file-system calls throw, by path. A call may also throw for
    what the tree is: [readdirSync] on a file, [rmdirSync] on a directory
    that still has entries. *)
Record FsFaults := mkFsFaults {
  readdir_fault : string -> option Exn;
  unlink_fault : string -> option Exn;
  rmdir_fault : string -> option Exn
}.

Definition rmdirSync (F : FsFaults) (dirPath : string)
    (entries : list (string * node)) : option Exn :=
  match rmdir_fault F dirPath with
  | Some e => Some e
  | None =>
      match entries with
      | [] => None
      | _ :: _ =>
          Some (Error ("ENOTEMPTY: directory not empty, rmdir " +:+ dirPath))
      end
  end.

(** ** The Cleanup Coordinator ([cleanupDirectory]) *)

Inductive Level := LvInfo | LvError.

(** A deletion the cleanup attempted, with what it threw. *)
Inductive FsCall :=
| Unlink (path : string) (threw : option Exn)
| Rmdir (path : string) (threw : option Exn).

(** How a traversal ends: what it leaves ([remaining]: of the path for a
    call of [cleanupDirectory], of the listed entries for its loop), the
    lines it logged, the deletions it attempted, and the exception that
    leaves it, if any. *)
Record Traversal (A : Type) := mkTraversal {
  remaining : A;
  logged : list (Level * string);
  calls : list FsCall;
  thrown : option Exn
}.
Arguments mkTraversal {A} _ _ _ _.
Arguments remaining {A} _.
Arguments logged {A} _.
Arguments calls {A} _.
Arguments thrown {A} _.

Abbreviation Cleanup := (Traversal (option node)).

Definition keep (name : string) (n : option node) : list (string * node) :=
  match n with
  | Some n' => [(name, n')]
  | None => []
  end.

(** The [for (const item of items)] loop of [cleanupDirectory], with the
    recursive call as [recur]. An exception that leaves the recursive
    call ends the loop. *)
Definition cleanupItems (recur : string -> node -> Cleanup) (F : FsFaults)
    (dirPath : string)
  : list (string * node) -> Traversal (list (string * node)) :=
  fix loop (items : list (string * node)) :=
    match items with
    | [] => mkTraversal [] [] [] None
    | (name, child) :: rest =>
        let fullPath := path_join dirPath name in
        match child with
        | Dir _ =>
            (* Recursively clean subdirectories *)
            let sub := recur fullPath child in
            match thrown sub with
            | Some e =>
                mkTraversal (keep name (remaining sub) ++ rest)%list
                  (logged sub) (calls sub) (Some e)
            | None =>
                let r := loop rest in
                mkTraversal (keep name (remaining sub) ++ remaining r)%list
                  (logged sub ++ logged r)%list
                  (calls sub ++ calls r)%list (thrown r)
            end
        | File =>
            (* try { fs.unlinkSync(fullPath) } catch (err) { logger.error } *)
            match unlink_fault F fullPath with
            | None =>
                let r := loop rest in
                mkTraversal (remaining r)
                  ((LvInfo, "Deleted file: " +:+ fullPath) :: logged r)
                  (Unlink fullPath None :: calls r) (thrown r)
            | Some e =>
                let r := loop rest in
                mkTraversal ((name, File) :: remaining r)
                  ((LvError,
                    "Failed to delete file " +:+ fullPath +:+ ": "
                      +:+ message e) :: logged r)
                  (Unlink fullPath (Some e) :: calls r) (thrown r)
            end
        end
    end.

(** The [try] block of [cleanupDirectory], from [readdirSync] on, given
    how the loop over the entries went. *)
Definition cleanupAfterLoop (F : FsFaults) (dirPath : string)
    (removeDir : bool) (r : Traversal (list (string * node))) : Cleanup :=
  match thrown r with
  | Some e =>
      mkTraversal (Some (Dir (remaining r))) (logged r) (calls r) (Some e)
  | None =>
      if removeDir then
        (* try { fs.rmdirSync(dirPath) } catch (err) { logger.error } *)
        match rmdirSync F dirPath (remaining r) with
        | None =>
            mkTraversal None
              (logged r ++ [(LvInfo, "Deleted directory: " +:+ dirPath)])%list
              (calls r ++ [Rmdir dirPath None])%list None
        | Some e =>
            mkTraversal (Some (Dir (remaining r)))
              (logged r ++
                 [(LvError,
                   "Failed to delete directory " +:+ dirPath +:+ ": "
                     +:+ message e)])%list
              (calls r ++ [Rmdir dirPath (Some e)])%list None
        end
      else mkTraversal (Some (Dir (remaining r))) (logged r) (calls r) None
  end.

(** The outer [catch (err) { logger.error(...) }]. *)
Definition cleanupCatch (dirPath : string) (attempt : Cleanup) : Cleanup :=
  match thrown attempt with
  | Some e =>
      mkTraversal (remaining attempt)
        (logged attempt ++
           [(LvError,
             "Error during directory cleanup of " +:+ dirPath +:+ ": "
               +:+ message e)])%list
        (calls attempt) None
  | None => attempt
  end.

(** [cleanupDirectory] on a path that exists. The recursive call is on an
    entry [readdirSync] has just listed, so its [existsSync] test
    passes. *)
Fixpoint cleanupTree (F : FsFaults) (dirPath : string) (n : node)
    (removeDir : bool) : Cleanup :=
  cleanupCatch dirPath
    match readdir_fault F dirPath, n with
    | Some e, _ => mkTraversal (Some n) [] [] (Some e)
    | None, File =>
        mkTraversal (Some n) [] []
          (Some (Error ("ENOTDIR: not a directory, scandir " +:+ dirPath)))
    | None, Dir items =>
        cleanupAfterLoop F dirPath removeDir
          (cleanupItems (fun fullPath child => cleanupTree F fullPath child true)
             F dirPath items)
    end.

(** [cleanupDirectory(dirPath, removeDir)]; [target] is what lies at
    [dirPath], [None] when nothing does. *)
Definition cleanupDirectory (F : FsFaults) (dirPath : string)
    (target : option node) (removeDir : bool) : Cleanup :=
  match target with
  | None => mkTraversal None [] [] None (* if (!fs.existsSync(dirPath)) return *)
  | Some n => cleanupTree F dirPath n removeDir
  end.

(** ** The Upload Coordinator ([uploadHlsFilesToS3]) *)

(** The loop of the inner [readDir], with the recursive call as
    [recur]. *)
Definition readDirItems (recur : string -> node -> list string -> Exn + list string)
    (dir : string)
  : list (string * node) -> list string -> Exn + list string :=
  fix loop (items : list (string * node)) (files : list string) :=
    match items with
    | [] => inr files
    | (name, child) :: rest =>
        let fullPath := path_join dir name in
        match child with
        | Dir _ =>
            match recur fullPath child files with
            | inl e => inl e
            | inr files' => loop rest files'
            end
        | File => loop rest (files ++ [fullPath])%list
        end
    end.

(** The inner [readDir]: the files under [dir], depth first, appended to
    the array [files]. *)
Fixpoint readDir (F : FsFaults) (dir : string) (n : node) (files : list string)
  : Exn + list string :=
  match readdir_fault F dir, n with
  | Some e, _ => inl e
  | None, File => inl (Error ("ENOTDIR: not a directory, scandir " +:+ dir))
  | None, Dir items => readDirItems (readDir F) dir items files
  end.

(** How one [s3.upload(params).promise()] settles, and when. *)
Record Settled := mkSettled {
  settledAt : nat;
  rejection : option Exn
}.

(** The parameters of one upload: Key, ContentType, and the file that is
    streamed as Body. *)
Record UploadParams := mkUploadParams {
  Key : string;
  ContentType : string;
  Body : string
}.

Definition contentTypeOf (filePath : string) : string :=
  if endsWith filePath ".m3u8" then "application/x-mpegURL" else "video/MP2T".

Definition uploadParams (hlsOutputDir objectId filePath : string)
  : UploadParams :=
  let relativePath := path_relative hlsOutputDir filePath in
  let s3Key := "courses/chapters/videos/" +:+ objectId +:+ "/" +:+ relativePath in
  mkUploadParams s3Key (contentTypeOf filePath) filePath.

(** [Promise.all]: the rejection that settles first, if any promise
    rejects (the earlier promise of two that settle together). *)
Fixpoint firstRejection (settled : list Settled) : option (nat * Exn) :=
  match settled with
  | [] => None
  | s :: rest =>
      match rejection s, firstRejection rest with
      | Some e, Some (t, e') =>
          if (settledAt s <=? t)%nat then Some (settledAt s, e) else Some (t, e')
      | Some e, None => Some (settledAt s, e)
      | None, r => r
      end
  end.

(** What one upload task leaves in the trace: the call, and the error
    line when it rejects. *)
Definition uploadEvents (s3 : UploadParams -> Settled) (params : UploadParams)
  : list Event :=
  S3Upload (Key params) (ContentType params) (Body params) ::
  match rejection (s3 params) with
  | Some err =>
      [LogError ("Failed to upload " +:+ Key params +:+ ": " +:+ message err)]
  | None => []
  end.

(** [uploadHlsFilesToS3(hlsOutputDir, objectId)]. [tree] is what lies at
    [hlsOutputDir]. The pool of five bounds how many tasks run at once; it
    changes when each one settles, which is the oracle's to say, and
    nothing else. The events of the tasks are listed in task order. *)
Definition uploadHlsFilesToS3 (F : FsFaults) (s3 : UploadParams -> Settled)
    (tree : node) (hlsOutputDir objectId : string) : M unit :=
  files ← call (readDir F hlsOutputDir tree []);
  let uploads := map (uploadParams hlsOutputDir objectId) files in
  emitAll (concat (map (uploadEvents s3) uploads));;
  match firstRejection (map s3 uploads) with
  | Some (_, err) => throw err
  | None => ret tt
  end.

(** ** The Job Orchestrator ([convertToHLS]) *)

(** What [ffprobe] reports, as far as the code reads it. *)
Record Stream := mkStream {
  codec_type : string;
  s_width : Z;
  s_height : Z
}.

Record Metadata := mkMetadata {
  streams : list Stream;
  format_duration : option Q
}.

(** The collaborators of one job run: each field says how the calls the
    code makes come out. *)
Record World := mkWorld {
  cwd : string;                                   (* process.cwd() *)
  numberToString : Q -> string;          (* a number in a template literal *)
  existsSync : string -> bool;
  (* if (!fs.existsSync(dir)) fs.mkdirSync(dir, { recursive: true }) *)
  mkdir_fault : string -> option Exn;
  writeFile_fault : string -> option Exn;         (* fs.writeFileSync *)
  (* if (fs.existsSync(dir)) fs.rmSync(dir, { recursive: true, force: true }) *)
  rmSync_fault : string -> option Exn;
  readdirSync : string -> Exn + list string;
  ffprobe : string -> Exn + Metadata;
  (* createThumbnail(videoPath, objectId), of which the orchestrator
     uses the path it returns or the error it throws *)
  createThumbnail : string -> string -> Exn + string;
  (* one frame at a timestamp into an output file, and the black frame
     that stands in for it: the error ffmpeg reports, if any *)
  extractFrame : string -> string -> string -> option Exn;
  createBlankFrame : string -> option Exn;
  frameSettledAt : nat -> nat;       (* when the promise of a frame settles *)
  (* the montage of the frames of a directory on a cols by rows grid *)
  ffmpeg_tile : string -> Z -> Z -> option Exn;
  (* the segmented encode of one tier: the error ffmpeg reports, if any *)
  ffmpeg_hls : string -> Resolution -> option Exn;
  s3_upload : UploadParams -> Settled;
  faults : FsFaults;
  hlsTree : node;        (* what lies at the HLS output root after encoding *)
  (* an exception inside the cleanup block that follows a success, and
     inside the final one *)
  cleanup_fault : option Exn;
  finalCleanup_fault : option Exn
}.

Definition UPLOADS_DIR (w : World) : string := path_join (cwd w) "uploads".

Definition getVideoResolution (w : World) (videoPath : string) : Exn + (Z * Z) :=
  match ffprobe w videoPath with
  | inl err => inl (Error ("Failed to get video metadata: " +:+ message err))
  | inr metadata =>
      match List.find (fun stream => String.eqb (codec_type stream) "video")
                 (streams metadata) with
      | Some videoStream => inr (s_width videoStream, s_height videoStream)
      | None => inl (Error "No video stream found in the file")
      end
  end.

Record VariantPlaylist := mkVariantPlaylist {
  vp_width : Z;
  vp_height : Z;
  vp_bitrate : string;
  vp_resolution : string;
  vp_playlist : string
}.

(** [name.replace(' (source)', '')] *)
Definition tierDirName (name : string) : string :=
  replaceFirst " (source)" "" name.

(** The entry the [end] handler of a tier pushes. *)
Definition variantOf (r : Resolution) : VariantPlaylist :=
  mkVariantPlaylist (r_width r) (r_height r) (r_bitrate r)
    (pretty (r_width r) +:+ "x" +:+ pretty (r_height r))
    (tierDirName (r_name r) +:+ "/index.m3u8").

(** The [for ... of resolutions] loop: one tier after the other, the
    array [variantPlaylists] threaded through. *)
Fixpoint encodeVariants (w : World) (videoPath hlsOutputDir : string)
    (resolutions : list Resolution) (variantPlaylists : list VariantPlaylist)
  : M (list VariantPlaylist) :=
  match resolutions with
  | [] => ret variantPlaylists
  | r :: rest =>
      let outputDir := path_join hlsOutputDir (tierDirName (r_name r)) in
      perform (mkdir_fault w outputDir);;
      match ffmpeg_hls w videoPath r with
      | Some err => logError ("FFmpeg error: " +:+ message err);; throw err
      | None => ret tt
      end;;
      encodeVariants w videoPath hlsOutputDir rest
        (variantPlaylists ++ [variantOf r])%list
  end.

Definition streamInf (variant : VariantPlaylist) : string :=
  let bandwidth := Js.times (Js.parseInt (vp_bitrate variant)) 1000 in
  "#EXT-X-STREAM-INF:BANDWIDTH=" +:+ Js.toString bandwidth +:+ ",RESOLUTION="
    +:+ vp_resolution variant +:+ nl +:+ vp_playlist variant.

(** The text written to [master.m3u8]. *)
Definition masterPlaylist (variantPlaylists : list VariantPlaylist) : string :=
  let masterPlaylistContent := join nl (map streamInf variantPlaylists) in
  "#EXTM3U" +:+ nl +:+ masterPlaylistContent.

(** *** The Sprite Sheet Generator ([generateSpriteSheet]) *)

(** [metadata.format.duration || 0] *)
Definition probedDuration (metadata : Metadata) : Q :=
  from_option id 0%Q (format_duration metadata).

(** The inner [getVideoInfo]. The frame rate it also returns is only
    logged, and is left out. *)
Definition getVideoInfo (w : World) (videoPath : string) : Exn + Q :=
  match ffprobe w videoPath with
  | inl err => inl (Error ("Failed to get video metadata: " +:+ message err))
  | inr metadata => inr (probedDuration metadata)
  end.

(** The [Error] thrown where the generator gives up on a duration. *)
Definition spriteException (w : World) (e : SpriteError) : Exn :=
  match e with
  | InvalidDurationError duration =>
      Error ("Invalid video duration: " +:+ numberToString w duration +:+ "s")
  | TooShortError duration =>
      Error ("Video is too short for sprite sheet generation: "
               +:+ numberToString w duration +:+ "s")
  end.

Definition raise {A} (w : World) (r : SpriteError + A) : M A :=
  match r with
  | inl e => throw (spriteException w e)
  | inr a => ret a
  end.

(** [index.toString().padStart(3, '0')] *)
Definition padStart3 (s : string) : string :=
  match String.length s with
  | 0%nat => "000" +:+ s
  | 1%nat => "00" +:+ s
  | 2%nat => "0" +:+ s
  | _ => s
  end.

Definition framePath (framesDir : string) (index : nat) : string :=
  path_join framesDir ("frame-" +:+ padStart3 (pretty index) +:+ ".jpg").

(** How the promise of one frame settles: it resolves when the frame is
    extracted, and when it is not but the black frame is made. *)
Definition frameSettled (w : World) (videoPath framesDir : string)
    (index : nat) (timestamp : string) : Settled :=
  let outputPath := framePath framesDir index in
  mkSettled (frameSettledAt w index)
    match extractFrame w videoPath timestamp outputPath with
    | None => None
    | Some _ => createBlankFrame w outputPath
    end.

(** What the promise of one frame leaves in the trace. *)
Definition frameEvents (w : World) (videoPath framesDir : string)
    (index : nat) (timestamp : string) : list Event :=
  let outputPath := framePath framesDir index in
  ExtractFrame timestamp outputPath ::
  match extractFrame w videoPath timestamp outputPath with
  | None => []
  | Some err =>
      LogError ("Failed to extract frame at " +:+ timestamp +:+ "s: "
                  +:+ message err) ::
      match createBlankFrame w outputPath with
      | None => []
      | Some e => [LogError ("Failed to create blank frame: " +:+ message e)]
      end
  end.

Definition generateSpriteSheet (w : World) (videoPath objectId : string)
  : M string :=
  let outputDir := path_join (UPLOADS_DIR w) objectId in
  let spriteSheetFilename := objectId +:+ "_spritesheet.jpg" in
  let spriteSheetPath := path_join outputDir spriteSheetFilename in
  perform (mkdir_fault w outputDir);;
  try_catch
    (if negb (existsSync w videoPath)
     then throw (Error ("Video file not found: " +:+ videoPath))
     else
       duration ← call (getVideoInfo w videoPath);
       '(rows, cols, numThumbnails) ← raise w (spriteLayout duration);
       (* Create temporary directory for frames *)
       let framesDir := path_join outputDir "frames_temp" in
       perform (mkdir_fault w framesDir);;
       timestamps ← raise w (spriteWindow duration numThumbnails);
       (* the frame promises: every extraction is started *)
       emitAll (concat (imap (frameEvents w videoPath framesDir) timestamps));;
       try_finally
         (match firstRejection
                  (imap (frameSettled w videoPath framesDir) timestamps) with
          | Some (_, err) => throw err
          | None => ret tt
          end;;
          names ← call (readdirSync w framesDir);
          let extractedFrames := List.filter (String.prefix "frame-") names in
          if (length extractedFrames <? 2)%nat
          then throw (Error ("Not enough frames extracted: "
                               +:+ pretty (length extractedFrames)))
          else
            emit (TileFrames cols rows spriteSheetPath);;
            match ffmpeg_tile w framesDir cols rows with
            | Some err =>
                logError ("Failed to create sprite sheet: " +:+ message err);;
                throw err
            | None => ret tt
            end;;
            (* Upload sprite sheet to S3 *)
            let s3Key :=
              "courses/chapters/videos/" +:+ objectId +:+ "/"
                +:+ spriteSheetFilename in
            let params := mkUploadParams s3Key "image/jpeg" spriteSheetPath in
            emit (S3Upload (Key params) (ContentType params) (Body params));;
            perform (rejection (s3_upload w params));;
            ret s3Key)
         (* Clean up temporary frames directory *)
         (perform (rmSync_fault w framesDir)))
    (fun err =>
       logError ("Sprite sheet generation failed: " +:+ message err);;
       throw err).

(** The thumbnail step: create, then upload. *)
Definition thumbnailStep (w : World) (videoPath objectId : string) : M unit :=
  thumbnailPath ← call (createThumbnail w videoPath objectId);
  let thumbnailFilename := objectId +:+ "_thumbnail.jpg" in
  let thumbnailS3Key :=
    "courses/chapters/videos/" +:+ objectId +:+ "/" +:+ thumbnailFilename in
  let params := mkUploadParams thumbnailS3Key "image/jpeg" thumbnailPath in
  emit (S3Upload (Key params) (ContentType params) (Body params));;
  perform (rejection (s3_upload w params)).

Definition convertToHLS (w : World) (videoPath objectId : string) : M unit :=
  setStatus objectId "converting";;
  let hlsOutputDir := path_join (path_join (UPLOADS_DIR w) "hls") objectId in
  try_finally
    (try_catch
       (perform (mkdir_fault w hlsOutputDir);;
        (* Create thumbnail *)
        try_catch (thumbnailStep w videoPath objectId)
          (fun err =>
             logError
               ("Thumbnail creation/upload failed, continuing with conversion: "
                  +:+ message err));;
        (* Create sprite sheet *)
        try_catch (generateSpriteSheet w videoPath objectId;; ret tt)
          (fun err =>
             logError
               ("Sprite sheet generation failed, continuing with conversion: "
                  +:+ message err));;
        '(originalWidth, originalHeight) ← call (getVideoResolution w videoPath);
        let resolutions :=
          getDynamicResolutions originalWidth originalHeight 1 in
        variantPlaylists ←
          encodeVariants w videoPath hlsOutputDir resolutions [];
        (* Generate master playlist *)
        let masterPlaylistPath := path_join hlsOutputDir "master.m3u8" in
        perform (writeFile_fault w masterPlaylistPath);;
        emit (WriteFile masterPlaylistPath (masterPlaylist variantPlaylists));;
        (* Upload to S3 *)
        setStatus objectId "uploading";;
        uploadHlsFilesToS3 (faults w) (s3_upload w) (hlsTree w)
          hlsOutputDir objectId;;
        setStatus objectId "completed";;
        (* Clean up all files *)
        try_catch (perform (cleanup_fault w))
          (fun cleanupErr =>
             logError ("Error during cleanup: " +:+ message cleanupErr)))
       (fun err =>
          logError ("HLS conversion failed: " +:+ message err);;
          setStatus objectId "error";;
          throw err))
    (try_catch (perform (finalCleanup_fault w))
       (fun finalCleanupErr =>
          logError ("Final cleanup attempt failed: "
                      +:+ message finalCleanupErr))).

(** ** The same arithmetic on binary64

    The numbers of JavaScript are IEEE doubles. This module redoes the
    arithmetic of [calculateBitrate] and of the safe window on Rocq's
    primitive floats, which are binary64 as well, so that the figures
    the specification quotes can be checked against the exact model
    above. *)

Module Binary64.

(** The rational a finite double stands for. *)
Definition exact (f : float) : option Q :=
  match Prim2SF f with
  | S754_zero _ => Some 0%Q
  | S754_finite negative m e =>
      let magnitude :=
        if 0 <=? e then (inject_Z (Z.pos m) * inject_Z (2 ^ e))%Q
        else (inject_Z (Z.pos m) / inject_Z (2 ^ (- e)))%Q in
      Some (Qred (if negative then (- magnitude)%Q else magnitude))
  | _ => None
  end.

(** The double of a small natural number (below 2^53 it is exact). *)
Definition ofZ (z : Z) : float := PrimFloat.of_uint63 (Uint63.of_Z z).

(** [Math.round] of a finite double. *)
Definition Math_round (f : float) : option Z :=
  (fun q => Qfloor (q + (1 # 2))) <$> exact f.

Definition Math_min (x y : float) : float := if PrimFloat.ltb y x then y else x.
Definition Math_max (x y : float) : float := if PrimFloat.ltb x y then y else x.

Definition bitrateValue (w h base : Z) (complexityFactor : float) : option Z :=
  let resolutionFactor :=
    PrimFloat.div (PrimFloat.mul (ofZ w) (ofZ h))
      (PrimFloat.mul (ofZ 1920) (ofZ 1080)) in
  Math_round
    (PrimFloat.mul (PrimFloat.mul (ofZ base) resolutionFactor) complexityFactor).

#[warnings="-inexact-float"] Definition safeStart (duration : float) : float :=
  Math_min (PrimFloat.mul duration 0.05%float) (ofZ 2).

#[warnings="-inexact-float"] Definition safeEnd (duration : float) : float :=
  Math_max (PrimFloat.mul duration 0.95%float) (PrimFloat.sub duration (ofZ 2)).

Definition safeDuration (duration : float) : float :=
  PrimFloat.sub (safeEnd duration) (safeStart duration).

End Binary64.

(** ** The statements of the specification, as predicates *)

(** The bitrate the specification gives a tier of [w] by [h] pixels:
    [round(baseBitrate * (w*h)/(1920*1080) * complexity)], with a "k". *)
Definition specBitrate (w h base : Z) (complexity : Q) : string :=
  pretty (Qfloor (inject_Z base * (inject_Z (w * h) / inject_Z (1920 * 1080))
                    * complexity + (1 # 2))%Q) +:+ "k".




(** The catalog entry with the fewest pixels. *)
Definition smallestTier : option (string * ResolutionTarget) :=
  last possibleTargets.

Definition smallestBaseBitrate : Z :=
  from_option (fun e => baseBitrate (snd e)) 0 smallestTier.


(** The line a failed deletion must leave in the log. *)
Definition failureLine (c : FsCall) : option (Level * string) :=
  match c with
  | Unlink path (Some e) =>
      Some (LvError, "Failed to delete file " +:+ path +:+ ": " +:+ message e)
  | Rmdir path (Some e) =>
      Some (LvError,
            "Failed to delete directory " +:+ path +:+ ": " +:+ message e)
  | _ => None
  end.

(** "Every deletion failure is logged." *)
Definition failuresLogged {A} (t : Traversal A) : Prop :=
  ∀ c line, c ∈ calls t -> failureLine c = Some line -> line ∈ logged t.

(** The number of regular files in a tree. *)
Fixpoint countFiles (n : node) : nat :=
  match n with
  | File => 1
  | Dir items => list_sum (map (fun e => countFiles (snd e)) items)
  end.

(** The uploads a trace records. *)
Definition uploadsOf (evs : list Event) : list UploadParams :=
  omap (fun ev =>
          match ev with
          | S3Upload key contentType body =>
              Some (mkUploadParams key contentType body)
          | _ => None
          end) evs.

(** The writes to the Status Register a trace records, in order. *)
Definition statusWrites (evs : list Event) : list (string * string) :=
  omap (fun ev =>
          match ev with
          | SetStatus objectId phase => Some (objectId, phase)
          | _ => None
          end) evs.

(** The files a trace records as written, with their text. *)
Definition fileWrites (evs : list Event) : list (string * string) :=
  omap (fun ev =>
          match ev with
          | WriteFile path content => Some (path, content)
          | _ => None
          end) evs.

(** The mandatory stages of a job, in the order they run. *)
Inductive Stage := AtSetup | AtProbe | AtEncode | AtManifest | AtUpload.

(** The error of the first tier that fails, creating its directory or
    encoding. *)
Fixpoint tierError (w : World) (videoPath hlsOutputDir : string)
    (resolutions : list Resolution) : option Exn :=
  match resolutions with
  | [] => None
  | r :: rest =>
      match mkdir_fault w (path_join hlsOutputDir (tierDirName (r_name r))) with
      | Some e => Some e
      | None =>
          match ffmpeg_hls w videoPath r with
          | Some e => Some e
          | None => tierError w videoPath hlsOutputDir rest
          end
      end
  end.

(** The error the Upload Coordinator ends with, if it fails. *)
Definition uploadError (w : World) (hlsOutputDir objectId : string)
  : option Exn :=
  match outcome (uploadHlsFilesToS3 (faults w) (s3_upload w) (hlsTree w)
                   hlsOutputDir objectId ∅) with
  | inl e => Some e
  | inr _ => None
  end.

Definition hlsOutputDirOf (w : World) (objectId : string) : string :=
  path_join (path_join (UPLOADS_DIR w) "hls") objectId.

(** The plan of a job: the planner on the probed resolution. *)
Definition planOf (w : World) (videoPath : string) : list Resolution :=
  match getVideoResolution w videoPath with
  | inr (originalWidth, originalHeight) =>
      getDynamicResolutions originalWidth originalHeight 1
  | inl _ => []
  end.

(** The fatal error of a job: the first mandatory stage that fails, and
    the error it fails with. Thumbnail, sprite sheet and cleanup are not
    mandatory. *)
Definition fatalError (w : World) (videoPath objectId : string)
  : option (Stage * Exn) :=
  let hlsOutputDir := hlsOutputDirOf w objectId in
  match mkdir_fault w hlsOutputDir with
  | Some e => Some (AtSetup, e)
  | None =>
  match getVideoResolution w videoPath with
  | inl e => Some (AtProbe, e)
  | inr _ =>
  match tierError w videoPath hlsOutputDir (planOf w videoPath) with
  | Some e => Some (AtEncode, e)
  | None =>
  match writeFile_fault w (path_join hlsOutputDir "master.m3u8") with
  | Some e => Some (AtManifest, e)
  | None =>
  match uploadError w hlsOutputDir objectId with
  | Some e => Some (AtUpload, e)
  | None => None
  end end end end end.

(** One step of the Status Register along
    converting -> uploading -> completed, or aside to error. *)
Inductive phaseStep : string -> string -> Prop :=
| step_uploading : phaseStep "converting" "uploading"
| step_completed : phaseStep "uploading" "completed"
| step_error_converting : phaseStep "converting" "error"
| step_error_uploading : phaseStep "uploading" "error".

(** A sequence of phases that starts at converting and only ever takes
    such steps. *)
Inductive phaseChain : list string -> Prop :=
| chain_start : phaseChain ["converting"]
| chain_step phases p q :
    phaseChain (phases ++ [p]) -> phaseStep p q ->
    phaseChain ((phases ++ [p]) ++ [q]).

(** What is observed of a run: how it ends, the register it leaves, its
    writes to the register and to files. *)
Definition obs {A} (r : Run A)
  : (Exn + A) * Register * list (string * string) * list (string * string) :=
  (outcome r, register r, statusWrites (events r), fileWrites (events r)).

(** A computation that leaves the register alone and writes no file. *)
Definition quiet {A} (m : M A) : Prop :=
  ∀ st, register (m st) = st ∧ statusWrites (events (m st)) = [] ∧
        fileWrites (events (m st)) = [].

(** What the specification expects to observe of a job: by the stage of
    its fatal error, how it ends, the register, the phases written and
    the manifest written. *)
Definition jobObservation (w : World) (videoPath objectId : string)
    (st : Register)
  : (Exn + unit) * Register * list (string * string) * list (string * string) :=
  let hlsOutputDir := hlsOutputDirOf w objectId in
  let manifest :=
    (path_join hlsOutputDir "master.m3u8",
     masterPlaylist (map variantOf (planOf w videoPath))) in
  let converting := <[objectId := "converting"]> st in
  let uploading := <[objectId := "uploading"]> converting in
  match fatalError w videoPath objectId with
  | None =>
      (inr tt, <[objectId := "completed"]> uploading,
       [(objectId, "converting"); (objectId, "uploading");
        (objectId, "completed")],
       [manifest])
  | Some (AtUpload, e) =>
      (inl e, <[objectId := "error"]> uploading,
       [(objectId, "converting"); (objectId, "uploading"); (objectId, "error")],
       [manifest])
  | Some (_, e) =>
      (inl e, <[objectId := "error"]> converting,
       [(objectId, "converting"); (objectId, "error")],
       [])
  end.

(** The two lines the master manifest has for a tier whose bitrate
    string has the numeric prefix [n]. *)
Definition manifestLines (r : Resolution) (n : Z) : list string :=
  [ "#EXT-X-STREAM-INF:BANDWIDTH=" +:+ pretty (n * 1000) +:+ ",RESOLUTION="
      +:+ pretty (r_width r) +:+ "x" +:+ pretty (r_height r);
    tierDirName (r_name r) +:+ "/index.m3u8" ].

(** The HLS output of a three-tier job, one segment per tier. *)
Definition exampleTree : list (string * node) :=
  [("master.m3u8", File);
   ("1080p", Dir [("index.m3u8", File); ("index0.ts", File)]);
   ("720p", Dir [("index.m3u8", File); ("index0.ts", File)]);
   ("480p", Dir [("index.m3u8", File); ("index0.ts", File)])].

(** A job in which every collaborator succeeds, on a 720-second source
    of 1920 by 1080. *)
Definition exampleWorld : World :=
  {| cwd := "/app";
     numberToString := fun q => pretty (Qfloor q);
     existsSync := fun _ => true;
     mkdir_fault := fun _ => None;
     writeFile_fault := fun _ => None;
     rmSync_fault := fun _ => None;
     readdirSync := fun _ => inr ["frame-000.jpg"; "frame-001.jpg"];
     ffprobe := fun _ =>
       inr (mkMetadata [mkStream "audio" 0 0; mkStream "video" 1920 1080]
              (Some 720%Q));
     createThumbnail := fun _ _ => inr "/app/uploads/job1/job1_thumbnail.jpg";
     extractFrame := fun _ _ _ => None;
     createBlankFrame := fun _ => None;
     frameSettledAt := fun index => index;
     ffmpeg_tile := fun _ _ _ => None;
     ffmpeg_hls := fun _ _ => None;
     s3_upload := fun _ => mkSettled 0 None;
     faults := mkFsFaults (fun _ => None) (fun _ => None) (fun _ => None);
     hlsTree := Dir exampleTree;
     cleanup_fault := None;
     finalCleanup_fault := None |}.

(** The frame extractions a trace records (timestamp and output file),
    and the grids of its montages (columns and rows). *)
Definition extractionsOf (evs : list Event) : list (string * string) :=
  omap (fun ev =>
          match ev with
          | ExtractFrame timestamp output => Some (timestamp, output)
          | _ => None
          end) evs.

Definition tilesOf (evs : list Event) : list (Z * Z) :=
  omap (fun ev =>
          match ev with
          | TileFrames cols rows _ => Some (cols, rows)
          | _ => None
          end) evs.

(** The frames a sheet holds for a source of the given duration, when the
    generator gets as far as choosing them: rows, columns, frames. *)
Definition spriteFrames (d : Q) : option (Z * Z * Z) :=
  match planSpriteSheet d with
  | inr plan => Some (sp_rows plan, sp_cols plan, sp_numThumbnails plan)
  | inl _ => None
  end.

(** Every directory can be listed. *)
Definition noReaddirFault (F : FsFaults) : Prop :=
  ∀ path, readdir_fault F path = None.

(** Reading digits left to right, with the value read so far. *)
Fixpoint readDigits (acc : Z) (s : string) : Z :=
  match s with
  | String c rest =>
      match Js.digitValue 10 c with
      | Some d => readDigits (acc * 10 + d) rest
      | None => acc
      end
  | EmptyString => acc
  end.

(** * The rest of the service *)

(** ** The last sweep of the job's cleanup ([checkForRemainingFiles],
    the inner function of [convertToHLS]) *)

(** [s.includes(search)] *)
Fixpoint includes (search s : string) : bool :=
  if String.prefix search s then true
  else
    match s with
    | String _ rest => includes search rest
    | EmptyString => false
    end.

(** The [for (const item of items)] loop of [checkForRemainingFiles],
    with the recursive call as [recur]. A directory is entered when its
    name includes the object id or is [hls]; a file is deleted when its
    name includes the object id. Of the log, the [warn] line that
    precedes each deletion is left out. *)
Definition checkItems (recur : string -> node -> Cleanup) (F : FsFaults)
    (objectId dir : string)
  : list (string * node) -> Traversal (list (string * node)) :=
  fix loop (items : list (string * node)) :=
    match items with
    | [] => mkTraversal [] [] [] None
    | (name, child) :: rest =>
        let fullPath := path_join dir name in
        match child with
        | Dir _ =>
            if negb (includes objectId name) && negb (String.eqb name "hls")
            then (* continue *)
              let r := loop rest in
              mkTraversal ((name, child) :: remaining r) (logged r) (calls r)
                (thrown r)
            else
              let sub := recur fullPath child in
              match thrown sub with
              | Some e =>
                  mkTraversal (keep name (remaining sub) ++ rest)%list
                    (logged sub) (calls sub) (Some e)
              | None =>
                  let r := loop rest in
                  mkTraversal (keep name (remaining sub) ++ remaining r)%list
                    (logged sub ++ logged r)%list
                    (calls sub ++ calls r)%list (thrown r)
              end
        | File =>
            if includes objectId name then
              (* try { fs.unlinkSync(fullPath) } catch (err) { logger.error } *)
              match unlink_fault F fullPath with
              | None =>
                  let r := loop rest in
                  mkTraversal (remaining r)
                    ((LvInfo, "Deleted remaining file: " +:+ fullPath)
                       :: logged r)
                    (Unlink fullPath None :: calls r) (thrown r)
              | Some e =>
                  let r := loop rest in
                  mkTraversal ((name, File) :: remaining r)
                    ((LvError,
                      "Failed to delete remaining file " +:+ fullPath +:+ ": "
                        +:+ message e) :: logged r)
                    (Unlink fullPath (Some e) :: calls r) (thrown r)
              end
            else
              let r := loop rest in
              mkTraversal ((name, File) :: remaining r) (logged r) (calls r)
                (thrown r)
        end
    end.

(** [checkForRemainingFiles] on a path that exists. Nothing catches what
    [readdirSync] throws. *)
Fixpoint checkTree (F : FsFaults) (objectId dir : string) (n : node)
  : Cleanup :=
  match readdir_fault F dir, n with
  | Some e, _ => mkTraversal (Some n) [] [] (Some e)
  | None, File =>
      mkTraversal (Some n) [] []
        (Some (Error ("ENOTDIR: not a directory, scandir " +:+ dir)))
  | None, Dir items =>
      let r := checkItems (checkTree F objectId) F objectId dir items in
      mkTraversal (Some (Dir (remaining r))) (logged r) (calls r) (thrown r)
  end.

(** [checkForRemainingFiles(dir)]; [target] is what lies at [dir]. *)
Definition checkForRemainingFiles (F : FsFaults) (objectId dir : string)
    (target : option node) : Cleanup :=
  match target with
  | None => mkTraversal None [] [] None    (* if (!fs.existsSync(dir)) return *)
  | Some n => checkTree F objectId dir n
  end.


Fixpoint leftoverFiles (objectId : string) (n : node) : nat :=
  match n with
  | File => 0
  | Dir items =>
      list_sum
        (map (fun e =>
                match snd e with
                | File => if includes objectId (fst e) then 1%nat else 0%nat
                | Dir _ =>
                    if negb (includes objectId (fst e))
                       && negb (String.eqb (fst e) "hls")
                    then 0%nat
                    else leftoverFiles objectId (snd e)
                end) items)
  end.


(** The uploads directory after a job [job1], with a file of another
    job, and a file named after the job in a directory the sweep does not
    enter. *)
Definition exampleUploads : list (string * node) :=
  [("job1_original.mp4", File);
   ("job2_original.mp4", File);
   ("hls", Dir [("job1", Dir [("job1_master.m3u8", File); ("index0.ts", File)])]);
   ("archive", Dir [("job1_notes.txt", File)])].

(** ** The other services and the request handler *)

(** The collaborators the request handler and the S3 service call, besides
    those of a job. *)
Record Services := mkServices {
  (* ffmpeg: one frame of the input at -ss timestamp, resized to a size,
     into an output file: the error it reports, if any *)
  snapshot : string -> string -> string -> string -> option Exn;
  AWS_BUCKET_NAME : option string;       (* process.env.AWS_BUCKET_NAME *)
  AWS_BUCKET_NAME_CONVERTED : option string;
  (* s3.getSignedUrl('getObject', { Bucket, Key, Expires: 3600 }) *)
  getSignedUrl : option string -> string -> Exn + string;
  (* axios({ method: 'GET', url, ... }): the status of the response, or
     what axios throws *)
  axios_get : string -> Exn + Z;
  (* response.data.pipe(writer): how the promise of the download settles *)
  streamToFile : string -> string -> option Exn;
  statSize : string -> Exn + Z;          (* fs.statSync(path).size *)
  (* s3.upload(params).promise() for a bucket: the Location, or the error *)
  uploadImage : string -> UploadParams -> Exn + string
}.

(** [`${error}`] for an [Error]. *)
Definition errorToString (e : Exn) : string :=
  if String.eqb (message e) "" then "Error" else "Error: " +:+ message e.

(** [path.dirname(path)] on POSIX. [lastSeparator] scans the path from
    its end down to index 1, skipping the slashes it ends with, for the
    index of the slash that ends the directory part. *)
Fixpoint lastSeparator (matchedSlash : bool) (reversed : list ascii)
  : option nat :=
  match reversed with
  | [] => None
  | c :: rest =>
      if Ascii.eqb c "/"
      then if matchedSlash then lastSeparator true rest
           else Some (S (length rest))
      else lastSeparator false rest
  end.

Definition path_dirname (path : string) : string :=
  match path with
  | EmptyString => "."
  | String c0 rest =>
      let hasRoot := Ascii.eqb c0 "/" in
      match lastSeparator true (rev (list_ascii_of_string rest)) with
      | None => if hasRoot then "/" else "."
      | Some e =>
          if hasRoot && (e =? 1)%nat then "//" else substring 0 e path
      end
  end.

(** *** The thumbnail ([createThumbnail]) *)

Record ThumbnailOptions := mkThumbnailOptions {
  o_outputDir : option string;
  o_timestamp : option string;
  o_size : option string;
  o_filename : option string
}.

Module Thumbnail.

(** [options.timestamp || (duration > 10 ? '00:00:10' : '00:00:01')]: an
    empty string is as good as none. *)
Definition timestampFor (options : ThumbnailOptions) (duration : Q) : string :=
  match o_timestamp options with
  | Some (String c rest) => String c rest
  | _ => if Js.ltb 10 duration then "00:00:10" else "00:00:01"
  end.

(** The inner [getDuration]. *)
Definition getDuration (w : World) (videoPath : string) : Exn + Q :=
  match ffprobe w videoPath with
  | inl err => inl (Error ("Failed to get video metadata: " +:+ message err))
  | inr metadata => inr (probedDuration metadata)
  end.

Definition createThumbnail (w : World) (sv : Services)
    (videoPath objectId : string) (options : ThumbnailOptions) : M string :=
  let outputDir :=
    default (path_join (UPLOADS_DIR w) objectId) (o_outputDir options) in
  let size := default "1280x720" (o_size options) in
  let filename := default (objectId +:+ "_thumbnail.jpg") (o_filename options) in
  (* Ensure output directory exists *)
  perform (mkdir_fault w outputDir);;
  let thumbnailPath := path_join outputDir filename in
  if negb (existsSync w videoPath)
  then
    let error := Error ("Video file not found: " +:+ videoPath) in
    logError (message error);; throw error
  else
    match getDuration w videoPath with
    | inl err =>
        (* the rejection of getDuration, caught *)
        logError ("Failed to create thumbnail: " +:+ message err);; throw err
    | inr duration =>
        let timestamp := timestampFor options duration in
        emit (ExtractFrame timestamp thumbnailPath);;
        match snapshot sv videoPath timestamp size thumbnailPath with
        | Some err =>
            logError ("Thumbnail creation failed: " +:+ message err);;
            throw err
        | None =>
            if existsSync w thumbnailPath then ret thumbnailPath
            else
              let error :=
                Error ("Thumbnail file was not created at: " +:+ thumbnailPath) in
              logError (message error);; throw error
        end
    end.

End Thumbnail.

(** *** The file service ([createFolderForObject]) *)


(** *** The S3 service ([downloadFileUsingSignedUrl], [uploadImageToS3]) *)

Record Download := mkDownload {
  d_success : bool;
  d_message : string;
  d_filePath : string;
  d_size : Z
}.

Definition downloadFileUsingSignedUrl (w : World) (sv : Services)
    (signedUrl localFilePath : string) : M Download :=
  try_catch
    (status ← call (axios_get sv signedUrl);
     (if negb (status =? 200)
      then
        logError ("Error response with status: " +:+ pretty status);;
        throw (Error ("Failed with status " +:+ pretty status))
      else ret tt);;
     (* Ensure the target directory exists *)
     let dir := path_dirname localFilePath in
     perform (mkdir_fault w dir);;
     perform (streamToFile sv signedUrl localFilePath);;
     (* Verify the downloaded file has content *)
     size ← call (statSize sv localFilePath);
     if size =? 0 then throw (Error "Downloaded file is empty")
     else
       ret (mkDownload true "File downloaded successfully" localFilePath size))
    (fun error =>
       logError ("Error downloading file: " +:+ message error);;
       (* Clean up partial file if download failed *)
       (if existsSync w localFilePath
        then
          try_catch (perform (unlink_fault (faults w) localFilePath))
            (fun cleanupError =>
               logError ("Failed to clean up partial file: "
                           +:+ message cleanupError))
        else ret tt);;
       throw (Error ("Failed to download file: " +:+ message error))).

Record ImageOptions := mkImageOptions {
  o_folder : option string;
  o_imageName : option string;   (* filename *)
  o_contentType : option string
}.

Definition uploadImageToS3 (sv : Services) (imagePath objectId : string)
    (options : ImageOptions) : M string :=
  let folder := default "courses/images" (o_folder options) in
  let filename :=
    default (objectId +:+ "_thumbnail.jpg") (o_imageName options) in
  let contentType := default "image/jpeg" (o_contentType options) in
  match AWS_BUCKET_NAME_CONVERTED sv with
  | Some (String c rest) =>
      let bucketName := String c rest in
      let key := folder +:+ "/" +:+ filename in
      let params := mkUploadParams key contentType imagePath in
      emit (S3Upload (Key params) (ContentType params) (Body params));;
      try_catch (call (uploadImage sv bucketName params))
        (fun err =>
           logError ("Image upload failed: " +:+ message err);;
           throw err)
  | _ => throw (Error "AWS_BUCKET_NAME is not defined")  (* if (!bucketName) *)
  end.

(** *** The request handler ([convertToHls]) *)

(** [[^a-zA-Z0-9-_]]: what the handler removes from the object id. *)
Definition isIdChar (c : ascii) : bool :=
  let n := Js.code c in
  ((97 <=? n) && (n <=? 122)) || ((65 <=? n) && (n <=? 90))
  || ((48 <=? n) && (n <=? 57)) || (n =? 45) || (n =? 95).

(** [s.replace(/[^a-zA-Z0-9-_]/g, '')] *)
Fixpoint sanitizeObjectId (s : string) : string :=
  match s with
  | String c rest =>
      if isIdChar c then String c (sanitizeObjectId rest)
      else sanitizeObjectId rest
  | EmptyString => EmptyString
  end.

(** What the handler answers: [res.status(code).json(body)], the body as
    its fields. *)
Record Response := mkResponse {
  statusCode : Z;
  json : list (string * string)
}.

Definition noThumbnailOptions : ThumbnailOptions :=
  mkThumbnailOptions None None None None.
Definition noImageOptions : ImageOptions := mkImageOptions None None None.

(** The handler of [GET /objects]. [query] is
    [req.query.objectId?.toString()]. The handler's own calls go to the
    collaborators [w]; those of the job it starts, which come later, to
    [job]. *)
Definition convertToHls (w job : World) (sv : Services) (query : option string)
  : M Response :=
  let objectId := sanitizeObjectId <$> query in
  match objectId with
  | Some (String c rest) =>
      let objectId := String c rest in
      try_catch
        (let key := "courses/chapters/videos/" +:+ objectId in
         signedUrl ← call (getSignedUrl sv (AWS_BUCKET_NAME sv) key);
         (* Create folder for the object - with direct error handling *)
         let uploadsDir := path_join (cwd w) "uploads" in
         let folderPath := path_join uploadsDir objectId in
         failed ←
           try_catch
             (perform (mkdir_fault w uploadsDir);;
              perform (mkdir_fault w folderPath);;
              ret None)
             (fun folderError =>
                logError ("Error creating folder directly: "
                            +:+ errorToString folderError);;
                ret (Some
                       (mkResponse 500
                          [("error", "Failed to create folder for object");
                           ("details", message folderError);
                           ("cwd", cwd w)])));
         match failed with
         | Some response => ret response
         | None =>
             let filePath := path_join folderPath "original.mp4" in
             downloadFileUsingSignedUrl w sv signedUrl filePath;;
             thumbnailPath ←
               Thumbnail.createThumbnail w sv filePath objectId
                 noThumbnailOptions;
             uploadImageToS3 sv thumbnailPath objectId noImageOptions;;
             generateSpriteSheet w filePath objectId;;
             (* Convert to HLS *)
             convertToHLS job filePath objectId;;
             ret (mkResponse 200 [("url", signedUrl); ("filePath", filePath)])
         end)
        (fun error =>
           logError "Error processing request:";;
           ret (mkResponse 500
                  [("error", "Failed to process request");
                   ("details", message error)]))
  | _ =>
      (* if (!objectId) *)
      logError "ObjectId is required";;
      ret (mkResponse 400 [("error", "ObjectId is required")])
  end.

(** Services that all succeed. *)
Definition exampleServices : Services :=
  {| snapshot := fun _ _ _ _ => None;
     AWS_BUCKET_NAME := Some "uploads-bucket";
     AWS_BUCKET_NAME_CONVERTED := Some "converted-bucket";
     getSignedUrl := fun _ key => inr ("https://s3.example/" +:+ key);
     axios_get := fun _ => inr 200;
     streamToFile := fun _ _ => None;
     statSize := fun _ => inr 1048576;
     uploadImage := fun bucket params =>
       inr ("https://s3.example/" +:+ bucket +:+ "/" +:+ Key params) |}.

(** The same with no bucket configured for converted files, and with a
    storage that answers 403. *)
Definition noBucket : Services :=
  {| snapshot := snapshot exampleServices;
     AWS_BUCKET_NAME := AWS_BUCKET_NAME exampleServices;
     AWS_BUCKET_NAME_CONVERTED := None;
     getSignedUrl := getSignedUrl exampleServices;
     axios_get := axios_get exampleServices;
     streamToFile := streamToFile exampleServices;
     statSize := statSize exampleServices;
     uploadImage := uploadImage exampleServices |}.

Definition forbidden : Services :=
  {| snapshot := snapshot exampleServices;
     AWS_BUCKET_NAME := AWS_BUCKET_NAME exampleServices;
     AWS_BUCKET_NAME_CONVERTED := AWS_BUCKET_NAME_CONVERTED exampleServices;
     getSignedUrl := getSignedUrl exampleServices;
     axios_get := fun _ => inl (Error "Request failed with status code 403");
     streamToFile := streamToFile exampleServices;
     statSize := statSize exampleServices;
     uploadImage := uploadImage exampleServices |}.

(** The same with an ffmpeg that cannot write the frame it is asked
    for. *)
Definition noSnapshot : Services :=
  {| snapshot := fun _ _ _ _ => Some (Error "Output file is empty");
     AWS_BUCKET_NAME := AWS_BUCKET_NAME exampleServices;
     AWS_BUCKET_NAME_CONVERTED := AWS_BUCKET_NAME_CONVERTED exampleServices;
     getSignedUrl := getSignedUrl exampleServices;
     axios_get := axios_get exampleServices;
     streamToFile := streamToFile exampleServices;
     statSize := statSize exampleServices;
     uploadImage := uploadImage exampleServices |}.


(** The world [w] with another source: which files exist, what the probe
    reports, and how the extraction of a frame comes out. *)
Definition withSource (w : World) (present : string -> bool)
    (probe : string -> Exn + Metadata)
    (extract : string -> string -> string -> option Exn) : World :=
  {| cwd := cwd w;
     numberToString := numberToString w;
     existsSync := present;
     mkdir_fault := mkdir_fault w;
     writeFile_fault := writeFile_fault w;
     rmSync_fault := rmSync_fault w;
     readdirSync := readdirSync w;
     ffprobe := probe;
     createThumbnail := createThumbnail w;
     extractFrame := extract;
     createBlankFrame := createBlankFrame w;
     frameSettledAt := frameSettledAt w;
     ffmpeg_tile := ffmpeg_tile w;
     ffmpeg_hls := ffmpeg_hls w;
     s3_upload := s3_upload w;
     faults := faults w;
     hlsTree := hlsTree w;
     cleanup_fault := cleanup_fault w;
     finalCleanup_fault := finalCleanup_fault w |}.

(** A source with a sound track only, for which the probe reports no
    duration. *)
Definition audioOnly : World :=
  withSource exampleWorld (existsSync exampleWorld)
    (fun _ => inr (mkMetadata [mkStream "audio" 0 0] None))
    (extractFrame exampleWorld).

(** A source none of whose frames can be extracted. *)
Definition unreadableFrames : World :=
  withSource exampleWorld (existsSync exampleWorld) (ffprobe exampleWorld)
    (fun _ _ _ => Some (Error "Output file is empty")).

(** The files a traversal tried to delete, in the order it tried. *)
Definition unlinksOf (cs : list FsCall) : list string :=
  omap (fun c =>
          match c with
          | Unlink path _ => Some path
          | Rmdir _ _ => None
          end) cs.

(** A deletion that did not throw. *)
Definition succeeded (c : FsCall) : Prop :=
  match c with
  | Unlink _ threw | Rmdir _ threw => threw = None
  end.

(** No call on the file system throws of its own. *)
Definition noFaults (F : FsFaults) : Prop :=
  ∀ path, readdir_fault F path = None ∧ unlink_fault F path = None ∧
          rmdir_fault F path = None.

(** A source of 1920 by 1080 for which the probe reports no duration, and
    of which no thumbnail can be made. *)
Definition noPreviews : World :=
  {| cwd := cwd exampleWorld;
     numberToString := numberToString exampleWorld;
     existsSync := existsSync exampleWorld;
     mkdir_fault := mkdir_fault exampleWorld;
     writeFile_fault := writeFile_fault exampleWorld;
     rmSync_fault := rmSync_fault exampleWorld;
     readdirSync := readdirSync exampleWorld;
     ffprobe := fun _ => inr (mkMetadata [mkStream "video" 1920 1080] None);
     createThumbnail := fun _ _ => inl (Error "Output file is empty");
     extractFrame := extractFrame exampleWorld;
     createBlankFrame := createBlankFrame exampleWorld;
     frameSettledAt := frameSettledAt exampleWorld;
     ffmpeg_tile := ffmpeg_tile exampleWorld;
     ffmpeg_hls := ffmpeg_hls exampleWorld;
     s3_upload := s3_upload exampleWorld;
     faults := faults exampleWorld;
     hlsTree := hlsTree exampleWorld;
     cleanup_fault := cleanup_fault exampleWorld;
     finalCleanup_fault := finalCleanup_fault exampleWorld |}.

(** * Proofs *)

(** ** The Resolution Planner *)

Lemma possibleTargets_catalog : possibleTargets = resolutionTargets.
Proof. reflexivity. Qed.


Lemma fallbackBaseBitrate_720p : fallbackBaseBitrate = 2500.
Proof. reflexivity. Qed.

Lemma smallestTier_480p : smallestTier = Some ("480p", mkTarget 854 480 1000 23).
Proof. reflexivity. Qed.

Lemma specBitrate_calculateBitrate w h base c :
  calculateBitrate w h base c = specBitrate w h base c.
Proof. reflexivity. Qed.

(** The loop keeps the entries that fit, in order. *)
Lemma planLoop_filter sourcePixels c l acc :
  fold_left (planStep sourcePixels c) l acc =
  (acc ++ map (planEntry c)
            (filter (fun e => pixels (snd e) <= sourcePixels) l))%list.
Proof.
  revert acc. induction l as [|e l IH]; intros acc; simpl.
  - by rewrite app_nil_r.
  - rewrite IH. unfold planStep. rewrite filter_cons.
    destruct (Z.leb_spec (pixels e.2) sourcePixels) as [Hle|Hgt].
    + rewrite decide_True by done. simpl. by rewrite <- app_assoc.
    + rewrite decide_False by lia. done.
Qed.

(** The two ways the planner ends. *)
Lemma getDynamicResolutions_cases w h c :
  let fitting := filter (fun e => pixels (snd e) <= w * h) possibleTargets in
  getDynamicResolutions w h c =
    match fitting with
    | [] => [ mkResolution w h (calculateBitrate w h fallbackBaseBitrate c) 23
                (pretty h +:+ "p (source)") ]
    | _ :: _ => map (planEntry c) fitting
    end.
Proof.
  intros fitting. unfold getDynamicResolutions.
  rewrite planLoop_filter. fold fitting. simpl.
  destruct fitting; reflexivity.
Qed.

Lemma catalog_descending :
  StronglySorted (fun a b => pixels (snd b) < pixels (snd a)) possibleTargets.
Proof.
  rewrite possibleTargets_catalog. unfold resolutionTargets.
  repeat (apply SSorted_cons; [|repeat constructor; cbv; reflexivity]).
  constructor.
Qed.


Lemma elem_of_map {A B} (f : A -> B) (l : list A) (y : B) :
  y ∈ map f l ↔ ∃ x, y = f x ∧ x ∈ l.
Proof. change (map f l) with (f <$> l). apply list_elem_of_fmap. Qed.







Example fallback_bitrates :
  map r_bitrate (getDynamicResolutions 640 360 1) = ["278k"] ∧
  specBitrate 640 360 smallestBaseBitrate 1 = "111k".
Proof. split; reflexivity. Qed.




(** ** The Sprite Sheet Generator *)

Lemma ltb_lt x y : Js.ltb x y = true ↔ (x < y)%Q.
Proof.
  unfold Js.ltb. rewrite negb_true_iff, <- not_true_iff_false, Qle_bool_iff.
  split; [apply Qnot_le_lt | apply Qlt_not_le].
Qed.

Lemma ltb_ge x y : Js.ltb x y = false ↔ (y <= x)%Q.
Proof. unfold Js.ltb. by rewrite negb_false_iff, Qle_bool_iff. Qed.

Lemma leb_le x y : Js.leb x y = true ↔ (x <= y)%Q.
Proof. apply Qle_bool_iff. Qed.

Lemma leb_gt x y : Js.leb x y = false ↔ (y < x)%Q.
Proof.
  unfold Js.leb. rewrite <- not_true_iff_false, Qle_bool_iff.
  split; [apply Qnot_le_lt | apply Qlt_not_le].
Qed.

(** The window of a short source and of a long one. *)
Lemma window_short d :
  (d <= 40)%Q ->
  (safeStart d == d * 0.05 ∧ safeEnd d == d * 0.95)%Q.
Proof.
  intros Hd. unfold safeStart, safeEnd, Js.Math_min, Js.Math_max. split.
  - apply Q.min_l. lra.
  - apply Q.max_l. lra.
Qed.

Lemma window_long d :
  (40 < d)%Q ->
  (safeStart d == 2 ∧ safeEnd d == d - 2)%Q.
Proof.
  intros Hd. unfold safeStart, safeEnd, Js.Math_min, Js.Math_max. split.
  - apply Q.min_r. lra.
  - apply Q.max_r. lra.
Qed.

Lemma safeDuration_short d : (d <= 40)%Q -> (safeDuration d == 0.9 * d)%Q.
Proof.
  intros Hd. destruct (window_short d Hd) as [Hs He].
  unfold safeDuration. rewrite Hs, He. ring.
Qed.

Lemma safeDuration_long d : (40 < d)%Q -> (safeDuration d == d - 4)%Q.
Proof.
  intros Hd. destruct (window_long d Hd) as [Hs He].
  unfold safeDuration. rewrite Hs, He. ring.
Qed.

Lemma safeDuration_pos d : (0 < d)%Q -> (0 < safeDuration d)%Q.
Proof.
  intros Hd. destruct (Qlt_le_dec 40 d) as [Hlong|Hshort].
  - rewrite (safeDuration_long d Hlong). lra.
  - rewrite (safeDuration_short d Hshort). lra.
Qed.




Lemma spriteGrid_spec d :
  spriteGrid d =
    if Qlt_le_dec 600 d then (8, 10)
    else if Qlt_le_dec 300 d then (6, 8)
    else (5, 5).
Proof.
  unfold spriteGrid.
  destruct (Qlt_le_dec 600 d) as [H6|H6].
  - apply ltb_lt in H6. by rewrite H6.
  - apply ltb_ge in H6. rewrite H6.
    destruct (Qlt_le_dec 300 d) as [H3|H3].
    + apply ltb_lt in H3. by rewrite H3.
    + apply ltb_ge in H3. by rewrite H3.
Qed.

(** C5. The grid depends on the duration alone: 8 rows by 10 columns
    above 600 s, else 6 by 8 above 300 s, else 5 by 5, and the sheet has
    rows times columns frames; so 120 s gives 25 frames, 400 s gives 48
    and 900 s gives 80. *)
Theorem sprite_grid_by_duration (d : Q) :
  spriteGrid d =
    (if Qlt_le_dec 600 d then (8, 10)
     else if Qlt_le_dec 300 d then (6, 8)
     else (5, 5)) ∧
  match planSpriteSheet d with
  | inr plan =>
      (sp_rows plan, sp_cols plan) = spriteGrid d ∧
      sp_numThumbnails plan = sp_rows plan * sp_cols plan
  | inl _ => True
  end ∧
  spriteFrames 120 = Some (5, 5, 25) ∧
  spriteFrames 400 = Some (6, 8, 48) ∧
  spriteFrames 900 = Some (8, 10, 80).
Proof.
  split; [apply spriteGrid_spec|]. split; [|by vm_compute].
  unfold planSpriteSheet, spriteLayout, spriteWindow.
  destruct (Js.leb d 0); [done|].
  destruct (spriteGrid d) as [rows cols].
  by destruct (Js.leb (safeDuration d) 0).
Qed.



(** ** The Cleanup Coordinator *)

(** Induction on a tree, with the hypothesis for every entry of a
    directory. *)
Lemma node_tree_ind (P : node -> Prop) :
  P File ->
  (∀ items, Forall (fun e => P (snd e)) items -> P (Dir items)) ->
  ∀ n, P n.
Proof.
  intros HFile HDir. fix go 1. intros [|items]; [exact HFile|].
  apply HDir. induction items as [|[name child] items IH].
  - constructor.
  - constructor; [apply go | exact IH].
Qed.

Lemma cleanupCatch_thrown dirPath attempt :
  thrown (cleanupCatch dirPath attempt) = None.
Proof. unfold cleanupCatch. by destruct (thrown attempt) eqn:H. Qed.

(** The outer [catch] lets nothing through. *)
Lemma cleanupTree_thrown F dirPath n removeDir :
  thrown (cleanupTree F dirPath n removeDir) = None.
Proof. destruct n; apply cleanupCatch_thrown. Qed.

Lemma cleanupDirectory_thrown F dirPath target removeDir :
  thrown (cleanupDirectory F dirPath target removeDir) = None.
Proof. destruct target; [apply cleanupTree_thrown | reflexivity]. Qed.

Lemma cleanupCatch_failuresLogged dirPath attempt :
  failuresLogged attempt -> failuresLogged (cleanupCatch dirPath attempt).
Proof.
  unfold cleanupCatch, failuresLogged. intros H.
  destruct (thrown attempt); [|exact H]. simpl.
  intros c line Hc Hline. apply elem_of_app. left. eauto.
Qed.

Lemma cleanupAfterLoop_failuresLogged F dirPath removeDir r :
  failuresLogged r -> failuresLogged (cleanupAfterLoop F dirPath removeDir r).
Proof.
  unfold cleanupAfterLoop, failuresLogged. intros H.
  destruct (thrown r); [exact H|].
  destruct removeDir; [|exact H].
  destruct (rmdirSync F dirPath (remaining r)) as [e|]; simpl;
    intros c line [Hc|Hc]%elem_of_app Hline;
    try (apply elem_of_app; left; by eauto);
    apply list_elem_of_singleton in Hc as ->; simpl in Hline.
  - injection Hline as <-. apply elem_of_app. right. by left.
  - discriminate.
Qed.

Lemma cleanupItems_failuresLogged recur F dirPath items :
  Forall (fun e => ∀ fullPath, failuresLogged (recur fullPath (snd e))) items ->
  failuresLogged (cleanupItems recur F dirPath items).
Proof.
  induction 1 as [|[name child] items Hchild _ IH]; simpl.
  - intros c line Hc. by apply elem_of_nil in Hc.
  - destruct child as [|sub].
    + destruct (unlink_fault F (path_join dirPath name)) as [e|]; simpl;
        intros c line [->|Hc]%elem_of_cons Hline; simpl in Hline;
        try discriminate; try (right; by eauto).
      injection Hline as <-. by left.
    + specialize (Hchild (path_join dirPath name)). simpl in Hchild.
      destruct (thrown (recur _ _)); simpl; [exact Hchild|].
      intros c line [Hc|Hc]%elem_of_app Hline; apply elem_of_app;
        [left | right]; eauto.
Qed.

(** Every deletion that fails leaves its line in the log. *)
Lemma cleanupTree_failuresLogged F n :
  ∀ dirPath removeDir, failuresLogged (cleanupTree F dirPath n removeDir).
Proof.
  induction n as [|items IH] using node_tree_ind; intros dirPath removeDir;
    simpl; apply cleanupCatch_failuresLogged.
  - destruct (readdir_fault F dirPath); intros c line Hc;
      by apply elem_of_nil in Hc.
  - destruct (readdir_fault F dirPath).
    + intros c line Hc. by apply elem_of_nil in Hc.
    + apply cleanupAfterLoop_failuresLogged, cleanupItems_failuresLogged.
      eapply Forall_impl; [exact IH|]. simpl. intros e He fullPath. apply He.
Qed.

Lemma cleanupDirectory_failuresLogged F dirPath target removeDir :
  failuresLogged (cleanupDirectory F dirPath target removeDir).
Proof.
  destruct target; [apply cleanupTree_failuresLogged|].
  intros c line Hc. by apply elem_of_nil in Hc.
Qed.

(** C9. Cleanup never raises, also when it is invoked twice in
    succession and the tree is already empty or already removed: a call
    on a path that does not exist returns at once, changing and logging
    nothing, and every deletion that fails (of a file or of a directory)
    is logged and is not passed on to the caller; an empty directory is
    gone after the first call, so the second returns silently. *)
Theorem cleanup_never_raises (F F' : FsFaults) (dirPath : string)
    (target : option node) (removeDir : bool) :
  let first := cleanupDirectory F dirPath target removeDir in
  let second := cleanupDirectory F' dirPath (remaining first) removeDir in
  thrown first = None ∧ thrown second = None ∧
  failuresLogged first ∧ failuresLogged second ∧
  cleanupDirectory F dirPath None removeDir = mkTraversal None [] [] None ∧
  (target = None -> second = mkTraversal None [] [] None) ∧
  (target = Some (Dir []) -> removeDir = true -> rmdir_fault F dirPath = None ->
   readdir_fault F dirPath = None ->
   remaining first = None ∧ second = mkTraversal None [] [] None).
Proof.
  intros first second.
  split; [apply cleanupDirectory_thrown|].
  split; [apply cleanupDirectory_thrown|].
  split; [apply cleanupDirectory_failuresLogged|].
  split; [apply cleanupDirectory_failuresLogged|].
  split; [reflexivity|].
  split.
  - intros ->. reflexivity.
  - intros -> -> Hrm Hrd. unfold second, first. simpl.
    unfold cleanupAfterLoop, rmdirSync. simpl. rewrite Hrd. simpl.
    rewrite Hrm. simpl. done.
Qed.

(** ** The Upload Coordinator *)

Lemma readDirItems_length recur dir items :
  Forall (fun e => ∀ fullPath files,
            match snd e with
            | File => True
            | Dir _ =>
                ∃ files', recur fullPath (snd e) files = inr files' ∧
                          length files' = (length files + countFiles (snd e))%nat
            end) items ->
  ∀ files, ∃ files',
    readDirItems recur dir items files = inr files' ∧
    length files' =
      (length files + list_sum (map (fun e => countFiles (snd e)) items))%nat.
Proof.
  induction 1 as [|[name child] items Hchild _ IH]; intros files; simpl.
  - exists files. split; [done|lia].
  - destruct child as [|sub].
    + destruct (IH (files ++ [path_join dir name])%list) as [files' [-> Hlen]].
      exists files'. split; [done|]. rewrite length_app in Hlen. simpl in *. lia.
    + destruct (Hchild (path_join dir name) files) as [files1 [Hsub Hlen1]].
      simpl in Hsub. rewrite Hsub.
      destruct (IH files1) as [files' [-> Hlen]].
      exists files'. split; [done|]. simpl in *. lia.
Qed.

(** Without faults the walk returns, and adds one path per regular
    file. *)
Lemma readDir_length F n :
  noReaddirFault F ->
  ∀ dir files,
    match n with
    | File => True
    | Dir _ =>
        ∃ files', readDir F dir n files = inr files' ∧
                  length files' = (length files + countFiles n)%nat
    end.
Proof.
  intros HF. induction n as [|items IH] using node_tree_ind; [done|].
  intros dir files. simpl. rewrite HF.
  apply readDirItems_length.
  eapply Forall_impl; [exact IH|]. simpl. intros e He fullPath files0.
  destruct (snd e); [done|]. apply He.
Qed.

Lemma uploadsOf_app evs1 evs2 :
  uploadsOf (evs1 ++ evs2) = (uploadsOf evs1 ++ uploadsOf evs2)%list.
Proof. apply omap_app. Qed.

Lemma uploadsOf_uploadEvents s3 uploads :
  uploadsOf (concat (map (uploadEvents s3) uploads)) = uploads.
Proof.
  induction uploads as [|[key ct body] uploads IH]; [done|].
  change (uploadsOf (uploadEvents s3 (mkUploadParams key ct body) ++
                     concat (map (uploadEvents s3) uploads))%list
          = mkUploadParams key ct body :: uploads).
  rewrite uploadsOf_app, IH. unfold uploadEvents. simpl.
  by destruct (rejection _).
Qed.

Lemma firstRejection_None settled :
  firstRejection settled = None ↔ Forall (fun s => rejection s = None) settled.
Proof.
  induction settled as [|s settled IH]; simpl.
  - split; [constructor|done].
  - destruct (rejection s) as [e|] eqn:Hs.
    + split.
      * destruct (firstRejection settled) as [[t e']|]; [|done].
        by destruct (settledAt s <=? t)%nat.
      * intros H. apply Forall_cons in H as [H _]. congruence.
    + rewrite IH. split; [by constructor|]. by intros [_ H]%Forall_cons.
Qed.

Lemma firstRejection_Some settled t e :
  firstRejection settled = Some (t, e) ->
  ∃ s, s ∈ settled ∧ rejection s = Some e.
Proof.
  revert t e. induction settled as [|s settled IH]; intros t e; simpl; [done|].
  destruct (rejection s) as [e0|] eqn:Hs.
  - destruct (firstRejection settled) as [[t' e']|] eqn:Hrest.
    + destruct (settledAt s <=? t')%nat; intros [= <- <-].
      * exists s. split; [by left|done].
      * destruct (IH _ _ eq_refl) as [s' [Hin Hs']].
        exists s'. split; [by right|done].
    + intros [= <- <-]. exists s. split; [by left|done].
  - intros H. destruct (IH _ _ H) as [s' [Hin Hs']].
    exists s'. split; [by right|done].
Qed.

(** C7. For a directory tree with N regular files that can be listed,
    the coordinator issues exactly N uploads, one per file, each with
    content type application/x-mpegURL when the file's path ends in
    .m3u8 and video/MP2T otherwise; and its call fails (it throws the
    rejection of one of the uploads) exactly when some upload is
    rejected, so it never reports success after a failed upload. *)
Theorem upload_all_or_fail (F : FsFaults) (s3 : UploadParams -> Settled)
    (items : list (string * node)) (hlsOutputDir objectId : string)
    (st : Register) :
  noReaddirFault F ->
  let run := uploadHlsFilesToS3 F s3 (Dir items) hlsOutputDir objectId st in
  let uploads := uploadsOf (events run) in
  length uploads = countFiles (Dir items) ∧
  Forall (fun u =>
            ContentType u =
              if endsWith (Body u) ".m3u8" then "application/x-mpegURL"
              else "video/MP2T") uploads ∧
  ((∃ u, u ∈ uploads ∧ rejection (s3 u) ≠ None) ↔ ∃ err, outcome run = inl err) ∧
  (∀ err, outcome run = inl err ->
          ∃ u, u ∈ uploads ∧ rejection (s3 u) = Some err) ∧
  (Forall (fun u => rejection (s3 u) = None) uploads ↔ outcome run = inr tt).
Proof.
  intros HF run uploads.
  destruct (readDir_length F (Dir items) HF hlsOutputDir []) as [files [Hread Hlen]].
  set (tasks := map (uploadParams hlsOutputDir objectId) files).
  assert (Hrun : run = mkRun
            (match firstRejection (map s3 tasks) with
             | Some (_, err) => inl err
             | None => inr tt
             end) st (concat (map (uploadEvents s3) tasks))).
  { unfold run, uploadHlsFilesToS3, bind, call. rewrite Hread.
    simpl. fold tasks. destruct (firstRejection (map s3 tasks)) as [[t e]|];
      simpl; by rewrite !app_nil_r. }
  assert (Huploads : uploads = tasks).
  { unfold uploads. rewrite Hrun. simpl. apply uploadsOf_uploadEvents. }
  rewrite Huploads, Hrun. simpl. clear run uploads Hrun Huploads.
  assert (Hnone : firstRejection (map s3 tasks) = None ↔
                  Forall (fun u => rejection (s3 u) = None) tasks).
  { rewrite firstRejection_None. by rewrite Forall_map. }
  assert (Hsome : ∀ t e, firstRejection (map s3 tasks) = Some (t, e) ->
                         ∃ u, u ∈ tasks ∧ rejection (s3 u) = Some e).
  { intros t e H. apply firstRejection_Some in H as [s [Hin Hs]].
    apply elem_of_map in Hin as [u [-> Hu]]. by exists u. }
  repeat split.
  - unfold tasks. rewrite length_map. simpl in Hlen. exact Hlen.
  - unfold tasks. apply Forall_forall. intros u Hu.
    apply elem_of_map in Hu as [file [-> _]]. reflexivity.
  - intros [u [Hu Hrej]].
    destruct (firstRejection (map s3 tasks)) as [[t e]|]; [by eexists|].
    pose proof (proj1 Hnone eq_refl) as Hall.
    rewrite Forall_forall in Hall. destruct Hrej. by apply Hall.
  - intros [err Herr].
    destruct (firstRejection (map s3 tasks)) as [[t e]|]; [|done].
    destruct (Hsome _ _ eq_refl) as [u [Hu Hrej]].
    exists u. split; [done|congruence].
  - intros err Herr.
    destruct (firstRejection (map s3 tasks)) as [[t e]|]; [|done].
    injection Herr as <-. by eapply Hsome.
  - intros Hall. apply Hnone in Hall. by rewrite Hall.
  - destruct (firstRejection (map s3 tasks)) as [[t e]|]; [done|].
    intros _. by apply Hnone.
Qed.

(** ** The Job Orchestrator *)

Lemma statusWrites_app evs1 evs2 :
  statusWrites (evs1 ++ evs2) = (statusWrites evs1 ++ statusWrites evs2)%list.
Proof. apply omap_app. Qed.

Lemma fileWrites_app evs1 evs2 :
  fileWrites (evs1 ++ evs2) = (fileWrites evs1 ++ fileWrites evs2)%list.
Proof. apply omap_app. Qed.

Section Quiet.
Context {A B : Type}.

Lemma quiet_ret (a : A) : quiet (ret a).
Proof. by intros st. Qed.

Lemma quiet_throw (e : Exn) : quiet (@throw A e).
Proof. by intros st. Qed.

Lemma quiet_call (r : Exn + A) : quiet (call r).
Proof. destruct r; [apply quiet_throw | apply quiet_ret]. Qed.

Lemma quiet_bind (m : M A) (k : A -> M B) :
  quiet m -> (∀ a, quiet (k a)) -> quiet (bind m k).
Proof.
  intros Hm Hk st. unfold bind.
  destruct (Hm st) as (Hreg & Hst & Hfw).
  destruct (outcome (m st)) as [e|a]; simpl; [done|].
  destruct (Hk a (register (m st))) as (Hreg' & Hst' & Hfw').
  rewrite statusWrites_app, fileWrites_app, Hreg', Hst, Hst', Hfw, Hfw'.
  by rewrite Hreg.
Qed.

Lemma quiet_try_catch (m : M A) (h : Exn -> M A) :
  quiet m -> (∀ e, quiet (h e)) -> quiet (try_catch m h).
Proof.
  intros Hm Hh st. unfold try_catch.
  destruct (Hm st) as (Hreg & Hst & Hfw).
  destruct (outcome (m st)) as [e|a]; simpl; [|done].
  destruct (Hh e (register (m st))) as (Hreg' & Hst' & Hfw').
  rewrite statusWrites_app, fileWrites_app, Hreg', Hst, Hst', Hfw, Hfw'.
  by rewrite Hreg.
Qed.
End Quiet.

Lemma quiet_perform (r : option Exn) : quiet (perform r).
Proof. destruct r; [apply quiet_throw | apply quiet_ret]. Qed.

Lemma quiet_logError msg : quiet (logError msg).
Proof. by intros st. Qed.

Lemma quiet_emit_upload key contentType body :
  quiet (emit (S3Upload key contentType body)).
Proof. by intros st. Qed.

Lemma quiet_uploadEvents s3 uploads :
  quiet (emitAll (concat (map (uploadEvents s3) uploads))).
Proof.
  intros st. simpl. split; [done|].
  induction uploads as [|u uploads [IH1 IH2]]; [done|]. simpl.
  rewrite statusWrites_app, fileWrites_app, IH1, IH2.
  unfold uploadEvents. by destruct (rejection (s3 u)).
Qed.

Lemma quiet_emitAll evs :
  statusWrites evs = [] -> fileWrites evs = [] -> quiet (emitAll evs).
Proof. by intros Hsw Hfw st. Qed.

Lemma quiet_emit_TileFrames cols rows output :
  quiet (emit (TileFrames cols rows output)).
Proof. by intros st. Qed.

Lemma quiet_try_finally {A} (m : M A) (f : M unit) :
  quiet m -> quiet f -> quiet (try_finally m f).
Proof.
  intros Hm Hf st. unfold try_finally. simpl.
  destruct (Hm st) as (Hreg & Hsw & Hfw).
  destruct (Hf (register (m st))) as (Hreg' & Hsw' & Hfw').
  rewrite statusWrites_app, fileWrites_app, Hreg', Hsw, Hsw', Hfw, Hfw'.
  by rewrite Hreg.
Qed.

Lemma quiet_raise {A} w (r : SpriteError + A) : quiet (raise w r).
Proof. destruct r; [apply quiet_throw | apply quiet_ret]. Qed.

Lemma frameEvents_silent w videoPath framesDir index timestamp :
  statusWrites (frameEvents w videoPath framesDir index timestamp) = [] ∧
  fileWrites (frameEvents w videoPath framesDir index timestamp) = [].
Proof.
  unfold frameEvents.
  destruct (extractFrame w _ _ _); [destruct (createBlankFrame w _)|]; done.
Qed.

Lemma imap_silent (f : nat -> string -> list Event) (xs : list string) :
  (∀ i x, statusWrites (f i x) = [] ∧ fileWrites (f i x) = []) ->
  statusWrites (concat (imap f xs)) = [] ∧
  fileWrites (concat (imap f xs)) = [].
Proof.
  revert f. induction xs as [|x xs IH]; intros f Hf; [done|].
  change (concat (imap f (x :: xs)))
    with (f 0%nat x ++ concat (imap (f ∘ S) xs))%list.
  rewrite statusWrites_app, fileWrites_app.
  destruct (Hf 0%nat x) as [-> ->]. apply IH. intros i y. apply Hf.
Qed.

Lemma quiet_frameEvents w videoPath framesDir timestamps :
  quiet (emitAll
           (concat (imap (frameEvents w videoPath framesDir) timestamps))).
Proof.
  destruct (imap_silent (frameEvents w videoPath framesDir) timestamps)
    as [Hsw Hfw]; [apply frameEvents_silent|].
  by apply quiet_emitAll.
Qed.

Create HintDb quiet.

#[local] Hint Resolve quiet_ret quiet_throw quiet_call quiet_perform
  quiet_logError quiet_emit_upload quiet_uploadEvents quiet_raise
  quiet_emit_TileFrames quiet_frameEvents : quiet.

Ltac quiet_tac :=
  repeat first
    [ apply quiet_bind; [|intros ?]
    | apply quiet_try_catch; [|intros ?]
    | apply quiet_try_finally
    | solve [auto with quiet] ].

Lemma quiet_uploadHlsFilesToS3 F s3 tree hlsOutputDir objectId :
  quiet (uploadHlsFilesToS3 F s3 tree hlsOutputDir objectId).
Proof.
  unfold uploadHlsFilesToS3. quiet_tac.
  destruct (firstRejection _) as [[t e]|]; auto with quiet.
Qed.

Lemma quiet_generateSpriteSheet w videoPath objectId :
  quiet (generateSpriteSheet w videoPath objectId).
Proof.
  unfold generateSpriteSheet.
  apply quiet_bind; [apply quiet_perform|intros _].
  apply quiet_try_catch; [|intros err; quiet_tac].
  destruct (existsSync w videoPath); simpl; [|apply quiet_throw].
  apply quiet_bind; [apply quiet_call|intros duration].
  apply quiet_bind; [apply quiet_raise|intros [[rows cols] numThumbnails]].
  apply quiet_bind; [apply quiet_perform|intros _].
  apply quiet_bind; [apply quiet_raise|intros timestamps].
  apply quiet_bind; [apply quiet_frameEvents|intros _].
  apply quiet_try_finally; [|apply quiet_perform].
  apply quiet_bind; [destruct (firstRejection _) as [[t e]|]; quiet_tac|intros _].
  apply quiet_bind; [apply quiet_call|intros names].
  destruct (_ <? _)%nat; [apply quiet_throw|].
  apply quiet_bind; [apply quiet_emit_TileFrames|intros _].
  apply quiet_bind; [destruct (ffmpeg_tile w _ _ _); quiet_tac|intros _].
  quiet_tac.
Qed.

Lemma quiet_thumbnailStep w videoPath objectId :
  quiet (thumbnailStep w videoPath objectId).
Proof. unfold thumbnailStep. quiet_tac. Qed.

Lemma quiet_encodeVariants w videoPath hlsOutputDir resolutions :
  ∀ variantPlaylists,
    quiet (encodeVariants w videoPath hlsOutputDir resolutions variantPlaylists).
Proof.
  induction resolutions as [|r rest IH]; intros acc; simpl.
  - apply quiet_ret.
  - apply quiet_bind; [apply quiet_perform|intros _].
    apply quiet_bind; [|intros _; apply IH].
    destruct (ffmpeg_hls w videoPath r); quiet_tac.
Qed.

(** A best-effort step returns, whatever the step inside does. *)
Lemma bestEffort_returns (m : M unit) (line : Exn -> string) st :
  outcome (try_catch m (fun err => logError (line err)) st) = inr tt.
Proof.
  unfold try_catch. destruct (outcome (m st)) as [e|[]] eqn:H; simpl; done.
Qed.

Lemma encodeVariants_outcome w videoPath hlsOutputDir resolutions :
  ∀ variantPlaylists st,
    outcome (encodeVariants w videoPath hlsOutputDir resolutions
               variantPlaylists st) =
    match tierError w videoPath hlsOutputDir resolutions with
    | Some e => inl e
    | None => inr (variantPlaylists ++ map variantOf resolutions)%list
    end.
Proof.
  induction resolutions as [|r rest IH]; intros acc st; simpl.
  - by rewrite app_nil_r.
  - unfold bind.
    destruct (mkdir_fault w _) as [e|]; simpl; [done|].
    destruct (ffmpeg_hls w videoPath r) as [e|]; simpl; [done|].
    rewrite IH. destruct (tierError _ _ _ rest); [done|].
    by rewrite <- app_assoc.
Qed.

Lemma uploadHlsFilesToS3_outcome F s3 tree hlsOutputDir objectId st st' :
  outcome (uploadHlsFilesToS3 F s3 tree hlsOutputDir objectId st) =
  outcome (uploadHlsFilesToS3 F s3 tree hlsOutputDir objectId st').
Proof.
  unfold uploadHlsFilesToS3, bind, call.
  destruct (readDir F hlsOutputDir tree []) as [e|files]; simpl; [done|].
  by destruct (firstRejection _) as [[t e]|].
Qed.

Section Observations.
Context {A B : Type}.

Lemma obs_bind_quiet (m : M A) (k : A -> M B) st :
  quiet m ->
  obs (bind m k st) =
    match outcome (m st) with
    | inl e => (inl e, st, [], [])
    | inr a => obs (k a st)
    end.
Proof.
  intros Hm. destruct (Hm st) as (Hreg & Hst & Hfw). unfold obs, bind.
  destruct (outcome (m st)) as [e|a]; simpl.
  - by rewrite Hreg, Hst, Hfw.
  - by rewrite statusWrites_app, fileWrites_app, Hreg, Hst, Hfw.
Qed.

Lemma obs_setStatus objectId phase (k : unit -> M B) st :
  obs (bind (setStatus objectId phase) k st) =
    let '(o, reg, sw, fw) := obs (k tt (<[objectId := phase]> st)) in
    (o, reg, (objectId, phase) :: sw, fw).
Proof. reflexivity. Qed.

Lemma obs_writeFile path content (k : unit -> M B) st :
  obs (bind (emit (WriteFile path content)) k st) =
    let '(o, reg, sw, fw) := obs (k tt st) in
    (o, reg, sw, (path, content) :: fw).
Proof. reflexivity. Qed.

Lemma obs_try_finally (m : M A) (f : M unit) st :
  quiet f -> (∀ st', outcome (f st') = inr tt) ->
  obs (try_finally m f st) = obs (m st).
Proof.
  intros Hf Hret. unfold obs, try_finally. simpl.
  destruct (Hf (register (m st))) as (Hreg & Hst & Hfw).
  rewrite Hret, statusWrites_app, fileWrites_app, Hreg, Hst, Hfw.
  by rewrite !app_nil_r.
Qed.

Lemma obs_catch_rethrow (m : M A) objectId (line : Exn -> string) st :
  obs (try_catch m
         (fun err =>
            bind (logError (line err))
              (fun _ => bind (setStatus objectId "error")
                          (fun _ => throw err))) st) =
    let '(o, reg, sw, fw) := obs (m st) in
    match o with
    | inl e =>
        (inl e, <[objectId := "error"]> reg,
         (sw ++ [(objectId, "error")])%list, fw)
    | inr a => (inr a, reg, sw, fw)
    end.
Proof.
  unfold obs, try_catch.
  destruct (outcome (m st)) as [e|a] eqn:Ho; simpl; [|by rewrite Ho].
  rewrite statusWrites_app, fileWrites_app. simpl. by rewrite app_nil_r.
Qed.
End Observations.

Lemma uploadError_outcome w hlsOutputDir objectId st :
  outcome (uploadHlsFilesToS3 (faults w) (s3_upload w) (hlsTree w)
             hlsOutputDir objectId st) =
  match uploadError w hlsOutputDir objectId with
  | Some e => inl e
  | None => inr tt
  end.
Proof.
  unfold uploadError.
  rewrite (uploadHlsFilesToS3_outcome _ _ _ _ _ st ∅).
  by destruct (outcome _) as [e|[]].
Qed.

#[local] Arguments obs : simpl never.
#[local] Arguments bind : simpl never.

(** What a job run shows is what [jobObservation] says. *)
Lemma convertToHLS_obs w videoPath objectId st :
  obs (convertToHLS w videoPath objectId st) =
  jobObservation w videoPath objectId st.
Proof.
  unfold convertToHLS.
  rewrite obs_setStatus, obs_try_finally; cycle 1.
  { quiet_tac. }
  { intros st'. apply bestEffort_returns. }
  rewrite obs_catch_rethrow.
  fold (hlsOutputDirOf w objectId).
  unfold jobObservation, fatalError.
  set (hls := hlsOutputDirOf w objectId).
  set (st0 := <[objectId := "converting"]> st).
  rewrite obs_bind_quiet by quiet_tac.
  destruct (mkdir_fault w hls) as [e|]; cbn; [done|].
  rewrite obs_bind_quiet by (quiet_tac; apply quiet_thumbnailStep).
  rewrite bestEffort_returns.
  rewrite obs_bind_quiet
    by (apply quiet_try_catch; [|intros err; apply quiet_logError];
        apply quiet_bind; [apply quiet_generateSpriteSheet|intros key];
        apply quiet_ret).
  rewrite bestEffort_returns.
  rewrite obs_bind_quiet by quiet_tac.
  unfold planOf.
  destruct (getVideoResolution w videoPath) as [e|[ow oh]]; cbn; [done|].
  rewrite obs_bind_quiet by apply quiet_encodeVariants.
  rewrite encodeVariants_outcome.
  destruct (tierError w videoPath hls _) as [e|]; cbn; [done|].
  rewrite obs_bind_quiet by quiet_tac.
  destruct (writeFile_fault w _) as [e|]; cbn; [done|].
  rewrite obs_writeFile, obs_setStatus.
  rewrite obs_bind_quiet by apply quiet_uploadHlsFilesToS3.
  rewrite uploadError_outcome.
  destruct (uploadError w hls objectId) as [e|]; cbn; [done|].
  unfold obs at 1. simpl.
  pose proof (bestEffort_returns (perform (cleanup_fault w))
                (fun cleanupErr => "Error during cleanup: " +:+ message cleanupErr)
                (<[objectId := "completed"]> (<[objectId := "uploading"]> st0)))
    as Hret.
  assert (Hq : quiet (try_catch (perform (cleanup_fault w))
                (fun cleanupErr =>
                   logError ("Error during cleanup: " +:+ message cleanupErr))))
    by quiet_tac.
  destruct (Hq (<[objectId := "completed"]> (<[objectId := "uploading"]> st0)))
    as (Hreg & Hsw & Hfw).
  rewrite Hret, Hreg, Hsw, Hfw. reflexivity.
Qed.

(** ** Numbers printed and read back *)

Lemma digitsValue_readDigits s :
  Js.digitsValue 10 (Js.digitPrefix 10 s) = readDigits 0 s.
Proof.
  unfold Js.digitsValue. generalize 0 as acc.
  induction s as [|c s IH]; intros acc; simpl; [done|].
  destruct (Js.digitValue 10 c); simpl; [apply IH|done].
Qed.

Lemma digitValue_pretty_N_char d :
  (d < 10)%N -> Js.digitValue 10 (pretty_N_char d) = Some (Z.of_N d).
Proof.
  intros Hd.
  assert (d = 0 ∨ d = 1 ∨ d = 2 ∨ d = 3 ∨ d = 4 ∨ d = 5 ∨ d = 6 ∨ d = 7
          ∨ d = 8 ∨ d = 9)%N as Hcases by lia.
  repeat destruct Hcases as [->|Hcases]; try subst d; reflexivity.
Qed.

(** The digits of [x] in front of [s] read as [x], then [s] goes on. *)
Lemma readDigits_pretty_N_go x s :
  readDigits 0 (pretty_N_go x s) = readDigits (Z.of_N x) s.
Proof.
  revert s. induction (N.lt_wf_0 x) as [x _ IH]; intros s.
  destruct (decide (x = 0)%N) as [->|Hx]; [by rewrite pretty_N_go_0|].
  rewrite pretty_N_go_step by lia.
  rewrite IH by (apply N.div_lt; lia). simpl.
  rewrite digitValue_pretty_N_char by (apply N.mod_lt; lia).
  f_equal. pose proof (N.div_mod x 10 ltac:(lia)). lia.
Qed.

(** A positive number is printed with a first digit from 1 to 9. *)
Lemma pretty_N_go_head x s :
  (0 < x)%N ->
  ∃ d rest, pretty_N_go x s = String (pretty_N_char d) rest ∧ (0 < d < 10)%N.
Proof.
  revert s. induction (N.lt_wf_0 x) as [x _ IH]; intros s Hx.
  rewrite pretty_N_go_step by done.
  destruct (decide (x `div` 10 = 0)%N) as [Hdiv|Hdiv].
  - rewrite Hdiv, pretty_N_go_0.
    exists (x `mod` 10)%N, s. split; [done|].
    pose proof (N.div_mod x 10 ltac:(lia)) as Hdm. rewrite Hdiv in Hdm.
    pose proof (N.mod_lt x 10 ltac:(lia)). lia.
  - apply IH; [apply N.div_lt; lia | by apply N.neq_0_lt_0].
Qed.

Lemma pretty_N_go_app x s1 s2 :
  pretty_N_go x s1 +:+ s2 = pretty_N_go x (s1 +:+ s2).
Proof.
  revert s1. induction (N.lt_wf_0 x) as [x _ IH]; intros s1.
  destruct (decide (x = 0)%N) as [->|Hx]; [by rewrite !pretty_N_go_0|].
  rewrite (pretty_N_go_step x s1), (pretty_N_go_step x (s1 +:+ s2)) by lia.
  rewrite IH by (apply N.div_lt; lia). reflexivity.
Qed.

Lemma digit_char_plain d :
  (0 < d < 10)%N ->
  let c := pretty_N_char d in
  Js.isWhiteSpace c = false ∧ Ascii.eqb c "-" = false ∧
  Ascii.eqb c "+" = false ∧ Ascii.eqb c "0" = false.
Proof.
  intros Hd.
  assert (d = 1 ∨ d = 2 ∨ d = 3 ∨ d = 4 ∨ d = 5 ∨ d = 6 ∨ d = 7 ∨ d = 8
          ∨ d = 9)%N as Hcases by lia.
  repeat destruct Hcases as [->|Hcases]; try subst d; by vm_compute.
Qed.

(** The digits of a positive number, followed by something that is not
    a digit, read back as the number. *)
Lemma parseMagnitude_pretty p rest :
  Js.digitPrefix 10 rest = [] ->
  Js.parseMagnitude (pretty_N_go (N.pos p) rest) = Some (Z.pos p).
Proof.
  intros Hrest.
  pose proof (readDigits_pretty_N_go (N.pos p) rest) as Hread.
  rewrite <- digitsValue_readDigits in Hread.
  assert (readDigits (Z.of_N (N.pos p)) rest = Z.pos p) as Hval.
  { destruct rest as [|c rest]; [done|]. simpl in *.
    by destruct (Js.digitValue 10 c). }
  rewrite Hval in Hread. clear Hval.
  destruct (pretty_N_go_head (N.pos p) rest) as (d & tl & Hstr & Hd); [lia|].
  rewrite Hstr in *.
  destruct (digit_char_plain d Hd) as (_ & _ & _ & Hzero).
  assert (Js.digitPrefix 10 (String (pretty_N_char d) tl) ≠ []) as Hne.
  { cbn [Js.digitPrefix]. rewrite digitValue_pretty_N_char by lia. done. }
  unfold Js.parseMagnitude.
  destruct tl as [|x tl]; [|rewrite Hzero; cbn [andb]];
    match goal with
    | |- match ?t with _ => _ end = _ => destruct t as [|z l]
    end; [by destruct Hne | by rewrite Hread | by destruct Hne | by rewrite Hread].
Qed.

(** [parseInt] reads back what printing an integer wrote, whatever
    follows it that is not a digit. *)
Lemma parseInt_pretty (n : Z) rest :
  Js.digitPrefix 10 rest = [] ->
  ¬ (∃ tl, rest = String "x" tl ∨ rest = String "X" tl) ->
  Js.parseInt (pretty n +:+ rest) = Some n.
Proof.
  intros Hrest Hx. destruct n as [|p|p].
  - change (pretty 0 +:+ rest) with (String "0" rest).
    unfold Js.parseInt. cbn [Js.skipWhiteSpace].
    change (Js.isWhiteSpace "0") with false. cbv iota.
    change (Ascii.eqb "0" "-") with false.
    change (Ascii.eqb "0" "+") with false. cbv iota.
    unfold Js.parseMagnitude.
    destruct rest as [|x tl].
    + reflexivity.
    + change (Ascii.eqb "0" "0") with true. cbn [andb].
      destruct (Ascii.eqb_spec x "x") as [->|_]; [destruct Hx; eauto|].
      destruct (Ascii.eqb_spec x "X") as [->|_]; [destruct Hx; eauto|].
      cbn [orb].
      change (Js.digitPrefix 10 (String "0" (String x tl)))
        with (0 :: Js.digitPrefix 10 (String x tl)).
      rewrite Hrest. reflexivity.
  - change (pretty (Z.pos p)) with (pretty_N_go (N.pos p) "").
    rewrite pretty_N_go_app. change ("" +:+ rest) with rest.
    pose proof (parseMagnitude_pretty p rest Hrest) as Hmag.
    destruct (pretty_N_go_head (N.pos p) rest) as (d & tl & Hstr & Hd); [lia|].
    rewrite Hstr in *.
    destruct (digit_char_plain d Hd) as (Hw & Hminus & Hplus & _).
    unfold Js.parseInt. cbn [Js.skipWhiteSpace].
    by rewrite Hw, Hminus, Hplus.
  - change (pretty (Z.neg p)) with ("-" +:+ pretty_N_go (N.pos p) "").
    change (("-" +:+ pretty_N_go (N.pos p) "") +:+ rest)
      with (String "-" (pretty_N_go (N.pos p) "" +:+ rest)).
    rewrite pretty_N_go_app. change ("" +:+ rest) with rest.
    unfold Js.parseInt. cbn [Js.skipWhiteSpace].
    change (Js.isWhiteSpace "-") with false. cbv iota.
    change (Ascii.eqb "-" "-") with true. cbv iota.
    rewrite (parseMagnitude_pretty p rest Hrest).
    unfold Js.times. simpl. f_equal. lia.
Qed.

Example parseInt_1111k : Js.parseInt "1111k" = Some 1111.
Proof. reflexivity. Qed.

(** ** The master manifest *)

Lemma append_assoc (a b c : string) : (a +:+ b) +:+ c = a +:+ (b +:+ c).
Proof.
  induction a as [|x a IH]; [done|].
  change (String x ((a +:+ b) +:+ c) = String x (a +:+ b +:+ c)).
  by rewrite IH.
Qed.

(** Joining the lines pair by pair or one by one gives the same text. *)
Lemma join_pairs {A} (a b : A -> string) (sep : string) (xs : list A) :
  join sep (map (fun x => a x +:+ sep +:+ b x) xs) =
  join sep (concat (map (fun x => [a x; b x]) xs)).
Proof.
  induction xs as [|x xs IH]; [done|].
  destruct xs as [|y xs]; [done|].
  change (join sep (map (fun x => a x +:+ sep +:+ b x) (x :: y :: xs)))
    with ((a x +:+ sep +:+ b x) +:+ sep +:+
          join sep (map (fun x => a x +:+ sep +:+ b x) (y :: xs))).
  rewrite IH. rewrite !append_assoc. reflexivity.
Qed.

(** The stream-info entry of a variant whose bitrate string is the
    number [n] followed by "k". *)
Lemma streamInf_variantOf r n :
  r_bitrate r = pretty n +:+ "k" ->
  streamInf (variantOf r) =
    "#EXT-X-STREAM-INF:BANDWIDTH=" +:+ pretty (n * 1000) +:+ ",RESOLUTION="
      +:+ pretty (r_width r) +:+ "x" +:+ pretty (r_height r)
      +:+ nl +:+ tierDirName (r_name r) +:+ "/index.m3u8".
Proof.
  intros Hb. unfold streamInf, variantOf. simpl. rewrite Hb.
  rewrite parseInt_pretty; [|done|].
  - simpl. rewrite !append_assoc. reflexivity.
  - intros [tl [H|H]]; discriminate H.
Qed.

Lemma masterPlaylist_lines plan ns :
  plan ≠ [] ->
  Forall2 (fun r n => r_bitrate r = pretty n +:+ "k") plan ns ->
  masterPlaylist (map variantOf plan) =
  join nl ("#EXTM3U" :: concat (zip_with manifestLines plan ns)).
Proof.
  intros Hne Hns. unfold masterPlaylist.
  assert (map streamInf (map variantOf plan) =
          map (fun p => hd "" (manifestLines p.1 p.2) +:+ nl +:+
                        tierDirName (r_name p.1) +:+ "/index.m3u8")
              (zip plan ns)) as ->.
  { clear Hne. induction Hns as [|r n plan ns Hr _ IH]; [done|]. simpl.
    rewrite (streamInf_variantOf r n Hr). f_equal.
    - rewrite !append_assoc. reflexivity.
    - exact IH. }
  rewrite (join_pairs (fun p => hd "" (manifestLines p.1 p.2))
             (fun p => tierDirName (r_name p.1) +:+ "/index.m3u8")).
  transitivity
    ("#EXTM3U" +:+ nl +:+ join nl (concat (zip_with manifestLines plan ns))).
  - do 3 f_equal. clear Hne.
    induction Hns as [|r n plan ns _ _ IH]; [done|]. simpl in *. by rewrite IH.
  - destruct Hns as [|r n plan ns _ _]; [done|]. reflexivity.
Qed.

(** Every entry of a plan carries a number followed by "k". *)
Lemma plan_bitrates w h c :
  ∃ ns : list Z, Forall2 (fun r n => r_bitrate r = pretty n +:+ "k")
                   (getDynamicResolutions w h c) ns.
Proof.
  rewrite getDynamicResolutions_cases. simpl.
  destruct (filter _ possibleTargets) as [|e l].
  - eexists [_]. constructor; [reflexivity|constructor].
  - generalize (e :: l). clear e l. intros l.
    exists (map (fun e => bitrateValue (width e.2) (height e.2)
                            (baseBitrate e.2) c) l).
    induction l as [|[name t] l IH]; constructor; [reflexivity|exact IH].
Qed.

Lemma getDynamicResolutions_nonempty w h c : getDynamicResolutions w h c ≠ [].
Proof.
  rewrite getDynamicResolutions_cases. simpl.
  by destruct (filter _ possibleTargets).
Qed.

(** The four things observed of a job, one by one. *)
Lemma convertToHLS_observed w videoPath objectId st :
  let run := convertToHLS w videoPath objectId st in
  let expected := jobObservation w videoPath objectId st in
  outcome run = expected.1.1.1 ∧ register run = expected.1.1.2 ∧
  statusWrites (events run) = expected.1.2 ∧
  fileWrites (events run) = expected.2.
Proof.
  intros run expected. unfold expected.
  rewrite <- convertToHLS_obs. done.
Qed.

(** The error of a fatal stage is the error that stage threw. *)
Lemma fatalError_original w videoPath objectId stage e :
  fatalError w videoPath objectId = Some (stage, e) ->
  match stage with
  | AtSetup => mkdir_fault w (hlsOutputDirOf w objectId) = Some e
  | AtProbe => getVideoResolution w videoPath = inl e
  | AtEncode =>
      tierError w videoPath (hlsOutputDirOf w objectId) (planOf w videoPath)
      = Some e
  | AtManifest =>
      writeFile_fault w (path_join (hlsOutputDirOf w objectId) "master.m3u8")
      = Some e
  | AtUpload => uploadError w (hlsOutputDirOf w objectId) objectId = Some e
  end.
Proof.
  unfold fatalError. set (hls := hlsOutputDirOf w objectId). intros H.
  destruct (mkdir_fault w hls); [by injection H as <- <-|].
  destruct (getVideoResolution w videoPath); [by injection H as <- <-|].
  destruct (tierError w videoPath hls _); [by injection H as <- <-|].
  destruct (writeFile_fault w _); [by injection H as <- <-|].
  destruct (uploadError w hls objectId); [by injection H as <- <-|done].
Qed.

(** When the manifest is written, every stage before the upload went
    through. *)
Lemma fatalError_after_manifest w videoPath objectId :
  (fatalError w videoPath objectId = None ∨
   ∃ e, fatalError w videoPath objectId = Some (AtUpload, e)) ->
  (∃ ow oh, getVideoResolution w videoPath = inr (ow, oh)) ∧
  tierError w videoPath (hlsOutputDirOf w objectId) (planOf w videoPath) = None.
Proof.
  unfold fatalError. set (hls := hlsOutputDirOf w objectId). intros H.
  destruct (mkdir_fault w hls); [by destruct H as [H|[e' H]]|].
  destruct (getVideoResolution w videoPath) as [e|[ow oh]] eqn:Hprobe;
    [by destruct H as [H|[e' H]]|].
  destruct (tierError w videoPath hls _); [by destruct H as [H|[e' H]]|].
  split; [by exists ow, oh|done].
Qed.

(** C6. The master manifest is the header line followed, for each
    variant in planner order, by a stream-info line whose BANDWIDTH is
    the numeric prefix of the variant's bitrate string times 1000 and
    whose RESOLUTION is "widthxheight", and then by the variant's
    relative playlist path; it is written only once every tier has been
    encoded, and a job without a fatal error writes it. The bitrate
    "1111k" gives BANDWIDTH 1111000. *)
Theorem master_manifest_lines (w : World) (videoPath objectId : string)
    (st : Register) :
  let run := convertToHLS w videoPath objectId st in
  let plan := planOf w videoPath in
  let hlsOutputDir := hlsOutputDirOf w objectId in
  ∃ ns : list Z,
    Forall2 (fun r n => r_bitrate r = pretty n +:+ "k") plan ns ∧
    (∀ path content,
       (path, content) ∈ fileWrites (events run) ->
       path = path_join hlsOutputDir "master.m3u8" ∧
       content = join nl ("#EXTM3U" :: concat (zip_with manifestLines plan ns)) ∧
       tierError w videoPath hlsOutputDir plan = None) ∧
    (fatalError w videoPath objectId = None ->
     fileWrites (events run) =
       [(path_join hlsOutputDir "master.m3u8",
         join nl ("#EXTM3U" :: concat (zip_with manifestLines plan ns)))]) ∧
    Js.toString (Js.times (Js.parseInt "1111k") 1000) = "1111000".
Proof.
  intros run plan hls.
  destruct (convertToHLS_observed w videoPath objectId st) as (_ & _ & _ & Hfw).
  fold run in Hfw. unfold jobObservation in Hfw. fold hls plan in Hfw.
  assert (∃ ns : list Z,
            Forall2 (fun r n => r_bitrate r = pretty n +:+ "k") plan ns)
    as [ns Hns].
  { unfold plan, planOf.
    destruct (getVideoResolution w videoPath) as [e|[ow oh]].
    - exists []. constructor.
    - apply plan_bitrates. }
  exists ns. split; [exact Hns|].
  assert (Hwritten :
            fatalError w videoPath objectId = None ∨
            (∃ e, fatalError w videoPath objectId = Some (AtUpload, e)) ->
            masterPlaylist (map variantOf plan) =
              join nl ("#EXTM3U" :: concat (zip_with manifestLines plan ns)) ∧
            tierError w videoPath hls plan = None).
  { intros Hstage.
    destruct (fatalError_after_manifest w videoPath objectId Hstage)
      as [(ow & oh & Hprobe) Htiers].
    split; [|exact Htiers].
    apply masterPlaylist_lines; [|exact Hns].
    unfold plan, planOf. rewrite Hprobe. apply getDynamicResolutions_nonempty. }
  split; [|split; [|reflexivity]].
  - intros path content Hin. rewrite Hfw in Hin.
    destruct (fatalError w videoPath objectId) as [[stage e]|] eqn:Hfatal; simpl in Hin.
    + destruct stage; simpl in Hin; try by apply elem_of_nil in Hin.
      apply list_elem_of_singleton in Hin. injection Hin as -> ->.
      destruct Hwritten as [Hm Ht]; [right; by exists e|].
      by rewrite Hm.
    + apply list_elem_of_singleton in Hin. injection Hin as -> ->.
      destruct Hwritten as [Hm Ht]; [by left|].
      by rewrite Hm.
  - intros Hnone. rewrite Hfw, Hnone. simpl.
    destruct Hwritten as [Hm Ht]; [by left|]. by rewrite Hm.
Qed.

Lemma phaseChain_two p :
  phaseStep "converting" p -> phaseChain ["converting"; p].
Proof. intros Hp. apply (chain_step [] "converting" p); [constructor|done]. Qed.

Lemma phaseChain_three p :
  phaseStep "uploading" p -> phaseChain ["converting"; "uploading"; p].
Proof.
  intros Hp. apply (chain_step ["converting"] "uploading" p); [|done].
  apply phaseChain_two. constructor.
Qed.

(** The goals left once a job's observation is known. *)
Ltac phase_tac :=
  match goal with
  | |- Forall _ _ => by repeat constructor
  | |- phaseChain [_; _] => apply phaseChain_two; constructor
  | |- phaseChain [_; _; _] => apply phaseChain_three; constructor
  | |- _ ∨ _ => by (left + (right; left) + (right; right))
  | |- _ !! _ = Some _ => by apply lookup_insert_eq
  | |- inl _ = inl _ -> ∃ _, _ => intros [= <-]; by eexists
  | |- (∃ _, _) -> inl _ = inl _ => by intros [? [= _ <-]]
  | |- inr _ = inl _ -> _ => by intros [=]
  | |- (∃ _, None = Some _) -> _ => by intros [? [=]]
  | |- ∀ _, inl _ = inl _ -> _ => intros ? _; by apply lookup_insert_eq
  | |- _ = _ -> _ !! _ = Some _ => intros _; by apply lookup_insert_eq
  | |- ∀ other, other ≠ _ -> _ =>
      let Hne := fresh in intros ? Hne; by rewrite !lookup_insert_ne
  end.

(** C8. In one run of the orchestrator the phases written to the Status
    Register are those of the job alone and follow converting ->
    uploading -> completed, leaving that line only for error and never
    going back; the register ends on the last of them. The run throws
    exactly when a mandatory stage fails, and then the register says
    error and the exception thrown is the one that stage threw; the
    entries of other jobs are not touched. *)
Theorem status_phases_monotone (w : World) (videoPath objectId : string)
    (st : Register) :
  let run := convertToHLS w videoPath objectId st in
  let writes := statusWrites (events run) in
  let phases := map snd writes in
  (∀ stage e,
     fatalError w videoPath objectId = Some (stage, e) ->
     match stage with
     | AtSetup => mkdir_fault w (hlsOutputDirOf w objectId) = Some e
     | AtProbe => getVideoResolution w videoPath = inl e
     | AtEncode =>
         tierError w videoPath (hlsOutputDirOf w objectId) (planOf w videoPath)
         = Some e
     | AtManifest =>
         writeFile_fault w (path_join (hlsOutputDirOf w objectId) "master.m3u8")
         = Some e
     | AtUpload => uploadError w (hlsOutputDirOf w objectId) objectId = Some e
     end) ∧
  Forall (fun wr => fst wr = objectId) writes ∧
  phaseChain phases ∧
  (phases = ["converting"; "uploading"; "completed"] ∨
   phases = ["converting"; "error"] ∨
   phases = ["converting"; "uploading"; "error"]) ∧
  getConversionStatus objectId (register run) = last phases ∧
  (∀ e, outcome run = inl e ↔
        ∃ stage, fatalError w videoPath objectId = Some (stage, e)) ∧
  (∀ e, outcome run = inl e ->
        getConversionStatus objectId (register run) = Some "error") ∧
  (outcome run = inr tt ↔ fatalError w videoPath objectId = None) ∧
  (outcome run = inr tt ->
   getConversionStatus objectId (register run) = Some "completed") ∧
  (∀ other, other ≠ objectId ->
            getConversionStatus other (register run)
            = getConversionStatus other st).
Proof.
  intros run writes phases.
  split; [intros stage e; apply fatalError_original|].
  destruct (convertToHLS_observed w videoPath objectId st)
    as (Ho & Hreg & Hsw & _).
  fold run in Ho, Hreg, Hsw. unfold phases, writes, getConversionStatus.
  rewrite Ho, Hreg, Hsw. unfold jobObservation.
  destruct (fatalError w videoPath objectId) as [[stage e]|];
    [destruct stage|]; simpl; repeat split; try done; phase_tac.
Qed.

Lemma upload_all_or_fail_witness :
  noReaddirFault (faults exampleWorld) ∧
  let run :=
    uploadHlsFilesToS3 (faults exampleWorld) (s3_upload exampleWorld)
      (Dir exampleTree) "/app/uploads/hls/job1" "job1" ∅ in
  let uploads := uploadsOf (events run) in
  length uploads = countFiles (Dir exampleTree) ∧
  Forall (fun u =>
            ContentType u =
              if endsWith (Body u) ".m3u8" then "application/x-mpegURL"
              else "video/MP2T") uploads ∧
  ((∃ u, u ∈ uploads ∧ rejection (s3_upload exampleWorld u) ≠ None) ↔
   ∃ err, outcome run = inl err) ∧
  (∀ err, outcome run = inl err ->
          ∃ u, u ∈ uploads ∧ rejection (s3_upload exampleWorld u) = Some err) ∧
  (Forall (fun u => rejection (s3_upload exampleWorld u) = None) uploads ↔
   outcome run = inr tt).
Proof.
  assert (H : noReaddirFault (faults exampleWorld)) by (intros path; reflexivity).
  split; [exact H|].
  exact (upload_all_or_fail (faults exampleWorld) (s3_upload exampleWorld)
           exampleTree "/app/uploads/hls/job1" "job1" ∅ H).
Defined.

Example upload_example :
  map (fun u => (Key u, ContentType u))
    (uploadsOf (events (uploadHlsFilesToS3 (faults exampleWorld)
                          (s3_upload exampleWorld) (Dir exampleTree)
                          "/app/uploads/hls/job1" "job1" ∅)))
  = [ ("courses/chapters/videos/job1/master.m3u8", "application/x-mpegURL");
      ("courses/chapters/videos/job1/1080p/index.m3u8", "application/x-mpegURL");
      ("courses/chapters/videos/job1/1080p/index0.ts", "video/MP2T");
      ("courses/chapters/videos/job1/720p/index.m3u8", "application/x-mpegURL");
      ("courses/chapters/videos/job1/720p/index0.ts", "video/MP2T");
      ("courses/chapters/videos/job1/480p/index.m3u8", "application/x-mpegURL");
      ("courses/chapters/videos/job1/480p/index0.ts", "video/MP2T") ].
Proof. vm_compute. reflexivity. Qed.

(** ** The quoted figures on binary64 *)

(** On doubles the bitrates of the catalog tiers and of the fallback come
    out as in the exact model. *)
Example binary64_bitrates :
  Binary64.bitrateValue 1280 720 2500 1 = Some (bitrateValue 1280 720 2500 1) ∧
  Binary64.bitrateValue 1920 1080 5000 1 = Some (bitrateValue 1920 1080 5000 1) ∧
  Binary64.bitrateValue 854 480 1000 1 = Some (bitrateValue 854 480 1000 1) ∧
  Binary64.bitrateValue 640 360 2500 1 = Some (bitrateValue 640 360 2500 1) ∧
  Binary64.bitrateValue 640 360 1000 1 = Some (bitrateValue 640 360 1000 1) ∧
  Binary64.bitrateValue 1280 720 2500 1 = Some 1111 ∧
  Binary64.bitrateValue 640 360 2500 1 = Some 278 ∧
  Binary64.bitrateValue 640 360 1000 1 = Some 111.
Proof. vm_compute. repeat split. Qed.

(** So is the safe window of a 100-second source. *)
Example binary64_window_100 :
  Binary64.exact (Binary64.safeStart (Binary64.ofZ 100)) = Some (Qred (safeStart 100)) ∧
  Binary64.exact (Binary64.safeEnd (Binary64.ofZ 100)) = Some (Qred (safeEnd 100)) ∧
  Binary64.exact (Binary64.safeDuration (Binary64.ofZ 100))
  = Some (Qred (safeDuration 100)).
Proof. vm_compute. repeat split. Qed.

(** ** The Sprite Sheet Generator inside a job *)

Section Returns.
Context {A B : Type}.

(** A sequence that returns: both parts returned. *)
Lemma bind_returns (m : M A) (k : A -> M B) st b :
  outcome (bind m k st) = inr b ->
  ∃ a, outcome (m st) = inr a ∧
       outcome (k a (register (m st))) = inr b ∧
       events (bind m k st)
       = (events (m st) ++ events (k a (register (m st))))%list.
Proof.
  unfold bind. destruct (outcome (m st)) as [e|a]; simpl; [done|].
  intros H. by exists a.
Qed.

(** A [try] whose handler throws again returns only if its body does. *)
Lemma rethrow_returns (m : M A) (h : Exn -> M unit) st a :
  outcome (try_catch m (fun err => bind (h err) (fun _ => throw err)) st)
  = inr a ->
  outcome (m st) = inr a ∧
  events (try_catch m (fun err => bind (h err) (fun _ => throw err)) st)
  = events (m st).
Proof.
  unfold try_catch. destruct (outcome (m st)) as [e|a'] eqn:Hm; simpl.
  - unfold bind. by destruct (outcome (h e (register (m st)))).
  - intros H. split; [congruence|done].
Qed.

Lemma finally_returns (m : M A) (f : M unit) st a :
  outcome (try_finally m f st) = inr a ->
  outcome (m st) = inr a ∧
  events (try_finally m f st)
  = (events (m st) ++ events (f (register (m st))))%list.
Proof.
  unfold try_finally. simpl.
  by destruct (outcome (f (register (m st)))).
Qed.
End Returns.

Lemma extractionsOf_app evs1 evs2 :
  extractionsOf (evs1 ++ evs2)
  = (extractionsOf evs1 ++ extractionsOf evs2)%list.
Proof. apply omap_app. Qed.

Lemma tilesOf_app evs1 evs2 :
  tilesOf (evs1 ++ evs2) = (tilesOf evs1 ++ tilesOf evs2)%list.
Proof. apply omap_app. Qed.

Lemma imap_extractions (f : nat -> string -> list Event) (xs : list string) :
  (∀ i x, length (extractionsOf (f i x)) = 1%nat ∧ tilesOf (f i x) = []) ->
  length (extractionsOf (concat (imap f xs))) = length xs ∧
  tilesOf (concat (imap f xs)) = [].
Proof.
  revert f. induction xs as [|x xs IH]; intros f Hone; [done|].
  change (concat (imap f (x :: xs)))
    with (f 0%nat x ++ concat (imap (f ∘ S) xs))%list.
  rewrite extractionsOf_app, tilesOf_app, length_app.
  destruct (Hone 0%nat x) as [-> ->].
  destruct (IH (f ∘ S)) as [-> ->]; [intros i y; apply Hone|]. done.
Qed.

(** The frame promises: one extraction per timestamp, no montage. *)
Lemma frames_extractions w videoPath framesDir timestamps :
  length (extractionsOf
            (concat (imap (frameEvents w videoPath framesDir) timestamps)))
  = length timestamps ∧
  tilesOf (concat (imap (frameEvents w videoPath framesDir) timestamps)) = [].
Proof.
  apply imap_extractions. intros i x. unfold frameEvents.
  destruct (extractFrame w _ _ _); [destruct (createBlankFrame w _)|]; done.
Qed.

Lemma spriteTimestamps_length d n :
  length (spriteTimestamps d n) = Z.to_nat n.
Proof. unfold spriteTimestamps. by rewrite length_map, length_seqZ. Qed.

Lemma run_perform r st : register (perform r st) = st ∧ events (perform r st) = [].
Proof. by destruct r. Qed.

Lemma run_call {A} (r : Exn + A) st :
  register (call r st) = st ∧ events (call r st) = [].
Proof. by destruct r. Qed.

Lemma run_raise {A} w (r : SpriteError + A) st :
  register (raise w r st) = st ∧ events (raise w r st) = [].
Proof. by destruct r. Qed.

Lemma call_returns {A} (r : Exn + A) st a : outcome (call r st) = inr a -> r = inr a.
Proof. destruct r; simpl; congruence. Qed.

Lemma raise_returns {A} w (r : SpriteError + A) st a :
  outcome (raise w r st) = inr a -> r = inr a.
Proof. destruct r; simpl; congruence. Qed.

(** A generator that returns on a 720-second source has started 80
    extractions and tiled them 10 columns by 8 rows. *)
Lemma generateSpriteSheet_returns w videoPath objectId st key metadata :
  ffprobe w videoPath = inr metadata ->
  format_duration metadata = Some 720%Q ->
  outcome (generateSpriteSheet w videoPath objectId st) = inr key ->
  let evs := events (generateSpriteSheet w videoPath objectId st) in
  tilesOf evs = [(10, 8)] ∧ length (extractionsOf evs) = 80%nat.
Proof.
  intros Hprobe Hduration Hret evs. unfold evs. clear evs.
  unfold generateSpriteSheet in *.
  apply bind_returns in Hret as (u & _ & Hret & ->).
  destruct (run_perform (mkdir_fault w (path_join (UPLOADS_DIR w) objectId)) st)
    as [Hreg Hev]. rewrite Hreg in *. rewrite Hev. clear Hreg Hev.
  apply rethrow_returns in Hret as (Hret & ->).
  destruct (existsSync w videoPath); cbn [negb] in *; [|discriminate Hret].
  apply bind_returns in Hret as (duration & Hd & Hret & ->).
  apply call_returns in Hd. unfold getVideoInfo in Hd. rewrite Hprobe in Hd.
  injection Hd as <-. unfold probedDuration in *. rewrite Hduration in *.
  cbn [from_option id] in *.
  destruct (run_call (getVideoInfo w videoPath) st) as [Hreg Hev].
  rewrite Hreg in *. rewrite Hev. clear Hreg Hev.
  apply bind_returns in Hret as ([[rows cols] n] & Hl & Hret & ->).
  apply raise_returns in Hl. vm_compute in Hl. injection Hl as <- <- <-.
  destruct (run_raise w (spriteLayout 720) st) as [Hreg Hev].
  rewrite Hreg in *. rewrite Hev. clear Hreg Hev.
  set (framesDir := path_join (path_join (UPLOADS_DIR w) objectId) "frames_temp") in *.
  apply bind_returns in Hret as (u1 & _ & Hret & ->).
  destruct (run_perform (mkdir_fault w framesDir) st) as [Hreg Hev].
  rewrite Hreg in *. rewrite Hev. clear Hreg Hev.
  apply bind_returns in Hret as (timestamps & Hw & Hret & ->).
  apply raise_returns in Hw.
  destruct (run_raise w (spriteWindow 720 80) st) as [Hreg Hev].
  rewrite Hreg in *. rewrite Hev. clear Hreg Hev.
  assert (Hlen : length timestamps = 80%nat).
  { unfold spriteWindow in Hw. destruct (Js.leb _ _); [discriminate Hw|].
    injection Hw as <-. by rewrite spriteTimestamps_length. }
  clear Hw.
  apply bind_returns in Hret as (u2 & _ & Hret & ->).
  cbn [emitAll events register] in *.
  apply finally_returns in Hret as (Hret & ->).
  apply bind_returns in Hret as (u3 & Hfirst & Hret & ->).
  destruct (firstRejection _) as [[t err]|]; [discriminate Hfirst|].
  cbn [ret events register] in *. clear Hfirst.
  apply bind_returns in Hret as (names & _ & Hret & ->).
  destruct (run_call (readdirSync w framesDir) st) as [Hreg Hev].
  rewrite Hreg in *. rewrite Hev. clear Hreg Hev.
  destruct (_ <? _)%nat; [discriminate Hret|].
  apply bind_returns in Hret as (u4 & _ & Hret & ->).
  cbn [emit events register] in *.
  apply bind_returns in Hret as (u5 & Htile & Hret & ->).
  destruct (ffmpeg_tile w framesDir 10 8) as [err|]; [discriminate Htile|].
  cbn [ret events register] in *. clear Htile.
  apply bind_returns in Hret as (u6 & _ & Hret & ->).
  cbn [emit events register] in *.
  apply bind_returns in Hret as (u7 & _ & Hret & ->).
  do 2 match goal with
  | |- context [events (perform ?r ?s)] =>
      destruct (run_perform r s) as [_ ->]
  end.
  cbn [ret events register] in *.
  destruct (frames_extractions w videoPath framesDir timestamps) as [Hex Htl].
  rewrite !tilesOf_app, !extractionsOf_app, !length_app, Hex, Htl, Hlen.
  split.
  - simpl. reflexivity.
  - simpl. reflexivity.
Qed.

Section Included.
Context {A B : Type}.

Lemma events_bind_l (m : M A) (k : A -> M B) st ev :
  ev ∈ events (m st) -> ev ∈ events (bind m k st).
Proof.
  intros H. unfold bind. destruct (outcome (m st)); simpl; [done|].
  apply elem_of_app. by left.
Qed.

Lemma events_bind_r (m : M A) (k : A -> M B) st a ev :
  outcome (m st) = inr a ->
  ev ∈ events (k a (register (m st))) -> ev ∈ events (bind m k st).
Proof.
  intros Hm H. unfold bind. rewrite Hm. simpl. apply elem_of_app. by right.
Qed.

Lemma events_try_catch_l (m : M A) (h : Exn -> M A) st ev :
  ev ∈ events (m st) -> ev ∈ events (try_catch m h st).
Proof.
  intros H. unfold try_catch. destruct (outcome (m st)); simpl; [|done].
  apply elem_of_app. by left.
Qed.

Lemma events_try_finally_l (m : M A) (f : M unit) st ev :
  ev ∈ events (m st) -> ev ∈ events (try_finally m f st).
Proof. intros H. unfold try_finally. simpl. apply elem_of_app. by left. Qed.
End Included.

(** Once the HLS output directory is there, what the generator does is
    part of what the job does. *)
Lemma sprite_events_in_run w videoPath objectId st ev :
  mkdir_fault w (hlsOutputDirOf w objectId) = None ->
  ev ∈ events (generateSpriteSheet w videoPath objectId
                 (<[objectId := "converting"]> st)) ->
  ev ∈ events (convertToHLS w videoPath objectId st).
Proof.
  intros Hmk Hev. unfold convertToHLS.
  fold (hlsOutputDirOf w objectId).
  apply (events_bind_r _ _ _ tt); [reflexivity|].
  cbn [setStatus register].
  apply events_try_finally_l, events_try_catch_l.
  apply (events_bind_r _ _ _ tt); [by rewrite Hmk|].
  destruct (run_perform (mkdir_fault w (hlsOutputDirOf w objectId))
              (<[objectId := "converting"]> st)) as [-> _].
  apply (events_bind_r _ _ _ tt); [apply bestEffort_returns|].
  match goal with
  | |- context [register (try_catch ?m ?h ?s)] =>
      assert (Hq : quiet (try_catch m h))
        by (apply quiet_try_catch;
            [apply quiet_thumbnailStep | intros err; apply quiet_logError]);
      destruct (Hq s) as (-> & _ & _)
  end.
  by apply events_bind_l, events_try_catch_l, events_bind_l.
Qed.

Lemma fatalError_setup w videoPath objectId :
  fatalError w videoPath objectId = None ->
  mkdir_fault w (hlsOutputDirOf w objectId) = None.
Proof. unfold fatalError. by destruct (mkdir_fault w _). Qed.

(** C2, as amended. A 720-second source of 1920 by 1080, processed end
    to end, gets the tiers 1080p, 720p, 480p in that order (2160p and
    1440p would upscale) and a master manifest with exactly three
    stream-info lines in that order; its sprite sheet generator, whose
    calls are part of the job's, extracts 80 frames and tiles them on a
    grid of 8 rows by 10 columns. *)
Theorem end_to_end_1080p (w : World) (videoPath objectId : string)
    (st : Register) (metadata : Metadata) (key : string) :
  ffprobe w videoPath = inr metadata ->
  getVideoResolution w videoPath = inr (1920, 1080) ->
  format_duration metadata = Some 720%Q ->
  fatalError w videoPath objectId = None ->
  outcome (generateSpriteSheet w videoPath objectId
             (<[objectId := "converting"]> st)) = inr key ->
  let run := convertToHLS w videoPath objectId st in
  let sprite :=
    generateSpriteSheet w videoPath objectId (<[objectId := "converting"]> st) in
  map r_name (planOf w videoPath) = ["1080p"; "720p"; "480p"] ∧
  fileWrites (events run) =
    [(path_join (hlsOutputDirOf w objectId) "master.m3u8",
      join nl
        [ "#EXTM3U";
          "#EXT-X-STREAM-INF:BANDWIDTH=5000000,RESOLUTION=1920x1080";
          "1080p/index.m3u8";
          "#EXT-X-STREAM-INF:BANDWIDTH=1111000,RESOLUTION=1280x720";
          "720p/index.m3u8";
          "#EXT-X-STREAM-INF:BANDWIDTH=198000,RESOLUTION=854x480";
          "480p/index.m3u8" ])] ∧
  outcome run = inr tt ∧
  (∀ ev, ev ∈ events sprite -> ev ∈ events run) ∧
  tilesOf (events sprite) = [(10, 8)] ∧
  length (extractionsOf (events sprite)) = 80%nat ∧
  spriteFrames (probedDuration metadata) = Some (8, 10, 80).
Proof.
  intros Hmeta Hprobe Hduration Hfatal Hsprite run sprite.
  destruct (convertToHLS_observed w videoPath objectId st) as (Ho & _ & _ & Hfw).
  fold run in Ho, Hfw. unfold jobObservation in Ho, Hfw.
  rewrite Hfatal in Ho, Hfw. cbn [fst snd] in Ho, Hfw.
  assert (Hplan : planOf w videoPath = getDynamicResolutions 1920 1080 1).
  { unfold planOf. by rewrite Hprobe. }
  rewrite Hplan in *.
  destruct (generateSpriteSheet_returns w videoPath objectId _ key metadata
              Hmeta Hduration Hsprite) as [Htiles Hframes].
  split; [reflexivity|].
  split; [rewrite Hfw; do 2 f_equal|].
  split; [exact Ho|].
  split; [intros ev; apply sprite_events_in_run; by apply (fatalError_setup w videoPath)|].
  split; [exact Htiles|].
  split; [exact Hframes|].
  unfold probedDuration. rewrite Hduration. reflexivity.
Qed.

Lemma end_to_end_1080p_witness :
  let run := convertToHLS exampleWorld "/app/uploads/job1/original.mp4" "job1" ∅ in
  let sprite :=
    generateSpriteSheet exampleWorld "/app/uploads/job1/original.mp4" "job1"
      (<["job1" := "converting"]> ∅) in
  map r_name (planOf exampleWorld "/app/uploads/job1/original.mp4")
    = ["1080p"; "720p"; "480p"] ∧
  fileWrites (events run) =
    [(path_join (hlsOutputDirOf exampleWorld "job1") "master.m3u8",
      join nl
        [ "#EXTM3U";
          "#EXT-X-STREAM-INF:BANDWIDTH=5000000,RESOLUTION=1920x1080";
          "1080p/index.m3u8";
          "#EXT-X-STREAM-INF:BANDWIDTH=1111000,RESOLUTION=1280x720";
          "720p/index.m3u8";
          "#EXT-X-STREAM-INF:BANDWIDTH=198000,RESOLUTION=854x480";
          "480p/index.m3u8" ])] ∧
  outcome run = inr tt ∧
  (∀ ev, ev ∈ events sprite -> ev ∈ events run) ∧
  tilesOf (events sprite) = [(10, 8)] ∧
  length (extractionsOf (events sprite)) = 80%nat ∧
  spriteFrames
    (probedDuration
       (mkMetadata [mkStream "audio" 0 0; mkStream "video" 1920 1080]
          (Some 720%Q)))
  = Some (8, 10, 80).
Proof.
  apply (end_to_end_1080p exampleWorld "/app/uploads/job1/original.mp4" "job1" ∅
           (mkMetadata [mkStream "audio" 0 0; mkStream "video" 1920 1080]
              (Some 720%Q))
           "courses/chapters/videos/job1/job1_spritesheet.jpg").
  - reflexivity.
  - reflexivity.
  - reflexivity.
  - vm_compute. reflexivity.
  - vm_compute. reflexivity.
Defined.

(** C2, as the specification states it, fails on that job: the tiers are
    as it says and the manifest is written, but a source of 720 seconds
    is longer than 600, so the job does not tile 48 frames on a grid of
    6 rows by 8 columns. *)
Lemma end_to_end_sprite_grid_counterexample :
  ¬ (let run :=
       convertToHLS exampleWorld "/app/uploads/job1/original.mp4" "job1" ∅ in
     map r_name (planOf exampleWorld "/app/uploads/job1/original.mp4")
       = ["1080p"; "720p"; "480p"] ∧
     length (fileWrites (events run)) = 1%nat ∧
     tilesOf (events run) = [(8, 6)] ∧
     length (extractionsOf (events run)) = 48%nat ∧
     spriteFrames 720 = Some (6, 8, 48)).
Proof. intros (_ & _ & Hgrid & _). vm_compute in Hgrid. discriminate Hgrid. Qed.

(** What that job does tile and extract. *)
Example end_to_end_sprite_grid :
  let run :=
    convertToHLS exampleWorld "/app/uploads/job1/original.mp4" "job1" ∅ in
  tilesOf (events run) = [(10, 8)] ∧
  length (extractionsOf (events run)) = 80%nat.
Proof. vm_compute. split; reflexivity. Qed.

(** * Further properties of the code *)

(** ** Following a run forwards *)

Section Forward.
Context {A B : Type}.

Lemma bind_inr (m : M A) (k : A -> M B) st a :
  outcome (m st) = inr a ->
  outcome (bind m k st) = outcome (k a (register (m st))) ∧
  register (bind m k st) = register (k a (register (m st))) ∧
  events (bind m k st) = (events (m st) ++ events (k a (register (m st))))%list.
Proof. intros H. unfold bind. by rewrite H. Qed.

Lemma bind_inl (m : M A) (k : A -> M B) st e :
  outcome (m st) = inl e ->
  outcome (bind m k st) = inl e ∧
  register (bind m k st) = register (m st) ∧
  events (bind m k st) = events (m st).
Proof. intros H. unfold bind. by rewrite H. Qed.

Lemma try_catch_inr (m : M A) (h : Exn -> M A) st a :
  outcome (m st) = inr a -> try_catch m h st = m st.
Proof. intros H. unfold try_catch. by rewrite H. Qed.

Lemma try_catch_inl (m : M A) (h : Exn -> M A) st e :
  outcome (m st) = inl e ->
  outcome (try_catch m h st) = outcome (h e (register (m st))) ∧
  register (try_catch m h st) = register (h e (register (m st))) ∧
  events (try_catch m h st)
  = (events (m st) ++ events (h e (register (m st))))%list.
Proof. intros H. unfold try_catch. by rewrite H. Qed.

Lemma try_finally_inr (m : M A) (f : M unit) st :
  outcome (f (register (m st))) = inr tt ->
  outcome (try_finally m f st) = outcome (m st).
Proof. intros H. unfold try_finally. cbn [outcome]. by rewrite H. Qed.
End Forward.

(** The [catch] of the generator: log the error, then throw it again. *)
Lemma rethrow_inl {A} (m : M A) (line : Exn -> string) st e :
  outcome (m st) = inl e ->
  let run := try_catch m (fun err => bind (logError (line err))
                                        (fun _ => throw err)) st in
  outcome run = inl e ∧ register run = register (m st) ∧
  events run = (events (m st) ++ [LogError (line e)])%list.
Proof.
  intros H run. unfold run, try_catch. rewrite H. done.
Qed.

Lemma bind_skip {A B} (m : M A) (k : A -> M B) st a :
  m st = mkRun (inr a) st [] ->
  outcome (bind m k st) = outcome (k a st) ∧
  register (bind m k st) = register (k a st) ∧
  events (bind m k st) = events (k a st).
Proof. intros H. unfold bind. by rewrite H. Qed.

(** One step of a run whose first computation returns [a], changes
    nothing and emits nothing. *)
Ltac skip_step a :=
  let Ho := fresh in let Hr := fresh in let He := fresh in
  match goal with
  | |- context [bind ?m ?k ?s] =>
      destruct (bind_skip m k s a) as (Ho & Hr & He);
      [ | rewrite ?Ho, ?Hr, ?He; clear Ho Hr He; cbv beta ]
  end.

(** ** More about the Resolution Planner *)

Lemma plan_entry_fits w h c r :
  r ∈ map (planEntry c)
        (filter (fun e => pixels (snd e) <= w * h) possibleTargets) ->
  ∃ e, e ∈ resolutionTargets ∧ pixels (snd e) <= w * h ∧ r = planEntry c e.
Proof.
  intros Hr. apply elem_of_map in Hr as (e & -> & He).
  apply list_elem_of_filter in He as [Hfit He].
  exists e. by rewrite <- possibleTargets_catalog.
Qed.

(** X1. The planner never comes back empty-handed and never upscales:
    whatever the source and the complexity, the plan has between one and
    five tiers, and no tier has more pixels than the source. *)
Theorem planner_never_upscales (w h : Z) (c : Q) :
  let plan := getDynamicResolutions w h c in
  (1 <= length plan <= 5)%nat ∧
  Forall (fun r => r_pixels r <= w * h) plan.
Proof.
  intros plan. unfold plan. rewrite getDynamicResolutions_cases.
  cbv zeta.
  pose proof (length_filter (fun e => pixels (snd e) <= w * h) possibleTargets)
    as Hlen.
  change (length possibleTargets) with 5%nat in Hlen.
  destruct (filter _ possibleTargets) as [|e fitting] eqn:Hfit.
  - split; [simpl; lia|]. apply Forall_singleton. unfold r_pixels. simpl. lia.
  - rewrite <- Hfit. split.
    + rewrite length_map. rewrite Hfit in *. simpl in *. lia.
    + apply Forall_forall. intros r Hr.
      apply plan_entry_fits in Hr as ([name t] & _ & Hle & ->). exact Hle.
Qed.

Lemma filter_all {A} (P : A -> Prop) `{∀ x, Decision (P x)} (l : list A) :
  Forall P l -> filter P l = l.
Proof.
  induction 1 as [|x l Hx Hl IH]; [done|].
  rewrite filter_cons_True by done. by rewrite IH.
Qed.

Lemma filter_descending_suffix {A} (key : A -> Z) (a b : Z) (l : list A) :
  StronglySorted (fun x y => key y < key x) l ->
  a <= b ->
  filter (fun x => key x <= a) l `suffix_of` filter (fun x => key x <= b) l.
Proof.
  intros Hsorted Hab. induction Hsorted as [|x l Hl IH Hx]; [done|].
  rewrite !filter_cons.
  destruct (decide (key x <= a)) as [Ha|Ha].
  - rewrite decide_True by lia.
    assert (Hall : ∀ k, key x <= k -> filter (fun y => key y <= k) l = l).
    { intros k Hk. apply filter_all.
      eapply Forall_impl; [exact Hx|]. simpl. intros y Hy. lia. }
    rewrite !Hall by lia. done.
  - destruct (decide (key x <= b)); [by apply suffix_cons_r|done].
Qed.

(** X2. A larger source keeps every tier of a smaller one and adds only
    tiers above them: when some catalog tier fits the smaller source, its
    plan is the tail of the plan of any source with at least as many
    pixels. *)
Theorem planner_grows_with_source (w h w' h' : Z) (c : Q) :
  w * h <= w' * h' ->
  (∃ e, e ∈ resolutionTargets ∧ pixels (snd e) <= w * h) ->
  getDynamicResolutions w h c `suffix_of` getDynamicResolutions w' h' c.
Proof.
  intros Hle (e & He & Hfit).
  rewrite !getDynamicResolutions_cases. cbv zeta.
  pose proof (filter_descending_suffix (fun e => pixels (snd e))
                (w * h) (w' * h') possibleTargets catalog_descending Hle)
    as Hsuffix.
  cbv beta in Hsuffix.
  assert (Hin : e ∈ filter (fun e => pixels (snd e) <= w * h) possibleTargets).
  { apply list_elem_of_filter. by rewrite possibleTargets_catalog. }
  destruct (filter (fun e => pixels (snd e) <= w * h) possibleTargets)
    as [|e1 l1] eqn:H1; [by apply elem_of_nil in Hin|].
  destruct (filter (fun e => pixels (snd e) <= w' * h') possibleTargets)
    as [|e2 l2] eqn:H2.
  - by apply suffix_cons_nil_inv in Hsuffix.
  - destruct Hsuffix as [k ->]. exists (map (planEntry c) k).
    by rewrite map_app.
Qed.

Lemma planner_grows_with_source_witness :
  getDynamicResolutions 1280 720 1 `suffix_of` getDynamicResolutions 1920 1080 1.
Proof.
  apply planner_grows_with_source.
  - lia.
  - exists ("480p", mkTarget 854 480 1000 23). split.
    + unfold resolutionTargets. set_solver.
    + vm_compute. discriminate.
Defined.


(** ** The order of the variants *)






(** ** The directory of a tier *)

Lemma replaceFirst_skip (pat rep : string) (c : ascii) (s : string) :
  (∀ p, pat ≠ String c p) -> pat ≠ "" ->
  replaceFirst pat rep (String c s) = String c (replaceFirst pat rep s).
Proof.
  intros Hc Hne. destruct pat as [|a pat]; [done|].
  cbn [replaceFirst String.prefix].
  destruct (ascii_dec a c) as [->|Hac]; [by destruct (Hc pat)|done].
Qed.

Lemma pretty_N_char_no_space d : (d < 10)%N -> pretty_N_char d ≠ " "%char.
Proof.
  intros Hd Heq. pose proof (digitValue_pretty_N_char d Hd) as H.
  rewrite Heq in H. discriminate H.
Qed.

Lemma replaceFirst_pretty_N_go (x : N) :
  ∀ s, replaceFirst " (source)" "" (pretty_N_go x s)
       = pretty_N_go x (replaceFirst " (source)" "" s).
Proof.
  induction (N.lt_wf_0 x) as [x _ IH]. intros s.
  destruct (decide (x = 0%N)) as [->|Hx].
  - by rewrite !pretty_N_go_0.
  - rewrite !(pretty_N_go_step x) by lia.
    rewrite IH by (apply N.div_lt; lia).
    rewrite replaceFirst_skip; [done| |done].
    intros p [= Hp _]. 
    apply (pretty_N_char_no_space (x `mod` 10)); [|done].
    apply N.mod_lt. lia.
Qed.

Lemma tierDirName_source (h : Z) :
  tierDirName (pretty h +:+ "p (source)") = pretty h +:+ "p".
Proof.
  unfold tierDirName. destruct h as [|p|p]; [reflexivity| |].
  - change (pretty (Z.pos p)) with (pretty_N_go (N.pos p) "").
    rewrite !pretty_N_go_app. rewrite replaceFirst_pretty_N_go. reflexivity.
  - change (pretty (Z.neg p)) with (String "-" (pretty_N_go (N.pos p) "")).
    change (String "-" ?a +:+ ?b) with (String "-" (a +:+ b)).
    rewrite !pretty_N_go_app.
    rewrite replaceFirst_skip; [|intros q [=]|done].
    rewrite replaceFirst_pretty_N_go. reflexivity.
Qed.

(** X5. Every tier of every plan is encoded into the directory named
    after its height, [<height>p], and listed in the master manifest as
    [<height>p/index.m3u8]: the catalog names are of that form, and the
    [" (source)"] the planner appends to the name of a synthesized tier
    is dropped again. *)
Theorem tier_directory_is_height (w h : Z) (c : Q) (r : Resolution) :
  r ∈ getDynamicResolutions w h c ->
  tierDirName (r_name r) = pretty (r_height r) +:+ "p" ∧
  vp_playlist (variantOf r) = pretty (r_height r) +:+ "p/index.m3u8".
Proof.
  intros Hr.
  assert (Hdir : tierDirName (r_name r) = pretty (r_height r) +:+ "p").
  { rewrite getDynamicResolutions_cases in Hr. cbv zeta in Hr.
    destruct (filter _ possibleTargets) as [|e fitting] eqn:Hfit.
    - apply list_elem_of_singleton in Hr as ->. cbn [r_name r_height].
      apply tierDirName_source.
    - rewrite <- Hfit in Hr.
      apply plan_entry_fits in Hr as (e' & He' & _ & ->).
      unfold resolutionTargets in He'.
      repeat (apply elem_of_cons in He' as [->|He']; [reflexivity|]).
      by apply elem_of_nil in He'. }
  split; [exact Hdir|].
  unfold variantOf. cbn [vp_playlist]. rewrite Hdir.
  by rewrite append_assoc.
Qed.

Lemma tier_directory_is_height_witness :
  tierDirName "360p (source)" = "360p" ∧
  vp_playlist (variantOf
                 (mkResolution 640 360 (calculateBitrate 640 360 2500 1) 23
                    "360p (source)"))
  = "360p/index.m3u8".
Proof.
  apply (tier_directory_is_height 640 360 1
           (mkResolution 640 360 (calculateBitrate 640 360 2500 1) 23
              "360p (source)")).
  vm_compute. apply list_elem_of_here.
Defined.

(** ** Where the frames of a sheet are taken *)






(** ** The frames of a sheet *)

Lemma frame_number_roundtrip (i : nat) :
  (i < 1000)%nat ->
  String.length (padStart3 (pretty i)) = 3%nat ∧
  Js.parseInt (padStart3 (pretty i)) = Some (Z.of_nat i) ∧
  readDigits 0 (padStart3 (pretty i) +:+ ".jpg") = Z.of_nat i.
Proof.
  intros Hi.
  assert (Hall :
    forallb (fun i =>
               (String.length (padStart3 (pretty i)) =? 3)%nat &&
               bool_decide (Js.parseInt (padStart3 (pretty i))
                            = Some (Z.of_nat i)) &&
               (readDigits 0 (padStart3 (pretty i) +:+ ".jpg")
                =? Z.of_nat i))
            (seq 0 1000) = true) by (vm_compute; reflexivity).
  rewrite forallb_forall in Hall.
  specialize (Hall i). rewrite in_seq in Hall.
  assert (Hin : (0 <= i < 0 + 1000)%nat) by lia. specialize (Hall Hin).
  apply andb_prop in Hall as [Hall Hread].
  apply andb_prop in Hall as [Hlen Hparse].
  apply Nat.eqb_eq in Hlen. apply bool_decide_eq_true in Hparse.
  apply Z.eqb_eq in Hread. done.
Qed.

(** X7. The frames of a sheet never overwrite one another, and the
    montage finds them: for an index below 1000 the file of a frame is
    [frame-ddd.jpg] in the frames directory, with [ddd] exactly three
    characters that read back as the index, and two different indices
    give two different files. *)
Theorem frame_files_distinct (framesDir : string) (i j : nat) :
  (i < 1000)%nat -> (j < 1000)%nat ->
  (∃ ddd, framePath framesDir i
          = path_join framesDir ("frame-" +:+ ddd +:+ ".jpg") ∧
          String.length ddd = 3%nat ∧
          Js.parseInt ddd = Some (Z.of_nat i)) ∧
  (framePath framesDir i = framePath framesDir j -> i = j).
Proof.
  intros Hi Hj.
  destruct (frame_number_roundtrip i Hi) as (Hlen & Hparse & Hread).
  destruct (frame_number_roundtrip j Hj) as (_ & _ & Hread').
  split; [by exists (padStart3 (pretty i))|].
  unfold framePath, path_join. intros Heq.
  do 3 apply String.app_inj in Heq.
  rewrite Heq in Hread. rewrite Hread in Hread'. lia.
Qed.

Lemma frame_files_distinct_witness :
  (∃ ddd, framePath "/app/uploads/job1/frames_temp" 7
          = path_join "/app/uploads/job1/frames_temp"
              ("frame-" +:+ ddd +:+ ".jpg") ∧
          String.length ddd = 3%nat ∧
          Js.parseInt ddd = Some (Z.of_nat 7)) ∧
  (framePath "/app/uploads/job1/frames_temp" 7
   = framePath "/app/uploads/job1/frames_temp" 70 -> 7%nat = 70%nat).
Proof.
  apply (frame_files_distinct "/app/uploads/job1/frames_temp" 7 70); lia.
Defined.

(** ** Runs of the Sprite Sheet Generator *)









(** X9. The generator gives up before any frame is extracted when the
    source file is missing, and when the probe reports no duration or
    one that is not positive: it throws the matching error, and all it
    leaves behind is the one line that logs it. A missing duration
    counts as 0. *)
Theorem sprite_gives_up_early (w : World) (videoPath objectId : string)
    (st : Register) :
  mkdir_fault w (path_join (UPLOADS_DIR w) objectId) = None ->
  existsSync w videoPath = false ∨
  (∃ metadata, ffprobe w videoPath = inr metadata ∧
               (probedDuration metadata <= 0)%Q) ->
  let run := generateSpriteSheet w videoPath objectId st in
  let msg :=
    if existsSync w videoPath
    then match ffprobe w videoPath with
         | inr metadata =>
             "Invalid video duration: "
               +:+ numberToString w (probedDuration metadata) +:+ "s"
         | inl _ => ""
         end
    else "Video file not found: " +:+ videoPath in
  outcome run = inl (Error msg) ∧
  events run = [LogError ("Sprite sheet generation failed: " +:+ msg)] ∧
  register run = st ∧
  (∀ ss, probedDuration (mkMetadata ss None) = 0%Q).
Proof.
  intros Hmk Hcase run msg.
  assert (Hreg : register run = st)
    by apply (quiet_generateSpriteSheet w videoPath objectId st).
  cut (outcome run = inl (Error msg) ∧
       events run = [LogError ("Sprite sheet generation failed: " +:+ msg)]).
  { intros [Ho He]. done. }
  clear Hreg. unfold run, generateSpriteSheet.
  skip_step tt; [by rewrite Hmk|].
  match goal with
  | |- context [try_catch ?m ?h st] =>
      assert (Hin : outcome (m st) = inl (Error msg) ∧ events (m st) = []);
      [|destruct Hin as [Hin Hnone];
        destruct (rethrow_inl m
                    (fun err =>
                       "Sprite sheet generation failed: " +:+ message err)
                    st (Error msg) Hin) as (Ho & _ & He);
        cbv zeta in Ho, He; rewrite Ho, He, Hnone; done]
  end.
  unfold msg. destruct (existsSync w videoPath) eqn:Hex; cbn [negb]; [|done].
  destruct Hcase as [Hno|(metadata & Hprobe & Hd)]; [discriminate Hno|].
  rewrite Hprobe.
  skip_step (probedDuration metadata);
    [unfold getVideoInfo; by rewrite Hprobe|].
  match goal with
  | |- context [bind ?m ?k st] =>
      destruct (bind_inl m k st
                  (spriteException w
                     (InvalidDurationError (probedDuration metadata))))
        as (Ho & _ & He); [|rewrite Ho, He]
  end.
  - unfold spriteLayout. apply leb_le in Hd. by rewrite Hd.
  - unfold spriteLayout. apply leb_le in Hd. by rewrite Hd.
Qed.

Lemma sprite_gives_up_early_witness :
  let run :=
    generateSpriteSheet audioOnly "/app/uploads/job1/original.mp4" "job1" ∅ in
  outcome run = inl (Error "Invalid video duration: 0s") ∧
  events run
  = [LogError "Sprite sheet generation failed: Invalid video duration: 0s"] ∧
  register run = ∅ ∧
  (∀ ss, probedDuration (mkMetadata ss None) = 0%Q).
Proof.
  apply (sprite_gives_up_early audioOnly "/app/uploads/job1/original.mp4"
           "job1" ∅).
  - reflexivity.
  - right. exists (mkMetadata [mkStream "audio" 0 0] None).
    split; [reflexivity|]. vm_compute. discriminate.
Defined.

Lemma Forall_imap {A B} (P : B -> Prop) (f : nat -> A -> B) (xs : list A) :
  (∀ i x, P (f i x)) -> Forall P (imap f xs).
Proof.
  revert f. induction xs as [|x xs IH]; intros f Hf; [constructor|].
  cbn [imap]. constructor; [apply Hf|]. apply IH. intros i y. apply Hf.
Qed.

Lemma spriteLayout_positive d :
  (0 < d)%Q ->
  spriteLayout d
  = inr (fst (spriteGrid d), snd (spriteGrid d),
         fst (spriteGrid d) * snd (spriteGrid d)).
Proof.
  intros Hd. unfold spriteLayout. apply leb_gt in Hd. rewrite Hd.
  by destruct (spriteGrid d).
Qed.

Lemma spriteWindow_positive d n :
  (0 < d)%Q -> spriteWindow d n = inr (spriteTimestamps d n).
Proof.
  intros Hd. unfold spriteWindow.
  pose proof (safeDuration_pos _ Hd) as HD. apply leb_gt in HD. by rewrite HD.
Qed.

(** X10. A frame that cannot be extracted does not cost the sheet. When
    every black stand-in frame can be made, the generator returns the key
    of the uploaded sheet however many extractions fail, provided the
    other steps succeed: the probe gives a positive duration, the
    directories can be made and removed, at least two frame files are
    listed, the montage and the upload succeed. *)
Theorem sprite_survives_failed_extractions (w : World)
    (videoPath objectId : string) (st : Register) (metadata : Metadata)
    (names : list string) :
  let outputDir := path_join (UPLOADS_DIR w) objectId in
  let framesDir := path_join outputDir "frames_temp" in
  mkdir_fault w outputDir = None ->
  existsSync w videoPath = true ->
  ffprobe w videoPath = inr metadata ->
  (0 < probedDuration metadata)%Q ->
  mkdir_fault w framesDir = None ->
  (∀ output, createBlankFrame w output = None) ->
  readdirSync w framesDir = inr names ->
  (2 <= length (List.filter (String.prefix "frame-") names))%nat ->
  (∀ cols rows, ffmpeg_tile w framesDir cols rows = None) ->
  (∀ params, rejection (s3_upload w params) = None) ->
  rmSync_fault w framesDir = None ->
  outcome (generateSpriteSheet w videoPath objectId st)
  = inr ("courses/chapters/videos/" +:+ objectId +:+ "/" +:+ objectId
           +:+ "_spritesheet.jpg").
Proof.
  intros outputDir framesDir Hmk Hex Hprobe Hd Hmk' Hblank Hls Hcount Htile
    Hs3 Hrm.
  unfold generateSpriteSheet. fold outputDir. fold framesDir.
  skip_step tt; [by rewrite Hmk|].
  match goal with
  | |- outcome (try_catch ?m ?h st) = inr ?key =>
      cut (outcome (m st) = inr key);
      [intros Hin; by rewrite (try_catch_inr m h st key Hin)|]
  end.
  rewrite Hex. cbn [negb].
  skip_step (probedDuration metadata);
    [unfold getVideoInfo; by rewrite Hprobe|].
  set (d := probedDuration metadata) in *.
  skip_step (fst (spriteGrid d), snd (spriteGrid d),
             fst (spriteGrid d) * snd (spriteGrid d));
    [by rewrite spriteLayout_positive|].
  skip_step tt; [by rewrite Hmk'|].
  skip_step (spriteTimestamps d (fst (spriteGrid d) * snd (spriteGrid d)));
    [by rewrite spriteWindow_positive|].
  match goal with
  | |- context [bind ?m ?k st] =>
      destruct (bind_inr m k st tt) as (-> & _ & _); [done|]
  end.
  cbn [emitAll register].
  rewrite try_finally_inr.
  2:{ match goal with
      | |- context [perform ?r ?s] => destruct (run_perform r s) as [_ _]
      end.
      by rewrite Hrm. }
  skip_step tt.
  { rewrite (proj2 (firstRejection_None _)); [done|].
    apply Forall_imap. intros i x. unfold frameSettled. cbn [rejection].
    destruct (extractFrame w videoPath x _); [apply Hblank|done]. }
  skip_step names; [by rewrite Hls|].
  apply Nat.ltb_ge in Hcount. rewrite Hcount.
  match goal with
  | |- context [bind ?m ?k st] =>
      destruct (bind_inr m k st tt) as (-> & _ & _); [done|]
  end.
  cbn [emit register].
  skip_step tt; [by rewrite Htile|].
  match goal with
  | |- context [bind ?m ?k st] =>
      destruct (bind_inr m k st tt) as (-> & _ & _); [done|]
  end.
  cbn [emit register].
  skip_step tt; [by rewrite Hs3|].
  reflexivity.
Qed.

Lemma sprite_survives_failed_extractions_witness :
  outcome (generateSpriteSheet unreadableFrames "/app/uploads/job1/original.mp4"
             "job1" ∅)
  = inr ("courses/chapters/videos/" +:+ "job1" +:+ "/" +:+ "job1"
           +:+ "_spritesheet.jpg").
Proof.
  apply (sprite_survives_failed_extractions unreadableFrames
           "/app/uploads/job1/original.mp4" "job1" ∅
           (mkMetadata [mkStream "audio" 0 0; mkStream "video" 1920 1080]
              (Some 720%Q))
           ["frame-000.jpg"; "frame-001.jpg"]).
  - reflexivity.
  - reflexivity.
  - reflexivity.
  - reflexivity.
  - reflexivity.
  - reflexivity.
  - reflexivity.
  - simpl. lia.
  - reflexivity.
  - reflexivity.
  - reflexivity.
Defined.

(** ** More about the Cleanup Coordinator *)

Lemma unlinksOf_app cs1 cs2 :
  unlinksOf (cs1 ++ cs2) = (unlinksOf cs1 ++ unlinksOf cs2)%list.
Proof. apply omap_app. Qed.

Lemma cleanupItems_thrown F dirPath items :
  thrown (cleanupItems (fun fullPath child => cleanupTree F fullPath child true)
            F dirPath items) = None.
Proof.
  induction items as [|[name child] items IH]; [done|]. simpl.
  destruct child as [|sub].
  - by destruct (unlink_fault F (path_join dirPath name)).
  - by rewrite (cleanupTree_thrown F (path_join dirPath name) (Dir sub) true).
Qed.

Lemma cleanupTree_Dir F dirPath items removeDir :
  readdir_fault F dirPath = None ->
  let r := cleanupItems (fun fullPath child => cleanupTree F fullPath child true)
             F dirPath items in
  cleanupTree F dirPath (Dir items) removeDir
  = if removeDir then
      match rmdirSync F dirPath (remaining r) with
      | None =>
          mkTraversal None
            (logged r ++ [(LvInfo, "Deleted directory: " +:+ dirPath)])%list
            (calls r ++ [Rmdir dirPath None])%list None
      | Some e =>
          mkTraversal (Some (Dir (remaining r)))
            (logged r ++
               [(LvError,
                 "Failed to delete directory " +:+ dirPath +:+ ": "
                   +:+ message e)])%list
            (calls r ++ [Rmdir dirPath (Some e)])%list None
      end
    else mkTraversal (Some (Dir (remaining r))) (logged r) (calls r) None.
Proof.
  intros Hls r.
  change (cleanupTree F dirPath (Dir items) removeDir)
    with (cleanupCatch dirPath
            match readdir_fault F dirPath with
            | Some e => mkTraversal (Some (Dir items)) [] [] (Some e)
            | None => cleanupAfterLoop F dirPath removeDir r
            end).
  rewrite Hls. unfold cleanupAfterLoop.
  pose proof (cleanupItems_thrown F dirPath items) as Hthrown. fold r in Hthrown.
  rewrite Hthrown. destruct removeDir; [|unfold cleanupCatch; cbn [thrown]; by rewrite ?Hthrown].
  by destruct (rmdirSync F dirPath (remaining r)).
Qed.

Lemma cleanupItems_unlinks F dirPath items :
  Forall (fun e => ∀ dir files,
            match snd e with
            | File => True
            | Dir _ =>
                readDir F dir (snd e) files
                = inr (files ++ unlinksOf
                                  (calls (cleanupTree F dir (snd e) true)))%list
            end) items ->
  ∀ files,
    readDirItems (readDir F) dirPath items files
    = inr (files ++ unlinksOf
                      (calls (cleanupItems
                                (fun fullPath child =>
                                   cleanupTree F fullPath child true)
                                F dirPath items)))%list.
Proof.
  induction 1 as [|[name child] items Hchild _ IH]; intros files.
  - simpl. by rewrite app_nil_r.
  - cbn [readDirItems cleanupItems]. destruct child as [|sub].
    + rewrite IH.
      destruct (unlink_fault F (path_join dirPath name)); cbn [calls];
        cbn [unlinksOf omap]; by rewrite <- app_assoc.
    + specialize (Hchild (path_join dirPath name) files). cbn [snd] in Hchild.
      rewrite Hchild.
      rewrite (cleanupTree_thrown F (path_join dirPath name) (Dir sub) true).
      rewrite IH. cbn [calls]. by rewrite unlinksOf_app, app_assoc.
Qed.

Lemma cleanupTree_unlinks F n :
  noReaddirFault F ->
  ∀ dir files removeDir,
    match n with
    | File => True
    | Dir _ =>
        readDir F dir n files
        = inr (files ++ unlinksOf (calls (cleanupTree F dir n removeDir)))%list
    end.
Proof.
  intros HF. induction n as [|items IH] using node_tree_ind; [done|].
  intros dir files removeDir.
  rewrite cleanupTree_Dir by apply HF. cbv zeta.
  change (readDir F dir (Dir items) files)
    with (match readdir_fault F dir with
          | Some e => inl e
          | None => readDirItems (readDir F) dir items files
          end).
  rewrite HF. rewrite cleanupItems_unlinks.
  - destruct removeDir; [|done].
    destruct (rmdirSync F dir _); cbn [calls];
      by rewrite unlinksOf_app, app_nil_r.
  - eapply Forall_impl; [exact IH|]. simpl. intros e He dir' files'.
    destruct (snd e); [done|]. apply (He dir' files' true).
Qed.

(** X11. Cleanup tries to delete exactly the files the Upload Coordinator
    lists, in the same order, each one once: when every directory can be
    listed, the files [cleanupDirectory] unlinks under a directory are
    the files [readDir] finds under it, whichever deletions fail, and
    their number is the number of files in the tree. *)
Theorem cleanup_attempts_every_file (F : FsFaults) (dirPath : string)
    (items : list (string * node)) (removeDir : bool) :
  noReaddirFault F ->
  let attempted :=
    unlinksOf (calls (cleanupDirectory F dirPath (Some (Dir items)) removeDir)) in
  readDir F dirPath (Dir items) [] = inr attempted ∧
  length attempted = countFiles (Dir items).
Proof.
  intros HF attempted.
  pose proof (cleanupTree_unlinks F (Dir items) HF dirPath [] removeDir) as H.
  cbn [app] in H. split; [exact H|].
  destruct (readDir_length F (Dir items) HF dirPath []) as (files & Hfiles & Hlen).
  unfold attempted, cleanupDirectory. rewrite H in Hfiles.
  injection Hfiles as <-. exact Hlen.
Qed.

Lemma cleanup_attempts_every_file_witness :
  let attempted :=
    unlinksOf (calls (cleanupDirectory (faults exampleWorld)
                        "/app/uploads/hls/job1" (Some (Dir exampleTree)) true)) in
  readDir (faults exampleWorld) "/app/uploads/hls/job1" (Dir exampleTree) []
  = inr attempted ∧
  length attempted = countFiles (Dir exampleTree).
Proof.
  apply (cleanup_attempts_every_file (faults exampleWorld)
           "/app/uploads/hls/job1" exampleTree true).
  intros path. reflexivity.
Defined.

Lemma cleanupItems_clean F dirPath items :
  noFaults F ->
  Forall (fun e => ∀ dir,
            match snd e with
            | File => True
            | Dir _ =>
                let t := cleanupTree F dir (snd e) true in
                remaining t = None ∧ Forall (fun l => fst l = LvInfo) (logged t)
            end) items ->
  let r := cleanupItems (fun fullPath child => cleanupTree F fullPath child true)
             F dirPath items in
  remaining r = [] ∧ Forall (fun l => fst l = LvInfo) (logged r).
Proof.
  intros HF. induction 1 as [|[name child] items Hchild _ IH]; [done|].
  cbv zeta in *. cbn [cleanupItems]. destruct child as [|sub].
  - destruct (HF (path_join dirPath name)) as (_ & -> & _).
    cbn [remaining logged]. destruct IH as [-> IH]. split; [done|].
    by constructor.
  - rewrite (cleanupTree_thrown F (path_join dirPath name) (Dir sub) true).
    destruct (Hchild (path_join dirPath name)) as [Hrem Hlog].
    cbn [snd] in Hrem, Hlog. cbn [remaining logged].
    destruct IH as [-> IH]. rewrite Hrem. split; [done|].
    by apply Forall_app.
Qed.

Lemma cleanupTree_clean F n :
  noFaults F ->
  ∀ dir,
    match n with
    | File => True
    | Dir _ =>
        let t := cleanupTree F dir n true in
        remaining t = None ∧ Forall (fun l => fst l = LvInfo) (logged t)
    end.
Proof.
  intros HF. induction n as [|items IH] using node_tree_ind; [done|].
  intros dir. cbv zeta. rewrite cleanupTree_Dir by apply HF. cbv zeta.
  destruct (cleanupItems_clean F dir items HF) as [Hrem Hlog].
  { eapply Forall_impl; [exact IH|]. simpl. intros e He dir'. apply He. }
  unfold rmdirSync. destruct (HF dir) as (_ & _ & ->). rewrite Hrem.
  cbn [remaining logged]. split; [done|].
  apply Forall_app. split; [done|]. by constructor.
Qed.

(** X12. When no call on the file system throws, cleanup leaves nothing
    behind: asked to remove the directory, it removes it with all that
    is under it; asked to keep it, it leaves it empty; and it logs no
    error either way. *)
Theorem cleanup_removes_everything (F : FsFaults) (dirPath : string)
    (items : list (string * node)) :
  noFaults F ->
  let removed := cleanupDirectory F dirPath (Some (Dir items)) true in
  let emptied := cleanupDirectory F dirPath (Some (Dir items)) false in
  remaining removed = None ∧
  remaining emptied = Some (Dir []) ∧
  Forall (fun l => fst l = LvInfo) (logged removed) ∧
  Forall (fun l => fst l = LvInfo) (logged emptied).
Proof.
  intros HF removed emptied.
  destruct (cleanupTree_clean F (Dir items) HF dirPath) as [Hrem Hlog].
  split; [exact Hrem|]. split; [|split; [exact Hlog|]];
    unfold emptied, cleanupDirectory; rewrite cleanupTree_Dir by apply HF;
    cbv zeta; cbn [remaining logged];
    destruct (cleanupItems_clean F dirPath items HF) as [Hr Hl];
    try (rewrite Hr; done); try done;
    pose proof (cleanupTree_clean F) as Hall;
    apply Forall_forall; intros [name child] _ dir;
    apply (Hall child HF dir).
Qed.

Lemma cleanup_removes_everything_witness :
  let removed :=
    cleanupDirectory (faults exampleWorld) "/app/uploads/hls/job1"
      (Some (Dir exampleTree)) true in
  let emptied :=
    cleanupDirectory (faults exampleWorld) "/app/uploads/hls/job1"
      (Some (Dir exampleTree)) false in
  remaining removed = None ∧
  remaining emptied = Some (Dir []) ∧
  Forall (fun l => fst l = LvInfo) (logged removed) ∧
  Forall (fun l => fst l = LvInfo) (logged emptied).
Proof.
  apply (cleanup_removes_everything (faults exampleWorld)
           "/app/uploads/hls/job1" exampleTree).
  intros path. repeat split.
Defined.

Lemma cleanupItems_gone recur F dirPath items :
  Forall (fun e => ∀ dir,
            remaining (recur dir (snd e)) = None ->
            Forall succeeded (calls (recur dir (snd e)))) items ->
  remaining (cleanupItems recur F dirPath items) = [] ->
  Forall succeeded (calls (cleanupItems recur F dirPath items)).
Proof.
  induction 1 as [|[name child] items Hchild _ IH]; [constructor|].
  cbn [cleanupItems]. destruct child as [|sub].
  - destruct (unlink_fault F (path_join dirPath name)); cbn [remaining calls];
      [discriminate|].
    intros Hrest. constructor; [done|by apply IH].
  - specialize (Hchild (path_join dirPath name)). cbn [snd] in Hchild.
    destruct (thrown (recur (path_join dirPath name) (Dir sub)));
      cbn [remaining calls]; intros [Hkeep Hrest]%app_eq_nil.
    + apply Hchild.
      by destruct (remaining (recur (path_join dirPath name) (Dir sub))).
    + apply Forall_app. split; [|by apply IH].
      apply Hchild.
      by destruct (remaining (recur (path_join dirPath name) (Dir sub))).
Qed.

Lemma cleanupTree_gone F n :
  ∀ dirPath removeDir,
    remaining (cleanupTree F dirPath n removeDir) = None ->
    removeDir = true ∧ Forall succeeded (calls (cleanupTree F dirPath n removeDir)).
Proof.
  induction n as [|items IH] using node_tree_ind; intros dirPath removeDir.
  - simpl. unfold cleanupCatch. by destruct (readdir_fault F dirPath).
  - destruct (readdir_fault F dirPath) as [e|] eqn:Hls.
    + simpl. rewrite Hls. unfold cleanupCatch. cbn [thrown remaining]. done.
    + rewrite cleanupTree_Dir by done. cbv zeta.
      destruct removeDir; [|done].
      unfold rmdirSync.
      destruct (rmdir_fault F dirPath); cbn [remaining]; [done|].
      destruct (remaining (cleanupItems _ F dirPath items)) eqn:Hrem;
        cbn [remaining calls]; [|done].
      intros _. split; [done|]. apply Forall_app. split; [|by constructor].
      apply cleanupItems_gone; [|exact Hrem].
      eapply Forall_impl; [exact IH|]. simpl. intros e He dir Hgone.
      by apply He.
Qed.

(** X13. Cleanup never reports a directory gone while something under it
    could not be deleted: when nothing remains at the path after a call on
    a path that existed, the call was asked to remove the directory, and
    every deletion it attempted, of a file or of a directory, succeeded. *)
Theorem cleanup_gone_means_all_deleted (F : FsFaults) (dirPath : string)
    (n : node) (removeDir : bool) :
  let t := cleanupDirectory F dirPath (Some n) removeDir in
  remaining t = None ->
  removeDir = true ∧ Forall succeeded (calls t).
Proof. intros t. apply cleanupTree_gone. Qed.

Lemma cleanup_gone_means_all_deleted_witness :
  let t :=
    cleanupDirectory (faults exampleWorld) "/app/uploads/hls/job1"
      (Some (Dir exampleTree)) true in
  true = true ∧ Forall succeeded (calls t).
Proof.
  apply (cleanup_gone_means_all_deleted (faults exampleWorld)
           "/app/uploads/hls/job1" (Dir exampleTree) true).
  reflexivity.
Defined.

(** ** More about the Upload Coordinator *)

Lemma prefix_app (a b c : string) :
  String.prefix (a +:+ b) (a +:+ c) = String.prefix b c.
Proof.
  induction a as [|x a IH]; [done|].
  change (String x a +:+ ?s) with (String x (a +:+ s)).
  cbn [String.prefix]. destruct (ascii_dec x x); [exact IH|done].
Qed.

Lemma prefix_refl_app (a c : string) : String.prefix a (a +:+ c) = true.
Proof.
  induction a as [|x a IH]; [by destruct c|].
  change (String x a +:+ ?s) with (String x (a +:+ s)).
  cbn [String.prefix]. destruct (ascii_dec x x); [exact IH|done].
Qed.

Lemma dropChars_app (a s : string) (n : nat) :
  dropChars (String.length a + n) (a +:+ s) = dropChars n s.
Proof. induction a as [|x a IH]; [done|exact IH]. Qed.

Lemma path_relative_join (dir rel : string) :
  path_relative dir (path_join dir rel) = rel.
Proof.
  unfold path_relative, path_join.
  rewrite <- append_assoc, prefix_refl_app.
  rewrite append_assoc, dropChars_app. reflexivity.
Qed.

Lemma path_join_assoc (root rel name : string) :
  path_join (path_join root rel) name = path_join root (path_join rel name).
Proof. unfold path_join. by rewrite !append_assoc. Qed.

Lemma readDirItems_under (Q : string -> Prop) recur dir items :
  (∀ name, Q (path_join dir name)) ->
  Forall (fun e => ∀ files files',
            Forall Q files ->
            recur (path_join dir (fst e)) (snd e) files = inr files' ->
            Forall Q files') items ->
  ∀ files files',
    Forall Q files ->
    readDirItems recur dir items files = inr files' -> Forall Q files'.
Proof.
  intros Hdir. induction 1 as [|[name child] items Hchild _ IH];
    intros files files' Hfiles Hread.
  - by injection Hread as <-.
  - cbn [readDirItems] in Hread. destruct child as [|sub].
    + apply (IH (files ++ [path_join dir name])%list files'); [|exact Hread].
      apply Forall_app. split; [exact Hfiles|]. by apply Forall_singleton.
    + cbn [fst snd] in Hchild.
      destruct (recur (path_join dir name) (Dir sub) files) as [e|files1] eqn:H1;
        [discriminate Hread|].
      apply (IH files1 files'); [|exact Hread].
      by apply (Hchild files files1).
Qed.

Lemma readDir_under (root : string) F n :
  let Q := fun p => ∃ rel, p = path_join root rel in
  ∀ dir files files',
    (∀ name, Q (path_join dir name)) ->
    Forall Q files ->
    readDir F dir n files = inr files' -> Forall Q files'.
Proof.
  intros Q. induction n as [|items IH] using node_tree_ind;
    intros dir files files' Hdir Hfiles Hread.
  - simpl in Hread. by destruct (readdir_fault F dir).
  - change (readDir F dir (Dir items) files)
      with (match readdir_fault F dir with
            | Some e => inl e
            | None => readDirItems (readDir F) dir items files
            end) in Hread.
    destruct (readdir_fault F dir); [discriminate Hread|].
    apply (readDirItems_under Q (readDir F) dir items Hdir) with files;
      [|exact Hfiles|exact Hread].
    eapply Forall_impl; [exact IH|]. simpl.
    intros [name child] Hchild files0 files1 Hfiles0. cbn [fst snd] in *.
    apply Hchild; [|exact Hfiles0].
    intros name'. destruct (Hdir name) as [rel ->].
    exists (path_join rel name'). apply path_join_assoc.
Qed.

(** X14. The keys of the uploaded files mirror the tree under the HLS
    output root. Taking the path of a file relative to the root undoes
    joining it to the root; so every file the coordinator uploads lies at
    [root/rel] for some relative path [rel], and is stored under the key
    [courses/chapters/videos/<objectId>/rel], whichever way the listing
    and the uploads come out. *)
Theorem upload_keys_mirror_tree (F : FsFaults) (s3 : UploadParams -> Settled)
    (tree : node) (hlsOutputDir objectId : string) (st : Register) :
  let run := uploadHlsFilesToS3 F s3 tree hlsOutputDir objectId st in
  (∀ rel, path_relative hlsOutputDir (path_join hlsOutputDir rel) = rel) ∧
  Forall (fun u =>
            ∃ rel, Body u = path_join hlsOutputDir rel ∧
                   Key u = "courses/chapters/videos/" +:+ objectId +:+ "/"
                             +:+ rel)
    (uploadsOf (events run)).
Proof.
  intros run. split; [apply path_relative_join|].
  unfold run, uploadHlsFilesToS3.
  destruct (readDir F hlsOutputDir tree []) as [e|files] eqn:Hread.
  - match goal with
    | |- context [bind ?m ?k st] =>
        destruct (bind_inl m k st e) as (_ & _ & ->); [done|]
    end.
    constructor.
  - skip_step files; [done|].
    match goal with
    | |- context [bind ?m ?k st] =>
        destruct (bind_inr m k st tt) as (_ & _ & ->); [done|]
    end.
    cbn [emitAll events register].
    rewrite uploadsOf_app, uploadsOf_uploadEvents.
    assert (Hrest : ∀ o : option (nat * Exn),
              uploadsOf (events (match o with
                                 | Some (_, err) => @throw unit err
                                 | None => ret tt
                                 end st)) = []).
    { by intros [[t err]|]. }
    rewrite Hrest, app_nil_r.
    pose proof (readDir_under hlsOutputDir F tree hlsOutputDir [] files) as Hall.
    cbv zeta in Hall. apply Forall_forall. intros u Hu.
    apply elem_of_map in Hu as (filePath & -> & HfilePath).
    assert (Hunder : ∃ rel, filePath = path_join hlsOutputDir rel).
    { revert filePath HfilePath. apply Forall_forall, Hall; [|constructor|done].
      intros name. by exists name. }
    destruct Hunder as [rel ->]. exists rel.
    unfold uploadParams. cbn [Body Key]. by rewrite path_relative_join.
Qed.

(** ** A source without pictures *)

Lemma find_video_none (ss : list Stream) :
  Forall (fun s => codec_type s ≠ "video") ss ->
  List.find (fun stream => String.eqb (codec_type stream) "video") ss = None.
Proof.
  induction 1 as [|s ss Hs _ IH]; [done|]. cbn [List.find].
  destruct (String.eqb_spec (codec_type s) "video") as [Heq|_]; [done|exact IH].
Qed.

(** X15. A source in which the probe finds no video stream ends the job
    at once: [getVideoResolution] rejects with "No video stream found in
    the file", the job throws that error with the register at error,
    having gone from converting straight to error, and no manifest is
    written. *)
Theorem job_without_video_stream (w : World) (videoPath objectId : string)
    (st : Register) (metadata : Metadata) :
  mkdir_fault w (hlsOutputDirOf w objectId) = None ->
  ffprobe w videoPath = inr metadata ->
  Forall (fun s => codec_type s ≠ "video") (streams metadata) ->
  let run := convertToHLS w videoPath objectId st in
  getVideoResolution w videoPath
  = inl (Error "No video stream found in the file") ∧
  outcome run = inl (Error "No video stream found in the file") ∧
  getConversionStatus objectId (register run) = Some "error" ∧
  statusWrites (events run) = [(objectId, "converting"); (objectId, "error")] ∧
  fileWrites (events run) = [].
Proof.
  intros Hmk Hprobe Hstreams run.
  assert (Hres : getVideoResolution w videoPath
                 = inl (Error "No video stream found in the file")).
  { unfold getVideoResolution. rewrite Hprobe.
    by rewrite find_video_none. }
  destruct (convertToHLS_observed w videoPath objectId st)
    as (Ho & Hr & Hs & Hf).
  fold run in Ho, Hr, Hs, Hf. unfold jobObservation, fatalError in Ho, Hr, Hs, Hf.
  rewrite Hmk, Hres in Ho, Hr, Hs, Hf. cbn [fst snd] in Ho, Hr, Hs, Hf.
  split; [exact Hres|]. split; [exact Ho|]. split; [|by split].
  unfold getConversionStatus. rewrite Hr. apply lookup_insert_eq.
Qed.

Lemma job_without_video_stream_witness :
  let run := convertToHLS audioOnly "/app/uploads/job1/original.mp4" "job1" ∅ in
  getVideoResolution audioOnly "/app/uploads/job1/original.mp4"
  = inl (Error "No video stream found in the file") ∧
  outcome run = inl (Error "No video stream found in the file") ∧
  getConversionStatus "job1" (register run) = Some "error" ∧
  statusWrites (events run) = [("job1", "converting"); ("job1", "error")] ∧
  fileWrites (events run) = [].
Proof.
  apply (job_without_video_stream audioOnly "/app/uploads/job1/original.mp4"
           "job1" ∅ (mkMetadata [mkStream "audio" 0 0] None)).
  - reflexivity.
  - reflexivity.
  - apply Forall_singleton. discriminate.
Defined.

(** ** A job without previews *)

(** X16. The thumbnail and the sprite sheet are optional to a job. When
    every mandatory stage succeeds, the job returns and ends at completed
    even if the thumbnail cannot be created and the sprite sheet
    generator throws; each of the two failures is logged, with the note
    that the conversion goes on. *)
Theorem job_completes_without_previews (w : World)
    (videoPath objectId : string) (st : Register) (e1 e2 : Exn) :
  fatalError w videoPath objectId = None ->
  createThumbnail w videoPath objectId = inl e1 ->
  outcome (generateSpriteSheet w videoPath objectId
             (<[objectId := "converting"]> st)) = inl e2 ->
  let run := convertToHLS w videoPath objectId st in
  outcome run = inr tt ∧
  getConversionStatus objectId (register run) = Some "completed" ∧
  LogError ("Thumbnail creation/upload failed, continuing with conversion: "
              +:+ message e1) ∈ events run ∧
  LogError ("Sprite sheet generation failed, continuing with conversion: "
              +:+ message e2) ∈ events run.
Proof.
  intros Hfatal Hthumb Hsprite run.
  destruct (convertToHLS_observed w videoPath objectId st) as (Ho & Hr & _ & _).
  fold run in Ho, Hr. unfold jobObservation in Ho, Hr.
  rewrite Hfatal in Ho, Hr. cbn [fst snd] in Ho, Hr.
  split; [exact Ho|]. split.
  { unfold getConversionStatus. rewrite Hr. apply lookup_insert_eq. }
  pose proof (fatalError_setup w videoPath objectId Hfatal) as Hmk.
  assert (Hquiet : quiet
            (try_catch (thumbnailStep w videoPath objectId)
               (fun err =>
                  logError
                    ("Thumbnail creation/upload failed, continuing with conversion: "
                       +:+ message err)))).
  { apply quiet_try_catch; [apply quiet_thumbnailStep|].
    intros err. apply quiet_logError. }
  unfold run, convertToHLS. fold (hlsOutputDirOf w objectId).
  split.
  - apply (events_bind_r _ _ _ tt); [reflexivity|].
    cbn [setStatus register].
    apply events_try_finally_l, events_try_catch_l.
    apply (events_bind_r _ _ _ tt); [by rewrite Hmk|].
    destruct (run_perform (mkdir_fault w (hlsOutputDirOf w objectId))
                (<[objectId := "converting"]> st)) as [-> _].
    apply events_bind_l.
    unfold try_catch, thumbnailStep. rewrite Hthumb.
    unfold bind, call, throw, logError, emit. cbn [outcome register events].
    by left.
  - apply (events_bind_r _ _ _ tt); [reflexivity|].
    cbn [setStatus register].
    apply events_try_finally_l, events_try_catch_l.
    apply (events_bind_r _ _ _ tt); [by rewrite Hmk|].
    destruct (run_perform (mkdir_fault w (hlsOutputDirOf w objectId))
                (<[objectId := "converting"]> st)) as [-> _].
    apply (events_bind_r _ _ _ tt); [apply bestEffort_returns|].
    destruct (Hquiet (<[objectId := "converting"]> st)) as (-> & _ & _).
    apply events_bind_l.
    match goal with
    | |- _ ∈ events (try_catch ?m ?h ?s) =>
        destruct (try_catch_inl m h s e2) as (_ & _ & ->)
    end.
    + match goal with
      | |- outcome (bind ?m ?k ?s) = _ =>
          by destruct (bind_inl m k s e2 Hsprite) as (-> & _ & _)
      end.
    + apply elem_of_app. right. by left.
Qed.

Lemma job_completes_without_previews_witness :
  let run := convertToHLS noPreviews "/app/uploads/job1/original.mp4" "job1" ∅ in
  outcome run = inr tt ∧
  getConversionStatus "job1" (register run) = Some "completed" ∧
  LogError ("Thumbnail creation/upload failed, continuing with conversion: "
              +:+ message (Error "Output file is empty")) ∈ events run ∧
  LogError ("Sprite sheet generation failed, continuing with conversion: "
              +:+ message (Error "Invalid video duration: 0s")) ∈ events run.
Proof.
  apply (job_completes_without_previews noPreviews
           "/app/uploads/job1/original.mp4" "job1" ∅
           (Error "Output file is empty") (Error "Invalid video duration: 0s")).
  - vm_compute. reflexivity.
  - reflexivity.
  - vm_compute. reflexivity.
Defined.

(** ** The last sweep of the job's cleanup *)







Lemma leftoverFiles_Dir objectId items :
  leftoverFiles objectId (Dir items)
  = list_sum
      (map (fun e =>
              match snd e with
              | File => if includes objectId (fst e) then 1%nat else 0%nat
              | Dir _ =>
                  if negb (includes objectId (fst e))
                     && negb (String.eqb (fst e) "hls")
                  then 0%nat
                  else leftoverFiles objectId (snd e)
              end) items).
Proof. reflexivity. Qed.

Lemma leftoverFiles_app objectId items1 items2 :
  leftoverFiles objectId (Dir (items1 ++ items2))
  = (leftoverFiles objectId (Dir items1)
     + leftoverFiles objectId (Dir items2))%nat.
Proof. rewrite !leftoverFiles_Dir, map_app. apply list_sum_app. Qed.

Lemma unlinksOf_cons_Unlink path threw cs :
  unlinksOf (Unlink path threw :: cs) = path :: unlinksOf cs.
Proof. reflexivity. Qed.

Lemma checkItems_complete F objectId dir items :
  noFaults F ->
  Forall (fun e => ∀ d,
            match snd e with
            | File => True
            | Dir _ =>
                let t := checkTree F objectId d (snd e) in
                thrown t = None ∧
                length (unlinksOf (calls t)) = leftoverFiles objectId (snd e) ∧
                ∃ items', remaining t = Some (Dir items') ∧
                          leftoverFiles objectId (Dir items') = 0%nat
            end) items ->
  let r := checkItems (checkTree F objectId) F objectId dir items in
  thrown r = None ∧
  length (unlinksOf (calls r)) = leftoverFiles objectId (Dir items) ∧
  leftoverFiles objectId (Dir (remaining r)) = 0%nat.
Proof.
  intros HF. induction 1 as [|[name child] items Hchild _ IH]; [done|].
  cbv zeta in *. destruct IH as (IHthrown & IHcalls & IHrem).
  change ((name, child) :: items) with ([(name, child)] ++ items)%list.
  rewrite leftoverFiles_app, (leftoverFiles_Dir _ [_]).
  cbn [app checkItems map fst snd]. unfold list_sum at 1.
  cbn [fold_right]. destruct child as [|sub].
  - destruct (includes objectId name) eqn:Hname.
    + destruct (HF (path_join dir name)) as (_ & -> & _).
      cbn [thrown calls remaining]. rewrite unlinksOf_cons_Unlink.
      cbn [length]. split; [done|]. split; [lia|done].
    + cbn [thrown calls remaining]. split; [done|]. split; [lia|].
      change ((name, File) :: ?l) with ([(name, File)] ++ l)%list.
      rewrite leftoverFiles_app, (leftoverFiles_Dir _ [_]).
      cbn [map fst snd]. unfold list_sum at 1. cbn [fold_right].
      rewrite Hname. lia.
  - destruct (negb (includes objectId name) && negb (String.eqb name "hls"))
      eqn:Hskip.
    + cbn [thrown calls remaining]. split; [done|]. split; [lia|].
      change ((name, Dir sub) :: ?l) with ([(name, Dir sub)] ++ l)%list.
      rewrite leftoverFiles_app, (leftoverFiles_Dir _ [_]).
      cbn [map fst snd]. unfold list_sum at 1. cbn [fold_right].
      rewrite Hskip. lia.
    + destruct (Hchild (path_join dir name))
        as (Hthrown & Hcalls & items' & Hrem & Hleft).
      cbn [snd] in Hthrown, Hcalls, Hrem, Hleft.
      rewrite Hthrown. cbn [thrown calls remaining].
      split; [done|]. rewrite unlinksOf_app, length_app, Hrem.
      split; [lia|]. cbn [keep].
      rewrite leftoverFiles_app, (leftoverFiles_Dir _ [_]).
      cbn [map fst snd]. unfold list_sum at 1. cbn [fold_right].
      rewrite Hskip, Hleft. lia.
Qed.

Lemma checkTree_complete F objectId n :
  noFaults F ->
  ∀ dir,
    match n with
    | File => True
    | Dir _ =>
        let t := checkTree F objectId dir n in
        thrown t = None ∧
        length (unlinksOf (calls t)) = leftoverFiles objectId n ∧
        ∃ items', remaining t = Some (Dir items') ∧
                  leftoverFiles objectId (Dir items') = 0%nat
    end.
Proof.
  intros HF. induction n as [|items IH] using node_tree_ind; [done|].
  intros dir. cbv zeta.
  change (checkTree F objectId dir (Dir items))
    with (match readdir_fault F dir with
          | Some e => mkTraversal (Some (Dir items)) [] [] (Some e)
          | None =>
              let r := checkItems (checkTree F objectId) F objectId dir items in
              mkTraversal (Some (Dir (remaining r))) (logged r) (calls r)
                (thrown r)
          end).
  destruct (HF dir) as (-> & _ & _). cbv zeta. cbn [thrown calls remaining].
  destruct (checkItems_complete F objectId dir items HF)
    as (Hthrown & Hcalls & Hrem).
  { eapply Forall_impl; [exact IH|]. simpl. intros e He d. apply He. }
  split; [exact Hthrown|]. split; [exact Hcalls|]. by eexists.
Qed.

(** X18. When no call on the file system throws, the last sweep is
    complete: it ends without an exception, it deletes each file whose
    name includes the object id in the directory it is called on and in
    the directories below it that are named [hls] or after the object id,
    one deletion per such file, and afterwards none of them is left. *)
Theorem sweep_leaves_no_leftover (F : FsFaults) (objectId dir : string)
    (items : list (string * node)) :
  noFaults F ->
  let t := checkForRemainingFiles F objectId dir (Some (Dir items)) in
  thrown t = None ∧
  length (unlinksOf (calls t)) = leftoverFiles objectId (Dir items) ∧
  ∃ items', remaining t = Some (Dir items') ∧
            leftoverFiles objectId (Dir items') = 0%nat.
Proof. intros HF. apply (checkTree_complete F objectId (Dir items) HF dir). Qed.

Lemma sweep_leaves_no_leftover_witness :
  let t :=
    checkForRemainingFiles (faults exampleWorld) "job1" "/app/uploads"
      (Some (Dir exampleUploads)) in
  thrown t = None ∧
  length (unlinksOf (calls t)) = leftoverFiles "job1" (Dir exampleUploads) ∧
  ∃ items', remaining t = Some (Dir items') ∧
            leftoverFiles "job1" (Dir items') = 0%nat.
Proof.
  apply (sweep_leaves_no_leftover (faults exampleWorld) "job1" "/app/uploads"
           exampleUploads).
  intros path. repeat split.
Defined.

(** On that directory the sweep deletes the job's download and its
    manifest, and leaves the other job's file, the segment whose name does
    not include the id, and the directory it does not enter. *)
Example sweep_example :
  let t :=
    checkForRemainingFiles (faults exampleWorld) "job1" "/app/uploads"
      (Some (Dir exampleUploads)) in
  unlinksOf (calls t)
  = ["/app/uploads/job1_original.mp4";
     "/app/uploads/hls/job1/job1_master.m3u8"] ∧
  remaining t
  = Some (Dir [("job2_original.mp4", File);
               ("hls", Dir [("job1", Dir [("index0.ts", File)])]);
               ("archive", Dir [("job1_notes.txt", File)])]).
Proof. vm_compute. split; reflexivity. Qed.

(** ** The thumbnail *)

(** X19. A thumbnail that is returned exists and was taken once, at the
    right place. When [createThumbnail] returns a path, the source file
    and the file at that path exist, the path is the file name in the
    output directory (by default [<objectId>_thumbnail.jpg] in the job's
    upload directory), and the run consists of one extraction into that
    path and no logged error. The frame is taken at the timestamp of the
    options when that is a non-empty string, and otherwise at 00:00:10
    for a source longer than ten seconds and at 00:00:01 for any other,
    one of exactly ten seconds included. *)
Theorem thumbnail_returned (w : World) (sv : Services)
    (videoPath objectId : string) (options : ThumbnailOptions)
    (st : Register) (thumbnailPath : string) :
  let run := Thumbnail.createThumbnail w sv videoPath objectId options st in
  outcome run = inr thumbnailPath ->
  existsSync w videoPath = true ∧
  existsSync w thumbnailPath = true ∧
  thumbnailPath
  = path_join (default (path_join (UPLOADS_DIR w) objectId) (o_outputDir options))
      (default (objectId +:+ "_thumbnail.jpg") (o_filename options)) ∧
  ∃ duration timestamp,
    Thumbnail.getDuration w videoPath = inr duration ∧
    events run = [ExtractFrame timestamp thumbnailPath] ∧
    (∀ t, o_timestamp options = Some t -> t ≠ "" -> timestamp = t) ∧
    (o_timestamp options = None ∨ o_timestamp options = Some "" ->
     ((10 < duration)%Q -> timestamp = "00:00:10") ∧
     ((duration <= 10)%Q -> timestamp = "00:00:01")).
Proof.
  intros run. unfold run, Thumbnail.createThumbnail.
  set (outputDir := default _ (o_outputDir options)).
  set (filename := default _ (o_filename options)).
  unfold bind, perform, throw, ret, logError, emit.
  destruct (mkdir_fault w outputDir); cbn [outcome register events];
    [discriminate|].
  destruct (existsSync w videoPath); cbn [negb outcome register events];
    [|discriminate].
  destruct (Thumbnail.getDuration w videoPath) as [err|duration];
    cbn [outcome register events]; [discriminate|].
  destruct (snapshot sv videoPath _ _ _); cbn [outcome register events];
    [discriminate|].
  destruct (existsSync w (path_join outputDir filename)) eqn:Hthere;
    cbn [outcome register events]; [|discriminate].
  intros [= <-]. split; [done|]. split; [done|]. split; [done|].
  exists duration, (Thumbnail.timestampFor options duration).
  split; [done|]. split; [done|]. unfold Thumbnail.timestampFor. split.
  - intros t -> Ht. by destruct t.
  - intros [-> | ->].
    + split; intros Hd.
      * apply ltb_lt in Hd. by rewrite Hd.
      * apply ltb_ge in Hd. by rewrite Hd.
    + split; intros Hd.
      * apply ltb_lt in Hd. by rewrite Hd.
      * apply ltb_ge in Hd. by rewrite Hd.
Qed.

Lemma thumbnail_returned_witness :
  let run :=
    Thumbnail.createThumbnail exampleWorld exampleServices
      "/app/uploads/job1/original.mp4" "job1" noThumbnailOptions ∅ in
  existsSync exampleWorld "/app/uploads/job1/original.mp4" = true ∧
  existsSync exampleWorld "/app/uploads/job1/job1_thumbnail.jpg" = true ∧
  "/app/uploads/job1/job1_thumbnail.jpg"
  = path_join
      (default (path_join (UPLOADS_DIR exampleWorld) "job1")
         (o_outputDir noThumbnailOptions))
      (default ("job1" +:+ "_thumbnail.jpg") (o_filename noThumbnailOptions)) ∧
  ∃ duration timestamp,
    Thumbnail.getDuration exampleWorld "/app/uploads/job1/original.mp4" = inr duration ∧
    events run
    = [ExtractFrame timestamp "/app/uploads/job1/job1_thumbnail.jpg"] ∧
    (∀ t, o_timestamp noThumbnailOptions = Some t -> t ≠ "" -> timestamp = t) ∧
    (o_timestamp noThumbnailOptions = None
     ∨ o_timestamp noThumbnailOptions = Some "" ->
     ((10 < duration)%Q -> timestamp = "00:00:10") ∧
     ((duration <= 10)%Q -> timestamp = "00:00:01")).
Proof.
  apply (thumbnail_returned exampleWorld exampleServices
           "/app/uploads/job1/original.mp4" "job1" noThumbnailOptions ∅
           "/app/uploads/job1/job1_thumbnail.jpg").
  reflexivity.
Defined.

(** X20. No failure of [createThumbnail] goes unlogged once the output
    directory is there. When it throws, the last thing the run did was to
    log the error it throws, under one of three headings; and when the
    source file is missing it throws "Video file not found" having
    neither probed the file nor started ffmpeg. *)
Theorem thumbnail_failures_logged (w : World) (sv : Services)
    (videoPath objectId : string) (options : ThumbnailOptions)
    (st : Register) (e : Exn) :
  let run := Thumbnail.createThumbnail w sv videoPath objectId options st in
  mkdir_fault w
    (default (path_join (UPLOADS_DIR w) objectId) (o_outputDir options)) = None ->
  outcome run = inl e ->
  (∃ heading,
     heading ∈ [""; "Failed to create thumbnail: "; "Thumbnail creation failed: "] ∧
     last (events run) = Some (LogError (heading +:+ message e))) ∧
  (existsSync w videoPath = false ->
   e = Error ("Video file not found: " +:+ videoPath) ∧
   events run = [LogError ("Video file not found: " +:+ videoPath)]).
Proof.
  intros run Hmk. unfold run, Thumbnail.createThumbnail.
  rewrite Hmk.
  set (outputDir := default _ (o_outputDir options)).
  set (filename := default _ (o_filename options)).
  unfold bind, perform, throw, ret, logError, emit.
  cbn [outcome register events].
  destruct (existsSync w videoPath); cbn [negb outcome register events].
  - destruct (Thumbnail.getDuration w videoPath) as [err|duration];
      cbn [outcome register events].
    { intros [= <-]. split; [|done].
      exists "Failed to create thumbnail: ". split; [set_solver|done]. }
    destruct (snapshot sv videoPath _ _ _); cbn [outcome register events].
    { intros [= <-]. split; [|done].
      exists "Thumbnail creation failed: ". split; [set_solver|done]. }
    destruct (existsSync w (path_join outputDir filename));
      cbn [outcome register events]; [discriminate|].
    intros [= <-]. split; [|done]. exists "". split; [set_solver|done].
  - intros [= <-]. split; [|done]. exists "". split; [set_solver|done].
Qed.

Lemma thumbnail_failures_logged_witness :
  let run :=
    Thumbnail.createThumbnail exampleWorld noSnapshot
      "/app/uploads/job1/original.mp4" "job1" noThumbnailOptions ∅ in
  (∃ heading,
     heading ∈ [""; "Failed to create thumbnail: "; "Thumbnail creation failed: "] ∧
     last (events run)
     = Some (LogError (heading +:+ message (Error "Output file is empty")))) ∧
  (existsSync exampleWorld "/app/uploads/job1/original.mp4" = false ->
   Error "Output file is empty"
   = Error ("Video file not found: " +:+ "/app/uploads/job1/original.mp4") ∧
   events run
   = [LogError ("Video file not found: " +:+ "/app/uploads/job1/original.mp4")]).
Proof.
  apply (thumbnail_failures_logged exampleWorld noSnapshot
           "/app/uploads/job1/original.mp4" "job1" noThumbnailOptions ∅
           (Error "Output file is empty")).
  - reflexivity.
  - reflexivity.
Defined.

(** ** The S3 service and the file service *)

(** X21. [uploadImageToS3] uploads at most once, and not at all without
    a bucket: when the bucket for converted files is not configured or is
    the empty string it throws "AWS_BUCKET_NAME is not defined" and does
    nothing else; otherwise it makes exactly one upload, of the image,
    under [<folder>/<filename>], which by default is
    [courses/images/<objectId>_thumbnail.jpg] as [image/jpeg], and it
    returns what the storage answers or throws what the storage throws. *)
Theorem image_upload_needs_bucket (sv : Services) (imagePath objectId : string)
    (options : ImageOptions) (st : Register) :
  let run := uploadImageToS3 sv imagePath objectId options st in
  let params :=
    mkUploadParams
      (default "courses/images" (o_folder options) +:+ "/"
         +:+ default (objectId +:+ "_thumbnail.jpg") (o_imageName options))
      (default "image/jpeg" (o_contentType options)) imagePath in
  match AWS_BUCKET_NAME_CONVERTED sv with
  | Some bucketName =>
      if String.eqb bucketName "" then
        outcome run = inl (Error "AWS_BUCKET_NAME is not defined") ∧
        events run = []
      else
        uploadsOf (events run) = [params] ∧
        outcome run = uploadImage sv bucketName params
  | None =>
      outcome run = inl (Error "AWS_BUCKET_NAME is not defined") ∧
      events run = []
  end ∧
  uploadImageToS3 sv imagePath objectId noImageOptions st
  = uploadImageToS3 sv imagePath objectId
      (mkImageOptions (Some "courses/images")
         (Some (objectId +:+ "_thumbnail.jpg")) (Some "image/jpeg")) st.
Proof.
  intros run params. split; [|reflexivity].
  unfold run, uploadImageToS3.
  destruct (AWS_BUCKET_NAME_CONVERTED sv) as [[|c rest]|]; [done| |done].
  cbn [String.eqb]. fold params.
  unfold bind, try_catch, call, throw, ret, logError, emit.
  cbn [outcome register events Key ContentType Body].
  by destruct (uploadImage sv (String c rest) params) as [err|location].
Qed.



(** ** The request handler *)

Lemma sanitizeObjectId_chars s :
  Forall (fun c => isIdChar c = true)
    (list_ascii_of_string (sanitizeObjectId s)).
Proof.
  induction s as [|c s IH]; [constructor|]. cbn [sanitizeObjectId].
  destruct (isIdChar c) eqn:Hc; [|exact IH]. by constructor.
Qed.

Lemma sanitizeObjectId_clean s :
  Forall (fun c => isIdChar c = true) (list_ascii_of_string s) ->
  sanitizeObjectId s = s.
Proof.
  induction s as [|c s IH]; [done|]. cbn [list_ascii_of_string sanitizeObjectId].
  intros [Hc Hs]%Forall_cons. rewrite Hc. f_equal. by apply IH.
Qed.

Lemma includes_char (c : ascii) (s : string) :
  Forall (fun x => x ≠ c) (list_ascii_of_string s) ->
  includes (String c "") s = false.
Proof.
  induction s as [|x s IH]; [done|]. cbn [list_ascii_of_string].
  intros [Hx Hs]%Forall_cons. cbn [includes String.prefix].
  destruct (ascii_dec c x) as [->|_]; [done|]. by apply IH.
Qed.

(** X24. The object id the handler works with is safe to put in a path.
    After sanitizing, every character is a letter, a digit, a hyphen or
    an underscore, so the id has no slash and no dot; sanitizing twice
    changes nothing more, and an id made of such characters to begin with
    is left as it is. *)
Theorem object_id_is_sanitized (s : string) :
  let objectId := sanitizeObjectId s in
  Forall (fun c => isIdChar c = true) (list_ascii_of_string objectId) ∧
  sanitizeObjectId objectId = objectId ∧
  includes "/" objectId = false ∧
  includes "." objectId = false ∧
  (Forall (fun c => isIdChar c = true) (list_ascii_of_string s) ->
   objectId = s).
Proof.
  intros objectId. pose proof (sanitizeObjectId_chars s) as Hchars.
  fold objectId in Hchars.
  split; [exact Hchars|]. split; [by apply sanitizeObjectId_clean|].
  split; [|split; [|apply sanitizeObjectId_clean]].
  - apply includes_char. eapply Forall_impl; [exact Hchars|].
    simpl. intros x Hx ->. discriminate Hx.
  - apply includes_char. eapply Forall_impl; [exact Hchars|].
    simpl. intros x Hx ->. discriminate Hx.
Qed.

Lemma quiet_emit_ExtractFrame timestamp output :
  quiet (emit (ExtractFrame timestamp output)).
Proof. by intros st. Qed.

Lemma quiet_createThumbnail w sv videoPath objectId options :
  quiet (Thumbnail.createThumbnail w sv videoPath objectId options).
Proof.
  unfold Thumbnail.createThumbnail.
  apply quiet_bind; [apply quiet_perform|intros _].
  destruct (existsSync w videoPath); cbn [negb]; [|quiet_tac].
  destruct (Thumbnail.getDuration w videoPath); [quiet_tac|].
  apply quiet_bind; [apply quiet_emit_ExtractFrame|intros _].
  destruct (snapshot sv _ _ _ _); [quiet_tac|].
  destruct (existsSync w _); quiet_tac.
Qed.

Lemma quiet_uploadImageToS3 sv imagePath objectId options :
  quiet (uploadImageToS3 sv imagePath objectId options).
Proof.
  unfold uploadImageToS3.
  destruct (AWS_BUCKET_NAME_CONVERTED sv) as [[|c rest]|]; quiet_tac.
Qed.

Lemma quiet_downloadFileUsingSignedUrl w sv signedUrl localFilePath :
  quiet (downloadFileUsingSignedUrl w sv signedUrl localFilePath).
Proof.
  unfold downloadFileUsingSignedUrl.
  apply quiet_try_catch.
  - apply quiet_bind; [apply quiet_call|intros status].
    apply quiet_bind; [destruct (negb _); quiet_tac|intros _].
    apply quiet_bind; [apply quiet_perform|intros _].
    apply quiet_bind; [apply quiet_perform|intros _].
    apply quiet_bind; [apply quiet_call|intros size].
    destruct (size =? 0); quiet_tac.
  - intros error.
    apply quiet_bind; [apply quiet_logError|intros _].
    apply quiet_bind; [destruct (existsSync w _); quiet_tac|intros _].
    apply quiet_throw.
Qed.

(** How a job leaves the register: at completed when it returns, at
    error when it throws. *)
Lemma convertToHLS_ends w videoPath objectId st :
  let run := convertToHLS w videoPath objectId st in
  (outcome run = inr tt ∧
   getConversionStatus objectId (register run) = Some "completed") ∨
  (∃ e, outcome run = inl e ∧
        getConversionStatus objectId (register run) = Some "error").
Proof.
  intros run.
  destruct (convertToHLS_observed w videoPath objectId st) as (Ho & Hr & _ & _).
  fold run in Ho, Hr. rewrite Ho. unfold getConversionStatus. rewrite Hr.
  unfold jobObservation.
  destruct (fatalError w videoPath objectId) as [[[] e]|]; cbn [fst snd];
    (left + (right; exists e)); (split; [done|apply lookup_insert_eq]).
Qed.

(** One step of a run whose first computation leaves the register
    alone: either it throws, and so does the whole, or it returns and the
    rest runs from the same register. *)
Ltac quiet_step Hquiet e a Ho :=
  match goal with
  | |- context [bind ?m ?k ?s] =>
      destruct (outcome (m s)) as [e|a] eqn:Ho;
      [ destruct (bind_inl m k s e Ho) as (-> & -> & _)
      | destruct (bind_inr m k s a Ho) as (-> & -> & _) ];
      rewrite ?(proj1 (Hquiet s)); cbv beta
  end.

Lemma folder_step w objectId st :
  let uploadsDir := path_join (cwd w) "uploads" in
  let folderPath := path_join uploadsDir objectId in
  let attempt :=
    try_catch
      (bind (perform (mkdir_fault w uploadsDir))
         (fun _ => bind (perform (mkdir_fault w folderPath))
                     (fun _ => ret None)))
      (fun folderError =>
         bind (logError ("Error creating folder directly: "
                           +:+ errorToString folderError))
           (fun _ =>
              ret (Some
                     (mkResponse 500
                        [("error", "Failed to create folder for object");
                         ("details", message folderError);
                         ("cwd", cwd w)])))) in
  register (attempt st) = st ∧
  ∃ failed : option Response,
    outcome (attempt st) = inr failed ∧
    ∀ response, failed = Some response -> statusCode response = 500.
Proof.
  cbv zeta. unfold bind, try_catch, perform, throw, ret, logError, emit.
  destruct (mkdir_fault w (path_join (cwd w) "uploads"));
    cbn [outcome register events].
  - split; [done|]. eexists. split; [done|]. by intros ? [= <-].
  - destruct (mkdir_fault w _); cbn [outcome register events].
    + split; [done|]. eexists. split; [done|]. by intros ? [= <-].
    + split; [done|]. eexists. split; [done|]. by intros ? [=].
Qed.

(** How the handler ends for an object id that is not empty. *)
Lemma convertToHls_ends w job sv q c rest st :
  sanitizeObjectId q = String c rest ->
  let objectId := String c rest in
  let filePath :=
    path_join (path_join (path_join (cwd w) "uploads") objectId) "original.mp4" in
  let run := convertToHls w job sv (Some q) st in
  ∃ response,
    outcome run = inr response ∧
    ((statusCode response = 500 ∧
      (register run = st ∨
       getConversionStatus objectId (register run) = Some "error")) ∨
     (getConversionStatus objectId (register run) = Some "completed" ∧
      (∃ signedUrl,
         getSignedUrl sv (AWS_BUCKET_NAME sv)
           ("courses/chapters/videos/" +:+ objectId) = inr signedUrl ∧
         response = mkResponse 200 [("url", signedUrl); ("filePath", filePath)]) ∧
      (∃ thumbnailPath,
         outcome (Thumbnail.createThumbnail w sv filePath objectId
                    noThumbnailOptions st) = inr thumbnailPath) ∧
      (∃ key, outcome (generateSpriteSheet w filePath objectId st) = inr key) ∧
      outcome (convertToHLS job filePath objectId st) = inr tt)).
Proof.
  intros Hq objectId filePath run. unfold run, convertToHls.
  cbn [fmap option_fmap option_map]. rewrite Hq. fold objectId.
  match goal with
  | |- context [try_catch ?m ?h st] => set (body := m); set (handler := h)
  end.
  cut ((∃ e, outcome (body st) = inl e ∧
             (register (body st) = st ∨
              getConversionStatus objectId (register (body st)) = Some "error")) ∨
       (∃ response, outcome (body st) = inr response ∧
          ((statusCode response = 500 ∧ register (body st) = st) ∨
           (getConversionStatus objectId (register (body st)) = Some "completed" ∧
            (∃ signedUrl,
               getSignedUrl sv (AWS_BUCKET_NAME sv)
                 ("courses/chapters/videos/" +:+ objectId) = inr signedUrl ∧
               response
               = mkResponse 200 [("url", signedUrl); ("filePath", filePath)]) ∧
            (∃ thumbnailPath,
               outcome (Thumbnail.createThumbnail w sv filePath objectId
                          noThumbnailOptions st) = inr thumbnailPath) ∧
            (∃ key,
               outcome (generateSpriteSheet w filePath objectId st) = inr key) ∧
            outcome (convertToHLS job filePath objectId st) = inr tt)))).
  { intros [(e & Ho & Hr)|(response & Ho & Hr)].
    - destruct (try_catch_inl body handler st e Ho) as (-> & -> & _).
      unfold handler. eexists. split; [reflexivity|]. left.
      split; [reflexivity|]. exact Hr.
    - rewrite (try_catch_inr body handler st response Ho).
      exists response. split; [exact Ho|].
      destruct Hr as [[H500 Hr]|Hr]; [left|right; exact Hr].
      split; [exact H500|by left]. }
  unfold body. clear body handler run.
  quiet_step (quiet_call (getSignedUrl sv (AWS_BUCKET_NAME sv)
                            ("courses/chapters/videos/" +:+ objectId)))
    e signedUrl Hurl.
  { left. exists e. split; [done|]. by left. }
  assert (Hsigned : getSignedUrl sv (AWS_BUCKET_NAME sv)
                      ("courses/chapters/videos/" +:+ objectId)
                    = inr signedUrl).
  { by destruct (getSignedUrl sv _ _) as [?|?]; simplify_eq/=. }
  destruct (folder_step w objectId st) as (Hfreg & failed & Hfolder & H500).
  cbv zeta in Hfreg, Hfolder.
  match goal with
  | |- context [bind ?m ?k st] =>
      destruct (bind_inr m k st failed Hfolder) as (-> & -> & _)
  end.
  rewrite Hfreg. destruct failed as [response|].
  { right. exists response. split; [done|]. left. split; [by apply H500|done]. }
  fold filePath.
  quiet_step (quiet_downloadFileUsingSignedUrl w sv signedUrl filePath)
    e download Hdownload.
  { left. exists e. split; [done|]. by left. }
  quiet_step (quiet_createThumbnail w sv filePath objectId noThumbnailOptions)
    e thumbnailPath Hthumbnail.
  { left. exists e. split; [done|]. by left. }
  quiet_step (quiet_uploadImageToS3 sv thumbnailPath objectId noImageOptions)
    e thumbnailUrl Himage.
  { left. exists e. split; [done|]. by left. }
  quiet_step (quiet_generateSpriteSheet w filePath objectId) e key Hsprite.
  { left. exists e. split; [done|]. by left. }
  destruct (convertToHLS_ends job filePath objectId st)
    as [[Hjob Hdone]|(e & Hjob & Herror)]; cbv zeta in *.
  - match goal with
    | |- context [bind ?m ?k st] =>
        destruct (bind_inr m k st tt Hjob) as (-> & -> & _)
    end.
    right. eexists. split; [reflexivity|]. right.
    cbn [ret register]. split; [exact Hdone|].
    split; [by exists signedUrl|]. split; [by exists thumbnailPath|].
    split; [by exists key|done].
  - match goal with
    | |- context [bind ?m ?k st] =>
        destruct (bind_inl m k st e Hjob) as (-> & -> & _)
    end.
    left. exists e. split; [done|]. by right.
Qed.


(** X26. A 200 from the handler means the whole pipeline ran. When the
    response has status 200, the request carried an object id, the body
    holds the signed URL and the path [<cwd>/uploads/<id>/original.mp4]
    of the download for the sanitized id, the handler's own thumbnail and
    sprite sheet were both produced (which the job itself treats as
    optional), the job returned, and the Status Register has the job at
    completed. *)
Theorem handler_ok_means_completed (w job : World) (sv : Services)
    (query : option string) (st : Register) (response : Response) :
  let run := convertToHls w job sv query st in
  outcome run = inr response ->
  statusCode response = 200 ->
  ∃ q signedUrl,
    query = Some q ∧
    let objectId := sanitizeObjectId q in
    let filePath :=
      path_join (path_join (path_join (cwd w) "uploads") objectId)
        "original.mp4" in
    getSignedUrl sv (AWS_BUCKET_NAME sv)
      ("courses/chapters/videos/" +:+ objectId) = inr signedUrl ∧
    json response = [("url", signedUrl); ("filePath", filePath)] ∧
    getConversionStatus objectId (register run) = Some "completed" ∧
    (∃ thumbnailPath,
       outcome (Thumbnail.createThumbnail w sv filePath objectId
                  noThumbnailOptions st) = inr thumbnailPath) ∧
    (∃ key, outcome (generateSpriteSheet w filePath objectId st) = inr key) ∧
    outcome (convertToHLS job filePath objectId st) = inr tt.
Proof.
  intros run Ho H200.
  destruct query as [q|]; [|by injection Ho as <-].
  destruct (sanitizeObjectId q) as [|c rest] eqn:Hq.
  { unfold run, convertToHls in Ho. cbn [fmap option_fmap option_map] in Ho.
    rewrite Hq in Ho. by injection Ho as <-. }
  destruct (convertToHls_ends w job sv q c rest st Hq)
    as (response' & Ho' & Hcases).
  cbv zeta in *. fold run in Ho', Hcases. rewrite Ho in Ho'.
  injection Ho' as <-.
  destruct Hcases as [[H500 _]|(Hdone & (url & Hurl & ->) & Hthumb & Hsprite & Hjob)];
    [lia|].
  exists q, url. split; [done|]. rewrite Hq. done.
Qed.

Lemma handler_ok_means_completed_witness :
  let run :=
    convertToHls exampleWorld exampleWorld exampleServices (Some "../job1") ∅ in
  ∃ q signedUrl,
    Some "../job1" = Some q ∧
    let objectId := sanitizeObjectId q in
    let filePath :=
      path_join (path_join (path_join (cwd exampleWorld) "uploads") objectId)
        "original.mp4" in
    getSignedUrl exampleServices (AWS_BUCKET_NAME exampleServices)
      ("courses/chapters/videos/" +:+ objectId) = inr signedUrl ∧
    json (mkResponse 200
            [("url", "https://s3.example/courses/chapters/videos/job1");
             ("filePath", "/app/uploads/job1/original.mp4")])
    = [("url", signedUrl); ("filePath", filePath)] ∧
    getConversionStatus objectId (register run) = Some "completed" ∧
    (∃ thumbnailPath,
       outcome (Thumbnail.createThumbnail exampleWorld exampleServices filePath
                  objectId noThumbnailOptions ∅) = inr thumbnailPath) ∧
    (∃ key,
       outcome (generateSpriteSheet exampleWorld filePath objectId ∅) = inr key) ∧
    outcome (convertToHLS exampleWorld filePath objectId ∅) = inr tt.
Proof.
  apply (handler_ok_means_completed exampleWorld exampleWorld exampleServices
           (Some "../job1") ∅
           (mkResponse 200
              [("url", "https://s3.example/courses/chapters/videos/job1");
               ("filePath", "/app/uploads/job1/original.mp4")])).
  - vm_compute. reflexivity.
  - reflexivity.
Defined.

(** ** Where the download lands *)

Lemma list_ascii_of_string_app (a b : string) :
  list_ascii_of_string (a +:+ b)
  = (list_ascii_of_string a ++ list_ascii_of_string b)%list.
Proof.
  induction a as [|x a IH]; [done|].
  change (String x a +:+ b) with (String x (a +:+ b)).
  cbn [list_ascii_of_string]. by rewrite IH.
Qed.

Lemma lastSeparator_name (name : list ascii) (matchedSlash : bool)
    (before : list ascii) :
  name ≠ [] -> Forall (fun x => x ≠ "/"%char) name ->
  lastSeparator matchedSlash (name ++ "/"%char :: before)
  = Some (S (length before)).
Proof.
  intros Hne Hname. revert matchedSlash.
  induction Hname as [|x name Hx Hname IH]; [done|]. intros matchedSlash.
  cbn [app lastSeparator].
  destruct (Ascii.eqb_spec x "/") as [->|_]; [done|].
  destruct name as [|y name]; [|by apply IH].
  cbn [app lastSeparator]. done.
Qed.

Lemma substring_prefix (a b : string) :
  substring 0 (String.length a) (a +:+ b) = a.
Proof.
  induction a as [|x a IH]; [by destruct b|].
  change (String x a +:+ b) with (String x (a +:+ b)).
  cbn [String.length substring]. by rewrite IH.
Qed.

Lemma sanitized_no_slash s :
  Forall (fun x => x ≠ "/"%char) (list_ascii_of_string (sanitizeObjectId s)).
Proof.
  eapply Forall_impl; [apply sanitizeObjectId_chars|].
  simpl. intros x Hx ->. discriminate Hx.
Qed.

Lemma path_dirname_join (dir name : string) (x : ascii) (rest : string) :
  list_ascii_of_string dir ≠ [] ->
  last (list_ascii_of_string dir) ≠ Some "/"%char ->
  name = String x rest ->
  Forall (fun c => c ≠ "/"%char) (list_ascii_of_string name) ->
  path_dirname (path_join dir name) = dir.
Proof.
  intros Hdir Hlast -> Hname. unfold path_join.
  destruct dir as [|c0 tail]; [done|]. clear Hdir.
  change (String c0 tail +:+ ?s) with (String c0 (tail +:+ s)).
  cbn [path_dirname].
  rewrite !list_ascii_of_string_app, !rev_app_distr.
  change (list_ascii_of_string "/") with ["/"%char]. cbn [rev app].
  rewrite <- app_assoc. cbn [app].
  rewrite lastSeparator_name.
  - rewrite length_rev.
    assert (Hroot : Ascii.eqb c0 "/" && (S (length (list_ascii_of_string tail)) =? 1)%nat
                    = false).
    { destruct (Ascii.eqb_spec c0 "/") as [->|_]; [|done].
      destruct tail as [|c1 tail]; [|done]. by destruct Hlast. }
    rewrite Hroot.
    change (String c0 (tail +:+ "/" +:+ String x rest))
      with (String c0 tail +:+ "/" +:+ String x rest).
    replace (S (length (list_ascii_of_string tail)))
      with (String.length (String c0 tail)).
    + apply substring_prefix.
    + cbn [String.length]. f_equal. clear. induction tail as [|y tail IH]; [done|].
      cbn [String.length list_ascii_of_string length]. by rewrite IH.
  - cbn [list_ascii_of_string rev]. intros H.
    by apply app_eq_nil in H as [_ [=]].
  - apply Forall_rev. exact Hname.
Qed.

Lemma last_Forall {A} (P : A -> Prop) (l : list A) (y : A) :
  Forall P l -> last l = Some y -> P y.
Proof.
  induction 1 as [|x l Hx Hl IH]; [done|].
  destruct l as [|z l]; [by intros [= <-]|]. exact IH.
Qed.

(** X27. The download lands in the folder the handler has just made. For
    an object id that is not empty after sanitizing, the directory part
    of the path the handler downloads to,
    [<cwd>/uploads/<id>/original.mp4], is the folder [<cwd>/uploads/<id>]:
    the directory [downloadFileUsingSignedUrl] makes sure of is that
    one, whatever the working directory and the id. *)
Theorem download_lands_in_object_folder (w : World) (q : string) :
  let objectId := sanitizeObjectId q in
  let folderPath := path_join (path_join (cwd w) "uploads") objectId in
  objectId ≠ "" ->
  path_dirname (path_join folderPath "original.mp4") = folderPath.
Proof.
  intros objectId folderPath Hid.
  apply (path_dirname_join folderPath "original.mp4" "o" "riginal.mp4").
  - unfold folderPath, path_join. rewrite !list_ascii_of_string_app.
    destruct objectId; [done|]. cbn [list_ascii_of_string].
    intros H. apply app_eq_nil in H as [_ H]. by apply app_eq_nil in H as [_ [=]].
  - unfold folderPath, path_join at 1.
    rewrite !list_ascii_of_string_app, !last_app.
    destruct (last (list_ascii_of_string objectId)) as [y|] eqn:Hlast.
    + intros [= ->].
      by apply (last_Forall _ _ _ (sanitized_no_slash q) Hlast).
    + apply last_None in Hlast. by destruct objectId.
  - reflexivity.
  - repeat (constructor; [discriminate|]). constructor.
Qed.

Lemma download_lands_in_object_folder_witness :
  let objectId := sanitizeObjectId "../job1" in
  let folderPath := path_join (path_join (cwd exampleWorld) "uploads") objectId in
  path_dirname (path_join folderPath "original.mp4") = folderPath.
Proof.
  apply (download_lands_in_object_folder exampleWorld "../job1").
  discriminate.
Defined.

Example path_dirname_examples :
  path_dirname "/app/uploads/job1/original.mp4" = "/app/uploads/job1" ∧
  path_dirname "original.mp4" = "." ∧
  path_dirname "/original.mp4" = "/" ∧
  path_dirname "/app/uploads/" = "/app" ∧
  path_dirname "" = ".".
Proof. repeat split. Qed.
